(** * Space Invader: a shallow embedding of [spaceinvader.py]

    The game objects of the Python program are records, their methods are
    functions on those records, and everything the program reaches outside
    its own objects (the random generator, the wall clock, the highscore file,
    the list objects shared through the highscore dictionary, the sound
    device, the module-level [GODMODE] flag) is one explicit [World] threaded
    by a small state monad.

    Numbers.  Python [int] is [Z].  Python [float] is modelled by the exact
    rationals [Q]: the model computes with the values the program's float
    expressions denote, without binary rounding.  The counterexamples below
    only subtract dyadic values or assign constants, so there the floats of
    the program take the very values of the model.

    Drawing, the window, the fonts and the synthesis of the sounds are not
    modelled.  The development covers the state of a run, what [update_game]
    and [game_over] do to it, and the main loop of [Game.run] as a function
    of the frames it is given: the time step, the events and the keys of each
    pass. *)

From Stdlib Require Import ZArith QArith Qround Qpower Lia Lqa.
From stdpp Require Import base tactics option list sorting strings relations.

Local Open Scope Z_scope.

(** ** Numeric helpers *)

Definition Qltb (x y : Q) : bool := negb (Qle_bool y x).
Definition Qleb (x y : Q) : bool := Qle_bool x y.

(** Python [int(x)] on a float: truncation toward zero. *)
Definition py_int (x : Q) : Z := Z.quot (Qnum x) (Zpos (Qden x)).

(** Python [round(x)] on a float: nearest integer, ties to the even one. *)
Definition py_round (x : Q) : Z :=
  let f := Qfloor x in
  match Qcompare (x - inject_Z f) (1 # 2) with
  | Lt => f
  | Gt => f + 1
  | Eq => if Z.even f then f else f + 1
  end.

(** Python [max]/[min] on floats. *)
Definition Qmax (x y : Q) : Q := if Qltb x y then y else x.

(** ** Settings and constants *)

Definition WIDTH : Z := 800.
Definition HEIGHT : Z := 600.
Definition FPS : Z := 60.

Definition HARD_MODE : bool := false.
Definition ENABLE_PARTICLES : bool := true.

Definition PLAYER_SPEED : Q := 300 * (if HARD_MODE then 12 # 10 else 1).
Definition PLAYER_SIZE : Z * Z := (50, 30).
Definition PLAYER_CD_MS : Z := py_int (250 * (if HARD_MODE then 8 # 10 else 1)).
Definition PLAYER_MAX_BULLETS : Z := 3 + (if HARD_MODE then 1 else 0).
Definition PLAYER_LIVES : Z := 3.

Definition ENEMY_ROWS : Z := 6.
Definition ENEMY_COLS : Z := 8.
Definition ENEMY_START_SPEED : Q := 72 * (if HARD_MODE then 12 # 10 else 1).
Definition ENEMY_STEP_DOWN : Z := 20.
Definition ENEMY_FIRE_RATE : Q := (28 # 100) * (if HARD_MODE then 12 # 10 else 1).
Definition ENEMY_MAX_BULLETS : Z := if HARD_MODE then 7 else 6.

Definition BOSS_CD_MIN : Q := 20.
Definition BOSS_CD_MAX : Q := 30.
Definition BOSS_SPEED : Q := 200.

Definition PLAYER_BULLET_SPEED : Q := - (500).
Definition ENEMY_BULLET_SPEED : Q := 300.

Definition SHIELD_COUNT : Z := 4.
Definition SHIELD_SEG_ROWS : Z := 3.
Definition SHIELD_SEG_COLS : Z := 6.
Definition SHIELD_SEG_SIZE : Z := 12.
Definition SHIELD_SEG_HP : Z := 3.

Definition WAVE_SPEED_MULT : Q := 110 # 100.
Definition WAVE_FIRE_MULT : Q := 105 # 100.

Definition COMBO_WINDOW : Q := 1.
Definition COMBO_STEP : Q := 1 # 10.

Inductive Scene := SCENE_MENU | SCENE_PLAYING | SCENE_PAUSED | SCENE_GAME_OVER.

Definition Scene_eqb (a b : Scene) : bool :=
  match a, b with
  | SCENE_MENU, SCENE_MENU | SCENE_PLAYING, SCENE_PLAYING
  | SCENE_PAUSED, SCENE_PAUSED | SCENE_GAME_OVER, SCENE_GAME_OVER => true
  | _, _ => false
  end.

(** ** pygame.Rect *)

Record Rect := mkRect { rx : Z; ry : Z; rw : Z; rh : Z }.

Definition left (r : Rect) : Z := rx r.
Definition top (r : Rect) : Z := ry r.
Definition right (r : Rect) : Z := rx r + rw r.
Definition bottom (r : Rect) : Z := ry r + rh r.
Definition centerx (r : Rect) : Z := rx r + rw r / 2.
Definition centery (r : Rect) : Z := ry r + rh r / 2.

Definition set_x (v : Z) (r : Rect) : Rect := mkRect v (ry r) (rw r) (rh r).
Definition set_y (v : Z) (r : Rect) : Rect := mkRect (rx r) v (rw r) (rh r).
Definition set_left (v : Z) (r : Rect) : Rect := set_x v r.
Definition set_right (v : Z) (r : Rect) : Rect := set_x (v - rw r) r.
Definition set_bottom (v : Z) (r : Rect) : Rect := set_y (v - rh r) r.
Definition set_centerx (v : Z) (r : Rect) : Rect := set_x (v - rw r / 2) r.

(** [Rect.colliderect]: the two rectangles overlap on both axes, edges
    excluded; a rectangle of zero width or height collides with nothing. *)
Definition colliderect (a b : Rect) : bool :=
  if (rw a =? 0) || (rh a =? 0) || (rw b =? 0) || (rh b =? 0) then false
  else (Z.min (rx a) (rx a + rw a) <? Z.max (rx b) (rx b + rw b))
    && (Z.min (ry a) (ry a + rh a) <? Z.max (ry b) (ry b + rh b))
    && (Z.min (rx b) (rx b + rw b) <? Z.max (rx a) (rx a + rw a))
    && (Z.min (ry b) (ry b + rh b) <? Z.max (ry a) (ry a + rh a)).

(** ** The world outside the game objects *)

(** What [load_highscores] finds at [HIGHSCORE_PATH].  [FileMalformed] covers
    every content on which the body of the [try] raises: unreadable,
    not JSON, not a JSON object, or a ["top"] entry that is not a list.
    [FileRecord] is a JSON object; its ["top"] list, when the key is there,
    holds integers, as the structure comment of the loader says. *)
Inductive HighscoreFile :=
| FileAbsent
| FileMalformed
| FileRecord (ftop : option (list Z)) (flast_updated : option string).

(** [math.tau], [math.cos] and [math.sin] as the platform computes them. *)
Record MathLib := mkMathLib { tau : Q; cos : Q -> Q; sin : Q -> Q }.

(** Address of a list object. *)
Abbreviation loc := nat.

Record World := mkWorld {
  GODMODE : bool;                 (* the module-level debug flag *)
  lists : list (list Z);          (* the list objects reachable from the highscore dict *)
  highscore_file : HighscoreFile; (* content at HIGHSCORE_PATH *)
  disk_writable : bool;           (* does open(HIGHSCORE_PATH, "w") succeed *)
  rand_draws : nat -> Q;          (* results of random.random(), in call order *)
  rand_ix : nat;
  clock : nat -> Q;               (* results of time.time(), in call order *)
  clock_ix : nat;
  utc_stamp : string;             (* time.strftime("%Y-%m-%dT%H:%M:%SZ", time.gmtime()) *)
  sound_log : list string;        (* cues handed to the mixer, latest first *)
  libm : MathLib
}.

Definition set_lists (v : list (list Z)) (w : World) : World :=
  mkWorld (GODMODE w) v (highscore_file w) (disk_writable w) (rand_draws w)
          (rand_ix w) (clock w) (clock_ix w) (utc_stamp w) (sound_log w) (libm w).
Definition set_highscore_file (v : HighscoreFile) (w : World) : World :=
  mkWorld (GODMODE w) (lists w) v (disk_writable w) (rand_draws w)
          (rand_ix w) (clock w) (clock_ix w) (utc_stamp w) (sound_log w) (libm w).
Definition set_rand_ix (v : nat) (w : World) : World :=
  mkWorld (GODMODE w) (lists w) (highscore_file w) (disk_writable w) (rand_draws w)
          v (clock w) (clock_ix w) (utc_stamp w) (sound_log w) (libm w).
Definition set_clock_ix (v : nat) (w : World) : World :=
  mkWorld (GODMODE w) (lists w) (highscore_file w) (disk_writable w) (rand_draws w)
          (rand_ix w) (clock w) v (utc_stamp w) (sound_log w) (libm w).
Definition set_sound_log (v : list string) (w : World) : World :=
  mkWorld (GODMODE w) (lists w) (highscore_file w) (disk_writable w) (rand_draws w)
          (rand_ix w) (clock w) (clock_ix w) (utc_stamp w) v (libm w).

(** A computation that reads and changes the world. *)
Definition M (A : Type) : Type := World -> A * World.

Global Instance M_ret : MRet M := fun A a w => (a, w).
Global Instance M_bind : MBind M := fun A B k m w => let '(a, w') := m w in k a w'.

Definition get_world : M World := fun w => (w, w).
Definition modify_world (f : World -> World) : M unit := fun w => (tt, f w).

(** [random.random()]: the next draw of the generator, in [0, 1). *)
Definition random_random : M Q :=
  fun w => (rand_draws w (rand_ix w), set_rand_ix (S (rand_ix w)) w).

(** [random.uniform(a, b)] is [a + (b - a) * random()]. *)
Definition random_uniform (a b : Q) : M Q :=
  u ← random_random; mret (a + (b - a) * u)%Q.

(** [random._randbelow(n)], read off one draw: the cell of [0, 1) cut in [n]
    equal parts that the draw falls in. *)
Definition random_below (n : Z) : M Z :=
  u ← random_random; mret (Qfloor (u * inject_Z n)).

(** [random.randint(a, b)] is [a + _randbelow(b - a + 1)]. *)
Definition random_randint (a b : Z) : M Z :=
  k ← random_below (b - a + 1); mret (a + k).

(** [random.choice(seq)] is [seq[_randbelow(len(seq))]]; the caller passes a
    non-empty sequence, [d] stands for the [IndexError] case. *)
Definition random_choice {A} (d : A) (l : list A) : M A :=
  k ← random_below (Z.of_nat (length l)); mret (nth (Z.to_nat k) l d).

(** [time.time()]. *)
Definition time_time : M Q :=
  fun w => (clock w (clock_ix w), set_clock_ix (S (clock_ix w)) w).

(** *** List objects *)

Definition new_list (l : list Z) : M loc :=
  fun w => (length (lists w), set_lists (lists w ++ [l]) w).

Definition read_list (r : loc) : M (list Z) :=
  fun w => (default [] (lists w !! r), w).

(** [lst.append(x)]: the object at [r] changes, for every holder of [r]. *)
Definition list_append (r : loc) (x : Z) : M unit :=
  fun w => (tt, set_lists (alter (fun l => l ++ [x]) r (lists w)) w).

(** ** Highscore persistence *)

(** The dict held in [Game.highscores]: ["top"] refers to a list object. *)
Record HighscoreDict := mkHighscoreDict {
  hs_top : option loc;
  hs_last_updated : option string
}.

(** [sorted(l, reverse=True)] on integers. *)
Definition desc : relation Z := fun x y => y <= x.
Global Instance desc_dec x y : Decision (desc x y) := Z_le_dec y x.
Definition sorted_desc (l : list Z) : list Z := merge_sort desc l.

Definition load_highscores : M HighscoreDict :=
  w ← get_world;
  match highscore_file w with
  | FileAbsent =>
      r ← new_list []; mret (mkHighscoreDict (Some r) (Some (utc_stamp w)))
  | FileRecord ftop flu =>
      match ftop with
      | Some l => r ← new_list l; mret (mkHighscoreDict (Some r) flu)
      | None => mret (mkHighscoreDict None flu)
      end
  | FileMalformed =>
      r ← new_list []; mret (mkHighscoreDict (Some r) (Some (utc_stamp w)))
  end.

Definition save_highscores (top : list Z) : M unit :=
  w ← get_world;
  let data := FileRecord (Some (take 5 (sorted_desc top))) (Some (utc_stamp w)) in
  if disk_writable w then modify_world (set_highscore_file data) else mret tt.

(** ** Sound *)

Module SoundManager.
(** Only the switch matters to the game logic; a cue that is played is
    recorded in the world.  Building the noise cue at start-up reads the
    generator too: the draws of the world are the ones made by the game logic
    after that. *)
Record t := mk { enabled : bool }.

Definition play (s : t) (name : string) : M unit :=
  if enabled s then modify_world (fun w => set_sound_log (name :: sound_log w) w)
  else mret tt.
End SoundManager.

(** ** Entities *)

Module Bullet.
Record t := mk {
  rect : Rect; vy : Q; damage : Z; is_player : bool; alive : bool
}.

(** Every caller passes integer coordinates, so [int(x)] is [x]. *)
Definition new (x y : Z) (vy : Q) (damage : Z) (is_player : bool) : t :=
  mk (mkRect (x - 2) (y - 8) 4 12) vy damage is_player true.

Definition update (dt : Q) (b : t) : t :=
  let r := set_y (ry (rect b) + py_int (vy b * dt)) (rect b) in
  let alive' := if (bottom r <? 0) || (HEIGHT <? top r) then false else alive b in
  mk r (vy b) (damage b) (is_player b) alive'.
End Bullet.

Module Particle.
Record t := mk {
  vx : Q; vy : Q; x : Q; y : Q; life : Q; max_life : Q; size : Z
}.

Definition new (px py : Z) : M t :=
  w ← get_world;
  angle ← random_uniform 0 (tau (libm w));
  speed ← random_uniform 80 220;
  life ← random_uniform (8 # 100) (22 # 100);
  size ← random_randint 1 3;
  mret (mk (cos (libm w) angle * speed) (sin (libm w) angle * speed)
           (inject_Z px) (inject_Z py) life life size).

Definition update (dt : Q) (p : t) : t :=
  mk (vx p) (vy p + 180 * dt) (x p + vx p * dt) (y p + vy p * dt)
     (life p - dt) (max_life p) (size p).
End Particle.

(** The keys [update_game] looks at in [pygame.key.get_pressed()]. *)
Record Keys := mkKeys {
  K_LEFT : bool; K_a : bool; K_RIGHT : bool; K_d : bool; K_SPACE : bool
}.

Module Player.
Record t := mk {
  rect : Rect; speed : Q; shoot_cd : Q; shoot_timer : Q;
  lives : Z; invuln_timer : Q
}.

Definition set_rect (v : Rect) (p : t) : t :=
  mk v (speed p) (shoot_cd p) (shoot_timer p) (lives p) (invuln_timer p).

Definition new (x y : Z) : t :=
  let r := mkRect 0 0 (fst PLAYER_SIZE) (snd PLAYER_SIZE) in
  mk (set_bottom y (set_centerx x r)) PLAYER_SPEED
     (inject_Z PLAYER_CD_MS / 1000) 0 PLAYER_LIVES 0.

Definition reset_position (p : t) : t :=
  set_rect (set_bottom (HEIGHT - 30) (set_centerx (WIDTH / 2) (rect p))) p.

Definition update (dt : Q) (keys : Keys) (p : t) : t :=
  let move := 0%Q in
  let move := if K_LEFT keys || K_a keys then (move - 1)%Q else move in
  let move := if K_RIGHT keys || K_d keys then (move + 1)%Q else move in
  let r := set_x (rx (rect p) + py_int (move * speed p * dt)) (rect p) in
  let r := set_left (Z.max 10 (left r)) r in
  let r := set_right (Z.min (WIDTH - 10) (right r)) r in
  let st := if Qltb 0 (shoot_timer p) then (shoot_timer p - dt)%Q else shoot_timer p in
  let it := if Qltb 0 (invuln_timer p) then (invuln_timer p - dt)%Q else invuln_timer p in
  mk r (speed p) (shoot_cd p) st (lives p) it.

Definition can_shoot (current_player_bullets : Z) (p : t) : bool :=
  Qleb (shoot_timer p) 0 && (current_player_bullets <? PLAYER_MAX_BULLETS).

Definition shoot (p : t) : t * Bullet.t :=
  let bx := centerx (rect p) in
  let by_ := top (rect p) - 6 in
  (mk (rect p) (speed p) (shoot_cd p) (shoot_cd p) (lives p) (invuln_timer p),
   Bullet.new bx by_ PLAYER_BULLET_SPEED 1 true).

(** [godmode] is the value of the global [GODMODE] at the call. *)
Definition hit (godmode : bool) (p : t) : t * bool :=
  if Qltb 0 (invuln_timer p) || godmode then (p, false)
  else (mk (rect p) (speed p) (shoot_cd p) (shoot_timer p) (lives p - 1) (3 # 2), true).
End Player.

Inductive EnemyType := common | tough | shooter.

Module Enemy.
(** The colour of an enemy only serves drawing and is left out. *)
Record t := mk {
  rect : Rect; etype : EnemyType; row_idx : Z; hp : Z; points : Z; hit_flash : Q
}.

Definition new (x y : Z) (et : EnemyType) (row : Z) : t :=
  match et with
  | common => mk (mkRect x y 44 28) et row 1 10 0
  | tough => mk (mkRect x y 44 28) et row 2 20 0
  | shooter => mk (mkRect x y 44 28) et row 1 30 0
  end.

Definition take_damage (dmg : Z) (e : t) : t * bool :=
  (mk (rect e) (etype e) (row_idx e) (hp e - dmg) (points e) (1 # 10),
   hp e - dmg <=? 0).
End Enemy.

(** A monadic [for] loop collecting its results. *)
Fixpoint mapM {A B} (f : A -> M B) (l : list A) : M (list B) :=
  match l with
  | [] => mret []
  | a :: l' => b ← f a; bs ← mapM f l'; mret (b :: bs)
  end.

(** The smallest and the largest element of a list that is not empty. *)
Definition min_list (l : list Z) : Z :=
  match l with [] => 0 | a :: l' => fold_left Z.min l' a end.
Definition max_list (l : list Z) : Z :=
  match l with [] => 0 | a :: l' => fold_left Z.max l' a end.

(** A Python dict with integer keys: entries in insertion order; assigning to
    a key that is there keeps its place. *)
Fixpoint dict_get {V} (k : Z) (d : list (Z * V)) : option V :=
  match d with
  | [] => None
  | (k', v) :: d' => if k =? k' then Some v else dict_get k d'
  end.
Fixpoint dict_set {V} (k : Z) (v : V) (d : list (Z * V)) : list (Z * V) :=
  match d with
  | [] => [(k, v)]
  | (k', v') :: d' => if k =? k' then (k, v) :: d' else (k', v') :: dict_set k v d'
  end.
Definition dict_values {V} (d : list (Z * V)) : list V := map snd d.

Module EnemyGrid.
(** [enemies] never holds [None]: nothing in the program stores one, so the
    [is not None] tests of the source are always true and are left out. *)
Record t := mk {
  enemies : list Enemy.t; dir : Z; speed : Q; descend_pending : Z;
  time_since_shot : Q; fire_rate : Q
}.

Definition set_enemies (v : list Enemy.t) (g : t) : t :=
  mk v (dir g) (speed g) (descend_pending g) (time_since_shot g) (fire_rate g).

(** The grid cells in the order the two nested loops visit them. *)
Definition cells : list (Z * Z) :=
  row ← seqZ 0 ENEMY_ROWS; col ← seqZ 0 ENEMY_COLS; [(row, col)].

Definition new_enemy (cell : Z * Z) : M Enemy.t :=
  let '(row, col) := cell in
  p ← random_random;
  let et := if Qltb p (5 # 100) then shooter
            else if Qltb p (30 # 100) then tough else common in
  mret (Enemy.new (60 + col * 70) (70 + row * 50) et row).

Definition new (wave : Z) : M t :=
  es ← mapM new_enemy cells;
  mret (mk es 1 (ENEMY_START_SPEED * Qpower WAVE_SPEED_MULT (wave - 1)) 0 0
           (ENEMY_FIRE_RATE * Qpower WAVE_FIRE_MULT (wave - 1))).

Definition alive (g : t) : Z := Z.of_nat (length (enemies g)).

Definition bounds (g : t) : Rect :=
  let rects := map Enemy.rect (enemies g) in
  match rects with
  | [] => mkRect 0 0 0 0
  | _ =>
      let l := min_list (map left rects) in
      let r := max_list (map right rects) in
      let t := min_list (map top rects) in
      let b := max_list (map bottom rects) in
      mkRect l t (r - l) (b - t)
  end.

Definition accel (g : t) : Q :=
  1 + (6 # 10) * (1 - inject_Z (alive g) / inject_Z (ENEMY_ROWS * ENEMY_COLS)).

Definition march (dx : Z) (dt : Q) (e : Enemy.t) : Enemy.t :=
  Enemy.mk (set_x (rx (Enemy.rect e) + dx) (Enemy.rect e)) (Enemy.etype e)
           (Enemy.row_idx e) (Enemy.hp e) (Enemy.points e)
           (if Qltb 0 (Enemy.hit_flash e) then (Enemy.hit_flash e - dt)%Q
            else Enemy.hit_flash e).

Definition step_down (e : Enemy.t) : Enemy.t :=
  Enemy.mk (set_y (ry (Enemy.rect e) + ENEMY_STEP_DOWN) (Enemy.rect e))
           (Enemy.etype e) (Enemy.row_idx e) (Enemy.hp e) (Enemy.points e)
           (Enemy.hit_flash e).

Definition hit_edge (g : t) : bool :=
  let b := bounds g in
  ((left b <=? 20) && (dir g <? 0)) || ((WIDTH - 20 <=? right b) && (0 <? dir g)).

Definition update (dt : Q) (g : t) : t :=
  let dx := py_int (inject_Z (dir g) * speed g * accel g * dt) in
  let g1 := set_enemies (map (march dx dt) (enemies g)) g in
  if hit_edge g1 then
    mk (map step_down (enemies g1)) (dir g1 * -1) (speed g1) (descend_pending g1)
       (time_since_shot g1) (fire_rate g1)
  else g1.

(** The dict [cols] after the loop over the enemies. *)
Definition bucket (e : Enemy.t) : Z := centerx (Enemy.rect e) / 70.

Definition cols_step (cols : list (Z * Enemy.t)) (e : Enemy.t) : list (Z * Enemy.t) :=
  match dict_get (bucket e) cols with
  | None => dict_set (bucket e) e cols
  | Some s =>
      if bottom (Enemy.rect s) <? bottom (Enemy.rect e)
      then dict_set (bucket e) e cols else cols
  end.

Definition columns (g : t) : list (Z * Enemy.t) := fold_left cols_step (enemies g) [].

(** Returns the bullet list after the call. *)
Definition try_enemy_shot (bullets : list Bullet.t) (max_enemy_bullets : Z)
    (sound : SoundManager.t) (g : t) : M (list Bullet.t) :=
  let active_enemy_bullets :=
    Z.of_nat (length (filter (fun b => Bullet.is_player b = false) bullets)) in
  if (max_enemy_bullets <=? active_enemy_bullets) || (alive g =? 0) then mret bullets
  else
    let cols := columns g in
    match cols with
    | [] => mret bullets
    | (_, e0) :: _ =>
        u ← random_random;
        if Qltb u (fire_rate g / inject_Z FPS) then
          shooter ← random_choice e0 (dict_values cols);
          let bx := centerx (Enemy.rect shooter) in
          let by_ := bottom (Enemy.rect shooter) + 6 in
          let bullet := Bullet.new bx by_ ENEMY_BULLET_SPEED 1 false in
          _ ← SoundManager.play sound "enemy_shoot";
          mret (bullets ++ [bullet])
        else mret bullets
    end.
End EnemyGrid.

Module Boss.
Record t := mk { rect : Rect; speed : Q; alive : bool }.

Definition new (y : Z) : t := mk (mkRect (-80) y 60 24) BOSS_SPEED true.

Definition update (dt : Q) (b : t) : t :=
  let r := set_x (rx (rect b) + py_int (speed b * dt)) (rect b) in
  mk r (speed b) (if WIDTH + 40 <? left r then false else alive b).
End Boss.

Module ShieldPiece.
Record t := mk { rect : Rect; hp : Z }.

Definition new (x y : Z) : t := mk (mkRect x y SHIELD_SEG_SIZE SHIELD_SEG_SIZE) SHIELD_SEG_HP.

Definition hit (p : t) : t * bool := (mk (rect p) (hp p - 1), hp p - 1 <=? 0).
End ShieldPiece.

Module Shields.
Record t := mk { pieces : list ShieldPiece.t }.

Definition new : t :=
  let margin_x := 80 in
  let spacing := (WIDTH - 2 * margin_x) / (SHIELD_COUNT - 1) in
  let base_y := HEIGHT - 180 in
  mk (i ← seqZ 0 SHIELD_COUNT;
      let left := margin_x + i * spacing - (SHIELD_SEG_COLS * SHIELD_SEG_SIZE) / 2 in
      let top := base_y in
      r ← seqZ 0 SHIELD_SEG_ROWS;
      c ← seqZ 0 SHIELD_SEG_COLS;
      if (r =? SHIELD_SEG_ROWS - 1) && ((c =? 0) || (c =? SHIELD_SEG_COLS - 1)) then []
      else [ShieldPiece.new (left + c * SHIELD_SEG_SIZE) (top + r * SHIELD_SEG_SIZE)]).

(** The loop over the pieces: the first piece that collides is hit, and
    taken out of the list when [hit] reports it dead; the loop stops there. *)
Fixpoint collide_pieces (ps : list ShieldPiece.t) (b : Bullet.t)
    : list ShieldPiece.t * bool :=
  match ps with
  | [] => ([], false)
  | p :: ps' =>
      if colliderect (ShieldPiece.rect p) (Bullet.rect b) then
        let '(p', dead) := ShieldPiece.hit p in
        (if dead then ps' else p' :: ps', true)
      else
        let '(ps'', r) := collide_pieces ps' b in (p :: ps'', r)
  end.

Definition collide_bullet (b : Bullet.t) (s : t) : t * bool :=
  let '(ps, r) := collide_pieces (pieces s) b in (mk ps, r).
End Shields.

(** ** The game controller *)

Module Game.
(** The display, clock and font handles of the object carry no game state
    and are left out. *)
Record t := mk {
  scene : Scene;
  player : Player.t;
  bullets : list Bullet.t;
  particles : list Particle.t;
  grid : option EnemyGrid.t;
  enemy_bullets : list Bullet.t;
  shields : Shields.t;
  wave : Z;
  score : Z;
  combo_mult : Q;
  last_kill_time : Q;
  shake_timer : Q;
  shake_mag : Q;
  boss : option Boss.t;
  next_boss_time : Q;
  highscores : HighscoreDict;
  just_made_highscore : bool;
  debug_god : bool;
  sound : SoundManager.t
}.

Definition set_scene (v : Scene) (g : t) : t :=
  mk v (player g) (bullets g) (particles g) (grid g) (enemy_bullets g) (shields g)
    (wave g) (score g) (combo_mult g) (last_kill_time g) (shake_timer g) (shake_mag g)
    (boss g) (next_boss_time g) (highscores g) (just_made_highscore g) (debug_god g)
    (sound g).
Definition set_player (v : Player.t) (g : t) : t :=
  mk (scene g) v (bullets g) (particles g) (grid g) (enemy_bullets g) (shields g)
    (wave g) (score g) (combo_mult g) (last_kill_time g) (shake_timer g) (shake_mag g)
    (boss g) (next_boss_time g) (highscores g) (just_made_highscore g) (debug_god g)
    (sound g).
Definition set_bullets (v : list Bullet.t) (g : t) : t :=
  mk (scene g) (player g) v (particles g) (grid g) (enemy_bullets g) (shields g)
    (wave g) (score g) (combo_mult g) (last_kill_time g) (shake_timer g) (shake_mag g)
    (boss g) (next_boss_time g) (highscores g) (just_made_highscore g) (debug_god g)
    (sound g).
Definition set_particles (v : list Particle.t) (g : t) : t :=
  mk (scene g) (player g) (bullets g) v (grid g) (enemy_bullets g) (shields g)
    (wave g) (score g) (combo_mult g) (last_kill_time g) (shake_timer g) (shake_mag g)
    (boss g) (next_boss_time g) (highscores g) (just_made_highscore g) (debug_god g)
    (sound g).
Definition set_grid (v : option EnemyGrid.t) (g : t) : t :=
  mk (scene g) (player g) (bullets g) (particles g) v (enemy_bullets g) (shields g)
    (wave g) (score g) (combo_mult g) (last_kill_time g) (shake_timer g) (shake_mag g)
    (boss g) (next_boss_time g) (highscores g) (just_made_highscore g) (debug_god g)
    (sound g).
Definition set_enemy_bullets (v : list Bullet.t) (g : t) : t :=
  mk (scene g) (player g) (bullets g) (particles g) (grid g) v (shields g) (wave g)
    (score g) (combo_mult g) (last_kill_time g) (shake_timer g) (shake_mag g) (boss g)
    (next_boss_time g) (highscores g) (just_made_highscore g) (debug_god g) (sound g).
Definition set_shields (v : Shields.t) (g : t) : t :=
  mk (scene g) (player g) (bullets g) (particles g) (grid g) (enemy_bullets g) v
    (wave g) (score g) (combo_mult g) (last_kill_time g) (shake_timer g) (shake_mag g)
    (boss g) (next_boss_time g) (highscores g) (just_made_highscore g) (debug_god g)
    (sound g).
Definition set_wave (v : Z) (g : t) : t :=
  mk (scene g) (player g) (bullets g) (particles g) (grid g) (enemy_bullets g)
    (shields g) v (score g) (combo_mult g) (last_kill_time g) (shake_timer g)
    (shake_mag g) (boss g) (next_boss_time g) (highscores g) (just_made_highscore g)
    (debug_god g) (sound g).
Definition set_score (v : Z) (g : t) : t :=
  mk (scene g) (player g) (bullets g) (particles g) (grid g) (enemy_bullets g)
    (shields g) (wave g) v (combo_mult g) (last_kill_time g) (shake_timer g)
    (shake_mag g) (boss g) (next_boss_time g) (highscores g) (just_made_highscore g)
    (debug_god g) (sound g).
Definition set_combo_mult (v : Q) (g : t) : t :=
  mk (scene g) (player g) (bullets g) (particles g) (grid g) (enemy_bullets g)
    (shields g) (wave g) (score g) v (last_kill_time g) (shake_timer g) (shake_mag g)
    (boss g) (next_boss_time g) (highscores g) (just_made_highscore g) (debug_god g)
    (sound g).
Definition set_last_kill_time (v : Q) (g : t) : t :=
  mk (scene g) (player g) (bullets g) (particles g) (grid g) (enemy_bullets g)
    (shields g) (wave g) (score g) (combo_mult g) v (shake_timer g) (shake_mag g)
    (boss g) (next_boss_time g) (highscores g) (just_made_highscore g) (debug_god g)
    (sound g).
Definition set_shake_timer (v : Q) (g : t) : t :=
  mk (scene g) (player g) (bullets g) (particles g) (grid g) (enemy_bullets g)
    (shields g) (wave g) (score g) (combo_mult g) (last_kill_time g) v (shake_mag g)
    (boss g) (next_boss_time g) (highscores g) (just_made_highscore g) (debug_god g)
    (sound g).
Definition set_shake_mag (v : Q) (g : t) : t :=
  mk (scene g) (player g) (bullets g) (particles g) (grid g) (enemy_bullets g)
    (shields g) (wave g) (score g) (combo_mult g) (last_kill_time g) (shake_timer g) v
    (boss g) (next_boss_time g) (highscores g) (just_made_highscore g) (debug_god g)
    (sound g).
Definition set_boss (v : option Boss.t) (g : t) : t :=
  mk (scene g) (player g) (bullets g) (particles g) (grid g) (enemy_bullets g)
    (shields g) (wave g) (score g) (combo_mult g) (last_kill_time g) (shake_timer g)
    (shake_mag g) v (next_boss_time g) (highscores g) (just_made_highscore g)
    (debug_god g) (sound g).
Definition set_next_boss_time (v : Q) (g : t) : t :=
  mk (scene g) (player g) (bullets g) (particles g) (grid g) (enemy_bullets g)
    (shields g) (wave g) (score g) (combo_mult g) (last_kill_time g) (shake_timer g)
    (shake_mag g) (boss g) v (highscores g) (just_made_highscore g) (debug_god g)
    (sound g).
Definition set_highscores (v : HighscoreDict) (g : t) : t :=
  mk (scene g) (player g) (bullets g) (particles g) (grid g) (enemy_bullets g)
    (shields g) (wave g) (score g) (combo_mult g) (last_kill_time g) (shake_timer g)
    (shake_mag g) (boss g) (next_boss_time g) v (just_made_highscore g) (debug_god g)
    (sound g).
Definition set_just_made_highscore (v : bool) (g : t) : t :=
  mk (scene g) (player g) (bullets g) (particles g) (grid g) (enemy_bullets g)
    (shields g) (wave g) (score g) (combo_mult g) (last_kill_time g) (shake_timer g)
    (shake_mag g) (boss g) (next_boss_time g) (highscores g) v (debug_god g) (sound g).
Definition set_debug_god (v : bool) (g : t) : t :=
  mk (scene g) (player g) (bullets g) (particles g) (grid g) (enemy_bullets g)
    (shields g) (wave g) (score g) (combo_mult g) (last_kill_time g) (shake_timer g)
    (shake_mag g) (boss g) (next_boss_time g) (highscores g) (just_made_highscore g) v
    (sound g).
Definition set_sound (v : SoundManager.t) (g : t) : t :=
  mk (scene g) (player g) (bullets g) (particles g) (grid g) (enemy_bullets g)
    (shields g) (wave g) (score g) (combo_mult g) (last_kill_time g) (shake_timer g)
    (shake_mag g) (boss g) (next_boss_time g) (highscores g) (just_made_highscore g)
    (debug_god g) v.

(** What [self.highscores.get("top", [])] evaluates to in world [w]. *)
Definition table (w : World) (g : t) : list Z :=
  match hs_top (highscores g) with
  | Some r => default [] (lists w !! r)
  | None => []
  end.

Definition _rand_boss_timer : M Q := random_uniform BOSS_CD_MIN BOSS_CD_MAX.

Definition _start_new_game (reset_scores : bool) (g : t) : M t :=
  let g := set_player (Player.new (WIDTH / 2) (HEIGHT - 30)) g in
  let g := set_bullets [] g in
  let g := set_enemy_bullets [] g in
  let g := set_particles [] g in
  let g := set_shields Shields.new g in
  let g := set_wave 1 g in
  let g := if reset_scores then set_score 0 g else g in
  let g := set_combo_mult 0 g in
  let g := set_last_kill_time (- (999)) g in
  gr ← EnemyGrid.new (wave g);
  let g := set_grid (Some gr) g in
  let g := set_boss None g in
  nbt ← _rand_boss_timer;
  let g := set_next_boss_time nbt g in
  mret (set_just_made_highscore false g).

(** [Game.__init__]. *)
Definition new (mixer_ok : bool) : M t :=
  let sound := SoundManager.mk mixer_ok in
  nbt ← _rand_boss_timer;
  hs ← load_highscores;
  _start_new_game false
    (mk SCENE_MENU (Player.new (WIDTH / 2) (HEIGHT - 30)) [] [] None [] Shields.new
        1 0 0 (- (999)) 0 0 None nbt hs false false sound).

Definition _next_wave (g : t) : M t :=
  let g := set_wave (wave g + 1) g in
  gr ← EnemyGrid.new (wave g);
  let g := set_grid (Some gr) g in
  let g := set_bullets [] g in
  mret (set_enemy_bullets [] g).

Definition spawn_hit_effect (x y : Z) (g : t) : M t :=
  if negb ENABLE_PARTICLES then mret g
  else
    n ← random_randint 6 12;
    ps ← mapM (fun _ => Particle.new x y) (seqZ 0 n);
    mret (set_particles (particles g ++ ps) g).

Definition shake (amount : Q) (g : t) : t :=
  set_shake_mag (Qmax (shake_mag g) amount) (set_shake_timer (28 # 100) g).

Definition score_add (base_points : Z) (g : t) : M t :=
  t ← time_time;
  let g := if Qleb (t - last_kill_time g) COMBO_WINDOW
           then set_combo_mult (combo_mult g + COMBO_STEP) g
           else set_combo_mult 0 g in
  let g := set_last_kill_time t g in
  let pts := py_round (inject_Z base_points * (1 + combo_mult g)) in
  mret (set_score (score g + pts) g).

(** [self.highscores.get("top", [])]: the list object the dict holds, or a
    new empty list that the dict does not hold. *)
Definition highscores_get_top (g : t) : M loc :=
  match hs_top (highscores g) with
  | Some r => mret r
  | None => new_list []
  end.

Definition game_over (g : t) : M t :=
  top ← highscores_get_top g;
  _ ← list_append top (score g);
  l ← read_list top;
  top ← new_list (take 5 (sorted_desc l));
  l ← read_list top;
  jmh ← (if bool_decide (score g ∈ l) then
           cur ← highscores_get_top g;
           lcur ← read_list cur;
           mret (negb (bool_decide (score g ∈ lcur)))
         else mret false);
  let g := set_just_made_highscore jmh g in
  _ ← save_highscores l;
  let g := set_highscores (mkHighscoreDict (Some top) (hs_last_updated (highscores g))) g in
  _ ← (if just_made_highscore g then SoundManager.play (sound g) "highscore"
       else mret tt);
  mret (set_scene SCENE_GAME_OVER g).

(** *** Collision resolution

    Each of the two bullet loops walks a copy of [self.bullets] and takes
    the bullet at hand out of [self.bullets] when it is consumed.  [kept]
    are the bullets already visited that stay, [rest] the ones still to
    visit; [self.bullets] is [kept ++ rest] throughout. *)
Fixpoint bullets_loop (step : Bullet.t -> t -> M (t * bool))
    (kept rest : list Bullet.t) (g : t) : M t :=
  match rest with
  | [] => mret g
  | b :: rest' =>
      r ← step b g;
      let '(g, consumed) := (r : t * bool) in
      let kept := if consumed then kept else kept ++ [b] in
      bullets_loop step kept rest' (set_bullets (kept ++ rest') g)
  end.

(** The loop over the enemies for one player bullet: the first enemy that
    collides takes the damage and leaves the list when it dies.  Returns the
    list after the hit, the enemy hit and whether it died. *)
Fixpoint hit_enemies (es : list Enemy.t) (b : Bullet.t)
    : option (list Enemy.t * Enemy.t * bool) :=
  match es with
  | [] => None
  | e :: es' =>
      if colliderect (Enemy.rect e) (Bullet.rect b) then
        let '(e', dead) := Enemy.take_damage (Bullet.damage b) e in
        Some (if dead then es' else e' :: es', e', dead)
      else
        match hit_enemies es' b with
        | Some (es'', e', dead) => Some (e :: es'', e', dead)
        | None => None
        end
  end.

Definition player_bullet_vs_enemies (b : Bullet.t) (g : t) : M (t * bool) :=
  match grid g with
  | None => mret (g, false)
  | Some gr =>
      match hit_enemies (EnemyGrid.enemies gr) b with
      | None => mret (g, false)
      | Some (es, e, dead) =>
          let g := set_grid (Some (EnemyGrid.set_enemies es gr)) g in
          g ← spawn_hit_effect (centerx (Bullet.rect b)) (centery (Bullet.rect b)) g;
          if dead then
            g ← score_add (Enemy.points e) g;
            _ ← SoundManager.play (sound g) "explosion";
            mret (g, true)
          else mret (g, true)
      end
  end.

Definition player_bullet_step (b : Bullet.t) (g : t) : M (t * bool) :=
  if negb (Bullet.is_player b) then mret (g, false)
  else
    let '(sh, absorbed) := Shields.collide_bullet b (shields g) in
    let g := set_shields sh g in
    if absorbed then mret (g, true)
    else
      match boss g with
      | Some bo =>
          if colliderect (Bullet.rect b) (Boss.rect bo) then
            g ← score_add 100 g;
            g ← spawn_hit_effect (centerx (Boss.rect bo)) (centery (Boss.rect bo)) g;
            let g := set_boss None g in
            _ ← SoundManager.play (sound g) "explosion";
            mret (g, true)
          else player_bullet_vs_enemies b g
      | None => player_bullet_vs_enemies b g
      end.

Definition enemy_bullet_step (b : Bullet.t) (g : t) : M (t * bool) :=
  if Bullet.is_player b then mret (g, false)
  else
    let '(sh, absorbed) := Shields.collide_bullet b (shields g) in
    let g := set_shields sh g in
    if absorbed then mret (g, true)
    else if colliderect (Bullet.rect b) (Player.rect (player g)) then
      w ← get_world;
      let '(p, damaged) := Player.hit (GODMODE w) (player g) in
      let g := set_player p g in
      let g := if damaged then shake 10 g else g in
      g ← (if (Player.lives (player g) <=? 0) && negb (GODMODE w)
           then game_over g else mret g);
      mret (g, true)
    else mret (g, false).

(** The test of the third loop for one enemy. *)
Definition breaches (p : Player.t) (e : Enemy.t) : bool :=
  colliderect (Enemy.rect e) (Player.rect p)
  || (HEIGHT - 50 <=? bottom (Enemy.rect e)).

(** The third loop: at the first enemy that passes the test the penalty is
    applied and the loop is left. *)
Definition enemy_breach (g : t) : M t :=
  match grid g with
  | None => mret g
  | Some gr =>
      if existsb (breaches (player g)) (EnemyGrid.enemies gr) then
        w ← get_world;
        let '(p, damaged) := Player.hit (GODMODE w) (player g) in
        let g := set_player p g in
        let g := if damaged then shake 12 g else g in
        gr' ← EnemyGrid.new (Z.max 1 (wave g));
        let g := set_grid (Some gr') g in
        let g := set_bullets [] g in
        let g := set_player (Player.reset_position (player g)) g in
        if (Player.lives (player g) <=? 0) && negb (GODMODE w)
        then game_over g else mret g
      else mret g
  end.

Definition handle_collisions (dt : Q) (g : t) : M t :=
  g ← bullets_loop player_bullet_step [] (bullets g) g;
  g ← bullets_loop enemy_bullet_step [] (bullets g) g;
  enemy_breach g.

(** *** One frame of the PLAYING scene *)

(** The boss part of [update_game]: countdown, spawn, move, expiry. *)
Definition update_boss (dt : Q) (g : t) : M t :=
  let g := set_next_boss_time (next_boss_time g - dt) g in
  g ← (if Qleb (next_boss_time g) 0 && bool_decide (boss g = None)
          && Scene_eqb (scene g) SCENE_PLAYING
       then
         let g := set_boss (Some (Boss.new 50)) g in
         nbt ← _rand_boss_timer;
         mret (set_next_boss_time nbt g)
       else mret g);
  match boss g with
  | Some bo =>
      let bo := Boss.update dt bo in
      mret (if Boss.alive bo then set_boss (Some bo) g else set_boss None g)
  | None => mret g
  end.

(** Steps 1 and 2 of [update_game]: the player moves and may shoot, the grid
    marches and may shoot. *)
Definition update_player_and_grid (dt : Q) (keys : Keys) (g : t) : M t :=
  (* 1) Input -> player update *)
  let g := set_player (Player.update dt keys (player g)) g in
  g ← (if K_SPACE keys
          && Player.can_shoot
               (Z.of_nat (length (filter (fun b => Bullet.is_player b = true) (bullets g))))
               (player g)
       then
         let '(p, b) := Player.shoot (player g) in
         let g := set_bullets (bullets g ++ [b]) (set_player p g) in
         _ ← SoundManager.play (sound g) "shoot";
         mret g
       else mret g);
  (* 2) Spawns: boss timer, enemy shots *)
  match grid g with
  | Some gr =>
      let gr := EnemyGrid.update dt gr in
      bs ← EnemyGrid.try_enemy_shot (bullets g) ENEMY_MAX_BULLETS (sound g) gr;
      mret (set_bullets bs (set_grid (Some gr) g))
  | None => mret g
  end.

(** Steps 3 to 7 of [update_game]: bullets move, collisions, effects,
    end of wave. *)
Definition update_after_boss (dt : Q) (g : t) : M t :=
  (* 3) Movement -> bullets *)
  let g := set_bullets
             (filter (fun b => Bullet.alive b = true) (map (Bullet.update dt) (bullets g)))
             g in
  (* 4) Collisions *)
  g ← handle_collisions dt g;
  (* 6) Effects *)
  let g := if Qltb 0 (shake_timer g)
           then set_shake_mag (Qmax 0 (shake_mag g - 60 * dt))
                  (set_shake_timer (shake_timer g - dt) g)
           else g in
  let g := if ENABLE_PARTICLES
           then set_particles
                  (filter (fun p => ¬ (Particle.life p <= 0)%Q)
                     (map (Particle.update dt) (particles g))) g
           else g in
  (* 7) End-of-wave check *)
  match grid g with
  | Some gr => if EnemyGrid.alive gr =? 0 then _next_wave g else mret g
  | None => mret g
  end.

Definition update_game (dt : Q) (keys : Keys) (g : t) : M t :=
  g ← update_player_and_grid dt keys g;
  g ← update_boss dt g;
  update_after_boss dt g.
End Game.

(** ** The main loop *)

(** The assignment to the global [GODMODE]. *)
Definition set_GODMODE (v : bool) (w : World) : World :=
  mkWorld v (lists w) (highscore_file w) (disk_writable w) (rand_draws w)
          (rand_ix w) (clock w) (clock_ix w) (utc_stamp w) (sound_log w) (libm w).

(** The keys [run] tests in a KEYDOWN event; [K_other] is any other key. *)
Inductive Key := K_ESCAPE | K_RETURN | K_p | K_s | K_F1 | K_F2 | K_F3 | K_other.

(** The events [run] tells apart; [OTHER] is an event of any other type. *)
Inductive Event := QUIT | KEYDOWN (key : Key) | OTHER.

(** What one pass of the [while] loop reads: the time step from the clock,
    the events of the queue and the keys held down. *)
Record Frame := mkFrame { frame_dt : Q; frame_events : list Event; frame_keys : Keys }.

Module MainLoop.
(** The body of [elif event.type == pygame.KEYDOWN].  The tests on
    [event.key] exclude one another, so the chain of [if]s is a case
    distinction on the key.  What F1 and F2 print is not part of the state.
    [None] is the [AttributeError] of [self.grid.enemies = []] on a grid
    that is [None]. *)
Definition keydown (key : Key) (g : Game.t) (running : bool)
    : M (option (Game.t * bool)) :=
  match key with
  | K_ESCAPE =>
      mret (Some (match Game.scene g with
                  | SCENE_PLAYING => (Game.set_scene SCENE_PAUSED g, running)
                  | SCENE_PAUSED | SCENE_MENU => (g, false)
                  | SCENE_GAME_OVER => (Game.set_scene SCENE_MENU g, running)
                  end))
  | K_RETURN =>
      match Game.scene g with
      | SCENE_MENU =>
          g ← Game._start_new_game true g;
          mret (Some (Game.set_scene SCENE_PLAYING g, running))
      | SCENE_GAME_OVER => mret (Some (Game.set_scene SCENE_MENU g, running))
      | SCENE_PAUSED => mret (Some (Game.set_scene SCENE_PLAYING g, running))
      | SCENE_PLAYING => mret (Some (g, running))
      end
  | K_p =>
      mret (Some (match Game.scene g with
                  | SCENE_PLAYING => (Game.set_scene SCENE_PAUSED g, running)
                  | SCENE_PAUSED => (Game.set_scene SCENE_PLAYING g, running)
                  | _ => (g, running)
                  end))
  | K_s =>
      mret (Some (if Scene_eqb (Game.scene g) SCENE_MENU
                  then (Game.set_sound
                          (SoundManager.mk (negb (SoundManager.enabled (Game.sound g)))) g,
                        running)
                  else (g, running)))
  | K_F1 => mret (Some (g, running))
  | K_F2 =>
      w ← get_world;
      _ ← modify_world (set_GODMODE (negb (GODMODE w)));
      mret (Some (Game.set_debug_god (negb (GODMODE w)) g, running))
  | K_F3 =>
      if Scene_eqb (Game.scene g) SCENE_PLAYING then
        match Game.grid g with
        | Some gr =>
            mret (Some (Game.set_grid (Some (EnemyGrid.set_enemies [] gr)) g, running))
        | None => mret None
        end
      else mret (Some (g, running))
  | K_other => mret (Some (g, running))
  end.

(** [for event in pygame.event.get()]. *)
Fixpoint events (evs : list Event) (g : Game.t) (running : bool)
    : M (option (Game.t * bool)) :=
  match evs with
  | [] => mret (Some (g, running))
  | QUIT :: evs' => events evs' g false
  | KEYDOWN key :: evs' =>
      r ← keydown key g running;
      match r with
      | Some (g, running) => events evs' g running
      | None => mret None
      end
  | OTHER :: evs' => events evs' g running
  end.

(** One pass of the [while] loop, drawing left out: the events, then the
    update of the scene; [update_menu], [update_paused] and
    [update_game_over] do nothing.  Returns the game and [running]. *)
Definition iteration (f : Frame) (g : Game.t) : M (option (Game.t * bool)) :=
  r ← events (frame_events f) g true;
  match r with
  | Some (g, running) =>
      g ← match Game.scene g with
          | SCENE_PLAYING => Game.update_game (frame_dt f) (frame_keys f) g
          | _ => mret g
          end;
      mret (Some (g, running))
  | None => mret None
  end.

(** [Game.run] on the frames given: the loop ends when [running] is false;
    when the frames are used up the game is returned as it stands. *)
Fixpoint run (frames : list Frame) (g : Game.t) : M (option Game.t) :=
  match frames with
  | [] => mret (Some g)
  | f :: frames' =>
      r ← iteration f g;
      match r with
      | Some (g, true) => run frames' g
      | Some (g, false) => mret (Some g)
      | None => mret None
      end
  end.
End MainLoop.

(** ** Sample states

    Concrete worlds and game states on which the properties below are
    exercised.  The generator of [sample_world] always draws one half, so
    that every enemy of a new grid is a common one and no enemy shoots. *)

Definition sample_clock (n : nat) : Q := nth n [10; 21 # 2; 11; 13]%Q 20%Q.

Definition sample_world : World :=
  mkWorld false [] FileAbsent true (fun _ => 1 # 2) 0 sample_clock 0
          "2026-01-01T00:00:00Z" []
          (mkMathLib (6283185 # 1000000) (fun _ => 1%Q) (fun _ => 0%Q)).

(** The game right after [Game.__init__] and Enter in the menu. *)
Definition sample_start : Game.t * World :=
  Eval vm_compute in
    let '(g, w) := Game.new true sample_world in
    let '(g, w) := Game._start_new_game true g w in
    (Game.set_scene SCENE_PLAYING g, w).
Definition sample_game : Game.t := Eval vm_compute in fst sample_start.
Definition sample_world' : World := Eval vm_compute in snd sample_start.

(** The grid of wave 1, and a world whose generator first draws 0.001, below
    the firing threshold [0.28 / 60], and then 0.625, the sixth of eight
    equal cells. *)
Definition sample_grid : EnemyGrid.t := Eval vm_compute in fst (EnemyGrid.new 1 sample_world).

Definition shooting_world : World :=
  mkWorld false [] FileAbsent true
          (fun n => match n with O => 1 # 1000 | _ => 5 # 8 end) 0 sample_clock 0
          "2026-01-01T00:00:00Z" []
          (mkMathLib (6283185 # 1000000) (fun _ => 1%Q) (fun _ => 0%Q)).

(** ** Vocabulary of the statements *)


(** The enemies [try_enemy_shot] chooses from: [list(cols.values())]. *)
Definition shooters (g : EnemyGrid.t) : list Enemy.t :=
  dict_values (EnemyGrid.columns g).

(** The loop invariant of the dict [cols], [seen] being the enemies visited:
    one entry per bucket met, held by a visited enemy of that bucket that is
    at least as low as every visited enemy of the bucket. *)
Definition cols_inv (seen : list Enemy.t) (cols : list (Z * Enemy.t)) : Prop :=
  NoDup (map fst cols)
  /\ (forall k s, (k, s) ∈ cols -> s ∈ seen /\ EnemyGrid.bucket s = k)
  /\ (forall e, e ∈ seen ->
        exists s, dict_get (EnemyGrid.bucket e) cols = Some s
                  /\ bottom (Enemy.rect e) <= bottom (Enemy.rect s)).

(** The list a highscore dict shows in world [w]. *)
Definition dict_table (w : World) (d : HighscoreDict) : list Z :=
  match hs_top d with
  | Some r => default [] (lists w !! r)
  | None => []
  end.

(** The invariant of the highscore table: at most 5 entries, descending. *)
Definition table_ok (l : list Z) : Prop := (length l <= 5)%nat /\ Sorted desc l.

Definition file_ok (f : HighscoreFile) : Prop :=
  match f with
  | FileRecord (Some l) _ => table_ok l
  | _ => True
  end.

(** The dict refers to a list object that is there. *)
Definition dict_valid (w : World) (d : HighscoreDict) : Prop :=
  match hs_top d with
  | Some r => (r < length (lists w))%nat
  | None => True
  end.

(** The test of the third loop of [handle_collisions], as a proposition. *)
Definition breach (p : Player.t) (e : Enemy.t) : Prop :=
  colliderect (Enemy.rect e) (Player.rect p) = true
  \/ HEIGHT - 50 <= bottom (Enemy.rect e).

(** C9 as stated: between [g] and [g'] nothing differs but the grid, the
    bullets and the player's position, lives and invulnerability timer. *)
Definition breach_frame_as_stated (g g' : Game.t) : Prop :=
  g' = Game.set_grid (Game.grid g')
         (Game.set_bullets (Game.bullets g')
            (Game.set_player
               (Player.mk (Player.rect (Game.player g')) (Player.speed (Game.player g))
                          (Player.shoot_cd (Game.player g))
                          (Player.shoot_timer (Game.player g))
                          (Player.lives (Game.player g'))
                          (Player.invuln_timer (Game.player g')))
               g)).

(** A grid with one enemy 42px above the bottom of the screen, below the
    threshold of 50. *)
Definition breached_grid : EnemyGrid.t :=
  EnemyGrid.mk [Enemy.new 100 530 common 5] 1 72 0 0 (28 # 100).
Definition breached_game : Game.t := Game.set_grid (Some breached_grid) sample_game.

(** The same with the player on the last life. *)
Definition breached_last_life : Game.t :=
  Game.set_player (Player.mk (mkRect 375 540 50 30) 300 (1 # 4) 0 1 0) breached_game.

(** [w'] is [w] after some draws of the generator, readings of the clock and
    cues to the mixer, and nothing else. *)
Definition advances (w w' : World) : Prop :=
  w' = set_sound_log (sound_log w')
         (set_clock_ix (clock_ix w') (set_rand_ix (rand_ix w') w))
  /\ (rand_ix w <= rand_ix w')%nat.

(** The highscore table is in order, in memory and on disk. *)
Definition highscores_ok (g : Game.t) (w : World) : Prop :=
  dict_valid w (Game.highscores g)
  /\ table_ok (Game.table w g)
  /\ file_ok (highscore_file w).

Definition no_keys : Keys := mkKeys false false false false false.


(** What the theorems on the shields and on the breach penalty assume of a
    run: the wave number is at least 1 and every shield piece in place has
    hit points left. *)
Definition run_ok (g : Game.t) : Prop :=
  1 <= Game.wave g
  /\ Forall (fun p => 0 < ShieldPiece.hp p) (Shields.pieces (Game.shields g)).




(** Every draw of the generator is in [0, 1), as [random.random()] promises. *)
Definition draws_ok (w : World) : Prop := forall n, (0 <= rand_draws w n < 1)%Q.

(** A particle as [Particle(x, y)] makes it. *)
Definition particle_at (x y : Z) (p : Particle.t) : Prop :=
  Particle.x p = inject_Z x /\ Particle.y p = inject_Z y
  /\ (8 # 100 <= Particle.life p < 22 # 100)%Q
  /\ Particle.max_life p = Particle.life p
  /\ 1 <= Particle.size p <= 3.

(** The counts [update_game] and [try_enemy_shot] compare with the caps. *)
Definition player_shots (l : list Bullet.t) : Z :=
  Z.of_nat (length (filter (fun b => Bullet.is_player b = true) l)).
Definition enemy_shots (l : list Bullet.t) : Z :=
  Z.of_nat (length (filter (fun b => Bullet.is_player b = false) l)).

(** A bullet that [Bullet.update] leaves alive: at least partly between the
    top and the bottom of the screen. *)
Definition on_screen (b : Bullet.t) : Prop :=
  Bullet.alive b = true /\ 0 <= bottom (Bullet.rect b) /\ top (Bullet.rect b) <= HEIGHT.

(** What [Player.hit] followed by the test [lives <= 0 and not GODMODE] makes
    of the player [p] and the scene [sc]: no damage, or one life less and
    1.5 s of invulnerability; the scene is GAME_OVER when no life is left
    outside god mode, and [sc] otherwise. *)
Definition hit_outcome (godmode : bool) (p p' : Player.t) (sc sc' : Scene) : Prop :=
  ((p' = p /\ (godmode = true \/ (0 < Player.invuln_timer p)%Q))
   \/ (godmode = false /\ ~ (0 < Player.invuln_timer p)%Q
       /\ p' = Player.mk (Player.rect p) (Player.speed p) (Player.shoot_cd p)
                         (Player.shoot_timer p) (Player.lives p - 1) (3 # 2)))
  /\ ((sc' = sc /\ ~ (Player.lives p' <= 0 /\ godmode = false))
      \/ (sc' = SCENE_GAME_OVER /\ Player.lives p' <= 0 /\ godmode = false)).

(** Every enemy on the grid has hit points left and is worth points. *)
Definition enemy_ok (e : Enemy.t) : Prop := 0 < Enemy.hp e /\ 0 < Enemy.points e.
Definition grid_ok (g : Game.t) : Prop :=
  match Game.grid g with
  | Some gr => Forall enemy_ok (EnemyGrid.enemies gr)
  | None => True
  end.

(** The shield pieces [ps'] are what is left of [ps]: none is new, none has
    moved, none has gained hit points. *)
Definition worn (ps' ps : list ShieldPiece.t) : Prop :=
  (length ps' <= length ps)%nat
  /\ forall p', p' ∈ ps' ->
       exists p, p ∈ ps /\ ShieldPiece.rect p' = ShieldPiece.rect p
                 /\ ShieldPiece.hp p' <= ShieldPiece.hp p.

(** ** What collision resolution is made of

    [hit_change B] are the changes one bullet can make to the game and the
    world, [B] being what is known of the points that are scored:
    the generator, the clock and the mixer advance; a bullet wears the
    shields; points are scored; particles are set; the boss goes; a player
    bullet strikes an enemy; an enemy bullet strikes the player, which ends
    the game when no life is left. *)
Inductive hit_change (B : Z -> Prop) : relation (Game.t * World) :=
| hc_world g w w' :
    advances w w' -> hit_change B (g, w) (g, w')
| hc_shields g w b :
    hit_change B (g, w)
      (Game.set_shields (fst (Shields.collide_bullet b (Game.shields g))) g, w)
| hc_score g w base :
    B base -> hit_change B (g, w) (Game.score_add base g w)
| hc_particles g w ps :
    hit_change B (g, w) (Game.set_particles ps g, w)
| hc_boss g w :
    hit_change B (g, w) (Game.set_boss None g, w)
| hc_enemies g w gr b es e dead :
    Game.grid g = Some gr ->
    Game.hit_enemies (EnemyGrid.enemies gr) b = Some (es, e, dead) ->
    hit_change B (g, w) (Game.set_grid (Some (EnemyGrid.set_enemies es gr)) g, w)
| hc_player_hit g w amount :
    hit_change B (g, w)
      (let hit := Player.hit (GODMODE w) (Game.player g) in
       let g1 := Game.set_player (fst hit) g in
       let g1 := if snd hit then Game.shake amount g1 else g1 in
       if (Player.lives (fst hit) <=? 0) && negb (GODMODE w)
       then Game.game_over g1 w else (g1, w)).

(** [change B] adds what the loops around the bullets do: bullets leave the
    list, the breach penalty is applied. *)
Inductive change (B : Z -> Prop) : relation (Game.t * World) :=
| ch_hit s s' :
    hit_change B s s' -> change B s s'
| ch_bullets g w bs :
    sublist bs (Game.bullets g) -> change B (g, w) (Game.set_bullets bs g, w)
| ch_breach g w gr :
    Game.grid g = Some gr ->
    Exists (breach (Game.player g)) (EnemyGrid.enemies gr) ->
    change B (g, w) (Game.enemy_breach g w).

(** The points of every enemy on the grid are known to [B]. *)
Definition points_known (B : Z -> Prop) (g : Game.t) : Prop :=
  match Game.grid g with
  | Some gr => Forall (fun e => B (Enemy.points e)) (EnemyGrid.enemies gr)
  | None => True
  end.

(** The bullets after the movement step of [update_game]. *)
Definition moved_bullets (dt : Q) (g : Game.t) : list Bullet.t :=
  filter (fun b => Bullet.alive b = true) (map (Bullet.update dt) (Game.bullets g)).

(** The effects step of [update_game]: the shake dies down, the particles
    move and the ones whose life is over go. *)
Definition settle (dt : Q) (g : Game.t) : Game.t :=
  let g := if Qltb 0 (Game.shake_timer g)
           then Game.set_shake_mag (Qmax 0 (Game.shake_mag g - 60 * dt))
                  (Game.set_shake_timer (Game.shake_timer g - dt) g)
           else g in
  Game.set_particles
    (filter (fun p => ~ (Particle.life p <= 0)%Q)
       (map (Particle.update dt) (Game.particles g))) g.


(** What holds of the game throughout a session. *)
Definition session_ok (g : Game.t) : Prop :=
  is_Some (Game.grid g)
  /\ grid_ok g
  /\ (player_shots (Game.bullets g) <= PLAYER_MAX_BULLETS
      /\ enemy_shots (Game.bullets g) <= ENEMY_MAX_BULLETS)
  /\ (0 <= Game.score g /\ (0 <= Game.combo_mult g)%Q)
  /\ (0 <= Player.lives (Game.player g) <= PLAYER_LIVES
      /\ (Game.scene g = SCENE_PLAYING \/ Game.scene g = SCENE_PAUSED ->
          0 < Player.lives (Game.player g)))
  /\ run_ok g.

(** ** More sample states

    Games and frames on which the properties of a frame and of a session are
    exercised. *)

Definition space_held : Keys := mkKeys false false false false true.

(** Three player bullets in flight between two columns of the grid. *)
Definition full_magazine : Game.t :=
  Game.set_bullets (repeat (Bullet.new 400 300 PLAYER_BULLET_SPEED 1 true) 3) sample_game.

(** A player bullet just below the first enemy of the grid. *)
Definition aimed_game : Game.t :=
  Game.set_bullets [Bullet.new 80 100 PLAYER_BULLET_SPEED 1 true] sample_game.

(** The last life, a score of 120 and two enemy bullets on the ship. *)
Definition on_ship : Bullet.t := Bullet.new 400 560 ENEMY_BULLET_SPEED 1 false.
Definition last_life_game : Game.t :=
  Game.set_bullets [on_ship; on_ship]
    (Game.set_player (Player.mk (mkRect 375 540 50 30) 300 (1 # 4) 0 1 0)
       (Game.set_score 120 sample_game)).
Definition after_first_bullet : Game.t * World :=
  Eval vm_compute in
    let r := Game.enemy_bullet_step on_ship last_life_game sample_world' in
    (fst (fst r), snd r).

(** Frames of the main loop. *)
Definition enter_frame : Frame := mkFrame (1 # 60) [KEYDOWN K_RETURN] no_keys.
Definition pause_frame : Frame := mkFrame (1 # 60) [KEYDOWN K_p] no_keys.
Definition skip_frame : Frame := mkFrame (1 # 60) [KEYDOWN K_F3] no_keys.

(** * Properties *)

(** ** Comparisons and rounding *)

Lemma Qltb_lt (x y : Q) : Qltb x y = true <-> (x < y)%Q.
Proof.
  unfold Qltb. rewrite negb_true_iff, <- not_true_iff_false, Qle_bool_iff.
  split; [apply Qnot_le_lt | apply Qlt_not_le].
Qed.

Lemma Qltb_ge (x y : Q) : Qltb x y = false <-> (y <= x)%Q.
Proof. unfold Qltb. rewrite negb_false_iff. apply Qle_bool_iff. Qed.



(** [py_round] returns an integer at distance at most one half. *)
Lemma py_round_nearest (x : Q) :
  (inject_Z (py_round x) - (1 # 2) <= x <= inject_Z (py_round x) + (1 # 2))%Q.
Proof.
  unfold py_round.
  pose proof (Qfloor_le x) as Hlo. pose proof (Qlt_floor x) as Hhi.
  set (f := Qfloor x) in *.
  assert (Hf1 : (inject_Z (f + 1) == inject_Z f + 1)%Q)
    by (rewrite inject_Z_plus; reflexivity).
  destruct (Qcompare (x - inject_Z f) (1 # 2)) eqn:Hc.
  - apply Qeq_alt in Hc. destruct (Z.even f); [lra | rewrite Hf1; lra].
  - apply Qlt_alt in Hc. lra.
  - apply Qgt_alt in Hc. rewrite Hf1. lra.
Qed.

Example py_round_ties :
  py_round (5 # 2) = 2 /\ py_round (7 # 2) = 4 /\ py_round (-5 # 2) = -2
  /\ py_round (26 # 10) = 3 /\ py_int (-7 # 2) = -3 /\ py_int (7 # 2) = 3.
Proof. repeat split. Qed.

(** ** Player.hit *)

(** C3.  [Player.hit] does nothing and returns false while the
    invulnerability timer is positive or god-mode is on: the player is the
    same record, so no life is lost and the timer is not restarted.
    Otherwise it returns true, takes exactly one life, sets the timer to
    exactly 1.5 and leaves every other attribute as it was. *)
Theorem Player_hit_spec (godmode : bool) (p : Player.t) :
  ((0 < Player.invuln_timer p)%Q \/ godmode = true ->
     Player.hit godmode p = (p, false))
  /\ (~ (0 < Player.invuln_timer p)%Q -> godmode = false ->
     exists p', Player.hit godmode p = (p', true)
       /\ Player.lives p' = Player.lives p - 1
       /\ Player.invuln_timer p' = 3 # 2
       /\ Player.rect p' = Player.rect p
       /\ Player.speed p' = Player.speed p
       /\ Player.shoot_cd p' = Player.shoot_cd p
       /\ Player.shoot_timer p' = Player.shoot_timer p).
Proof.
  unfold Player.hit. split.
  - intros [Ht | Hg].
    + apply Qltb_lt in Ht. rewrite Ht. reflexivity.
    + rewrite Hg, orb_true_r. reflexivity.
  - intros Ht Hg. subst godmode.
    destruct (Qltb 0 (Player.invuln_timer p)) eqn:E.
    + apply Qltb_lt in E. contradiction.
    + simpl. eexists. repeat split.
Qed.

(** Both cases of [Player_hit_spec] at a player fresh from [Player.new],
    first hit and then hit again inside the invulnerability window. *)
Lemma Player_hit_spec_witness :
  let p := Player.new 400 570 in
  (exists p', Player.hit false p = (p', true) /\ Player.lives p' = 2
     /\ Player.invuln_timer p' = 3 # 2)
  /\ (forall p', Player.hit false p = (p', true) -> Player.hit false p' = (p', false))
  /\ Player.hit true p = (p, false).
Proof.
  intros p. split; [| split].
  - destruct (proj2 (Player_hit_spec false p)) as (p' & H & Hl & Ht & _);
      [vm_compute; discriminate | reflexivity |].
    exists p'. split; [exact H |]. split; [rewrite Hl; reflexivity | exact Ht].
  - intros p' H. apply (proj1 (Player_hit_spec false p')). left.
    vm_compute in H. inversion H. reflexivity.
  - apply (proj1 (Player_hit_spec true p)). right. reflexivity.
Defined.

(** ** Game.score_add *)


(** What [score_add] leaves alone: every attribute but the score, the
    multiplier and the last-kill time, and all of the world but the clock. *)
Lemma score_add_frame (base_points : Z) (g : Game.t) (w : World) :
  let '(g', w') := Game.score_add base_points g w in
  w' = set_clock_ix (S (clock_ix w)) w
  /\ g' = Game.set_score (Game.score g') (Game.set_last_kill_time (Game.last_kill_time g')
            (Game.set_combo_mult (Game.combo_mult g') g)).
Proof.
  unfold Game.score_add, time_time, mbind, M_bind, mret, M_ret. simpl.
  destruct (Qleb _ _); split; reflexivity.
Qed.


(** ** Shields.collide_bullet *)

Section CollideBullet.
Variable b : Bullet.t.

Local Abbreviation hits :=
  (fun p : ShieldPiece.t => colliderect (ShieldPiece.rect p) (Bullet.rect b) = true).
Local Abbreviation misses :=
  (fun p : ShieldPiece.t => colliderect (ShieldPiece.rect p) (Bullet.rect b) = false).

Lemma collide_pieces_miss ps :
  Forall misses ps -> Shields.collide_pieces ps b = (ps, false).
Proof.
  induction 1 as [| p ps Hp _ IH]; simpl; [reflexivity |].
  rewrite Hp, IH. reflexivity.
Qed.

Lemma collide_pieces_first pre p post :
  Forall misses pre ->
  colliderect (ShieldPiece.rect p) (Bullet.rect b) = true ->
  Shields.collide_pieces (pre ++ p :: post) b =
    (pre ++ (if ShieldPiece.hp p - 1 <=? 0 then post
             else ShieldPiece.mk (ShieldPiece.rect p) (ShieldPiece.hp p - 1) :: post),
     true).
Proof.
  intros Hpre Hp. induction Hpre as [| q pre Hq _ IH]; simpl.
  - rewrite Hp. destruct (ShieldPiece.hp p - 1 <=? 0); reflexivity.
  - rewrite Hq, IH. reflexivity.
Qed.

(** The first piece that the bullet intersects, when there is one. *)
Lemma first_hit_split ps :
  Exists hits ps ->
  exists pre p post, ps = pre ++ p :: post /\ Forall misses pre
    /\ colliderect (ShieldPiece.rect p) (Bullet.rect b) = true.
Proof.
  induction ps as [| q ps IH]; intros H; [inversion H |].
  destruct (colliderect (ShieldPiece.rect q) (Bullet.rect b)) eqn:E.
  - exists [], q, ps. repeat split; [constructor | exact E].
  - destruct IH as (pre & p & post & -> & Hpre & Hp).
    + inversion H as [? ? Hq | ? ? Hps]; subst; [| exact Hps].
      simpl in Hq. congruence.
    + exists (q :: pre), p, post. repeat split; [constructor; assumption | exact Hp].
Qed.

(** The pieces that stay after a bullet have hit points left. *)
Lemma collide_bullet_hp (s : Shields.t) :
  Forall (fun p => 0 < ShieldPiece.hp p) (Shields.pieces s) ->
  Forall (fun p => 0 < ShieldPiece.hp p)
         (Shields.pieces (fst (Shields.collide_bullet b s))).
Proof.
  intros Hhp. destruct s as [ps]. unfold Shields.collide_bullet. simpl in *.
  destruct (Exists_dec hits ps) as [Hex | Hno].
  - destruct (first_hit_split _ Hex) as (pre & p & post & -> & Hpre & Hp).
    rewrite (collide_pieces_first _ _ _ Hpre Hp). simpl.
    apply Forall_app in Hhp as [Hhp1 Hhp2]. apply Forall_cons in Hhp2 as [Hp0 Hhp2].
    apply Forall_app. split; [exact Hhp1 |].
    destruct (Z.leb_spec (ShieldPiece.hp p - 1) 0); [exact Hhp2 |].
    constructor; [simpl; lia | exact Hhp2].
  - rewrite collide_pieces_miss; [exact Hhp |].
    apply Forall_forall. intros p Hin.
    destruct (colliderect _ _) eqn:E; [| reflexivity].
    exfalso. apply Hno. apply Exists_exists. exists p. split; [exact Hin | exact E].
Qed.

(** C5.  On shields whose pieces all have hit points left (they start with 3
    and leave the list at zero), and for any bullet, the player's or an
    enemy's: when no piece intersects the bullet the call returns false and
    the shields are unchanged; otherwise the first intersecting piece in the
    stored order loses exactly one hit point, is removed exactly when that
    leaves it at zero, every other piece stays as it was and where it was, and
    the call returns true in both cases.  The pieces left all have hit points
    again. *)
Theorem Shields_collide_bullet_spec (s : Shields.t) :
  Forall (fun p => 0 < ShieldPiece.hp p) (Shields.pieces s) ->
  (Forall misses (Shields.pieces s) -> Shields.collide_bullet b s = (s, false))
  /\ (Exists hits (Shields.pieces s) ->
      exists pre p post,
        Shields.pieces s = pre ++ p :: post
        /\ Forall misses pre
        /\ colliderect (ShieldPiece.rect p) (Bullet.rect b) = true
        /\ Shields.collide_bullet b s =
             (Shields.mk
                (pre ++ (if decide (ShieldPiece.hp p - 1 = 0) then []
                         else [ShieldPiece.mk (ShieldPiece.rect p) (ShieldPiece.hp p - 1)])
                     ++ post),
              true))
  /\ Forall (fun p => 0 < ShieldPiece.hp p)
       (Shields.pieces (fst (Shields.collide_bullet b s))).
Proof.
  intros Hhp. destruct s as [ps]. unfold Shields.collide_bullet. simpl in *.
  split; [| split].
  - intros Hmiss. rewrite (collide_pieces_miss _ Hmiss). reflexivity.
  - intros Hex. destruct (first_hit_split _ Hex) as (pre & p & post & -> & Hpre & Hp).
    exists pre, p, post. repeat split; try assumption.
    rewrite (collide_pieces_first _ _ _ Hpre Hp).
    apply Forall_app in Hhp as [_ Hhp]. apply Forall_cons in Hhp as [Hp0 _].
    destruct (decide (ShieldPiece.hp p - 1 = 0)) as [E | E].
    + rewrite E. reflexivity.
    + destruct (Z.leb_spec (ShieldPiece.hp p - 1) 0); [lia | reflexivity].
  - exact (collide_bullet_hp (Shields.mk ps) Hhp).
Qed.

End CollideBullet.

(** The shields of a new game: 4 clusters of 16 pieces, 3 hit points each. *)
Lemma Shields_new_pieces :
  length (Shields.pieces Shields.new) = 64%nat
  /\ Forall (fun p => ShieldPiece.hp p = 3) (Shields.pieces Shields.new).
Proof. split; [reflexivity |]. apply (bool_decide_unpack _). vm_compute. exact I. Qed.

(** [Shields_collide_bullet_spec] on the shields of a new game: an enemy
    bullet over the top-left corner of the first cluster meets the first piece,
    which keeps 2 of its 3 hit points and its place, and is gone after the
    third such bullet; a bullet at the top of the screen meets nothing. *)
Lemma Shields_collide_bullet_spec_witness :
  let b := Bullet.new 50 430 ENEMY_BULLET_SPEED 1 false in
  let far := Bullet.new 400 20 PLAYER_BULLET_SPEED 1 true in
  let thrice := fst (Shields.collide_bullet b
                  (fst (Shields.collide_bullet b
                     (fst (Shields.collide_bullet b Shields.new))))) in
  Forall (fun p => 0 < ShieldPiece.hp p) (Shields.pieces Shields.new)
  /\ Shields.collide_bullet far Shields.new = (Shields.new, false)
  /\ Shields.pieces thrice = tail (Shields.pieces Shields.new)
  /\ exists pre p post,
       Shields.pieces Shields.new = pre ++ p :: post
       /\ pre = [] /\ ShieldPiece.rect p = mkRect 44 420 12 12
       /\ Shields.collide_bullet b Shields.new =
            (Shields.mk (pre ++ [ShieldPiece.mk (ShieldPiece.rect p) 2] ++ post), true).
Proof.
  intros b far thrice.
  assert (Hhp : Forall (fun p => 0 < ShieldPiece.hp p) (Shields.pieces Shields.new))
    by (apply (bool_decide_unpack _); vm_compute; exact I).
  split; [exact Hhp |]. split; [| split; [vm_compute; reflexivity |]].
  - apply (proj1 (Shields_collide_bullet_spec far Shields.new Hhp)).
    apply (bool_decide_unpack _). vm_compute. exact I.
  - destruct (proj1 (proj2 (Shields_collide_bullet_spec b Shields.new Hhp)))
      as (pre & p & post & Hsplit & Hpre & Hp & Hres).
    { apply Exists_cons_hd. reflexivity. }
    assert (Hpre0 : pre = []).
    { destruct pre as [| q pre]; [reflexivity |]. exfalso.
      apply Forall_cons in Hpre as [Hq _]. inversion Hsplit; subst q.
      vm_compute in Hq. discriminate. }
    subst pre. inversion Hsplit; subst p post.
    eexists [], _, _. split; [reflexivity |]. split; [reflexivity |].
    split; [reflexivity |]. exact Hres.
Defined.

(** ** EnemyGrid.update *)

Lemma fold_left_min_le (l : list Z) (a k : Z) :
  fold_left Z.min l a <= k <-> a <= k \/ Exists (fun x => x <= k) l.
Proof.
  revert a. induction l as [| x l IH]; intros a; simpl.
  - split; [left; assumption | intros [H | H]; [assumption | inversion H]].
  - rewrite IH, Exists_cons, Z.min_le_iff. tauto.
Qed.

Lemma fold_left_max_ge (l : list Z) (a k : Z) :
  k <= fold_left Z.max l a <-> k <= a \/ Exists (fun x => k <= x) l.
Proof.
  revert a. induction l as [| x l IH]; intros a; simpl.
  - split; [left; assumption | intros [H | H]; [assumption | inversion H]].
  - rewrite IH, Exists_cons, Z.max_le_iff. tauto.
Qed.

(** The bounding box of a grid that is not empty reaches a margin exactly
    when the box of one of its enemies does. *)
Lemma bounds_left_le (g : EnemyGrid.t) (k : Z) :
  EnemyGrid.enemies g <> [] ->
  left (EnemyGrid.bounds g) <= k
  <-> Exists (fun e => left (Enemy.rect e) <= k) (EnemyGrid.enemies g).
Proof.
  unfold EnemyGrid.bounds. destruct (EnemyGrid.enemies g) as [| e es]; [congruence |].
  intros _. cbn [map left rx min_list]. rewrite fold_left_min_le, Exists_cons.
  rewrite !Exists_fmap. reflexivity.
Qed.

Lemma bounds_right_ge (g : EnemyGrid.t) (k : Z) :
  EnemyGrid.enemies g <> [] ->
  k <= right (EnemyGrid.bounds g)
  <-> Exists (fun e => k <= right (Enemy.rect e)) (EnemyGrid.enemies g).
Proof.
  unfold EnemyGrid.bounds. destruct (EnemyGrid.enemies g) as [| e es]; [congruence |].
  intros _. cbn [map min_list max_list]. unfold right at 1. cbn [rx rw].
  replace (_ + (_ - _)) with
    (fold_left Z.max (map right (map Enemy.rect es)) (right (Enemy.rect e))) by lia.
  rewrite fold_left_max_ge, Exists_cons, !Exists_fmap. reflexivity.
Qed.



(** ** EnemyGrid.try_enemy_shot *)

Section Dict.
Context {V : Type}.
Implicit Types (d : list (Z * V)) (k : Z) (v : V).

Lemma dict_get_set_eq d k v : dict_get k (dict_set k v d) = Some v.
Proof.
  induction d as [| [k' v'] d IH]; simpl.
  - rewrite Z.eqb_refl. reflexivity.
  - destruct (k =? k') eqn:E; simpl; [rewrite Z.eqb_refl | rewrite E]; auto.
Qed.

Lemma dict_get_set_ne d k k' v : k <> k' -> dict_get k' (dict_set k v d) = dict_get k' d.
Proof.
  intros Hne. induction d as [| [k0 v0] d IH]; simpl.
  - destruct (Z.eqb_spec k' k); [congruence | reflexivity].
  - destruct (Z.eqb_spec k k0) as [-> | Hk]; simpl.
    + destruct (Z.eqb_spec k' k0); [congruence | reflexivity].
    + rewrite IH. reflexivity.
Qed.

Lemma dict_get_elem d k v : dict_get k d = Some v -> (k, v) ∈ d.
Proof.
  induction d as [| [k' v'] d IH]; simpl; [discriminate |].
  destruct (Z.eqb_spec k k') as [-> | Hk].
  - intros [= ->]. left.
  - intros H. right. auto.
Qed.

Lemma dict_get_None d k : dict_get k d = None -> k ∉ map fst d.
Proof.
  induction d as [| [k' v'] d IH]; simpl; [intros _; apply not_elem_of_nil |].
  destruct (Z.eqb_spec k k') as [-> | Hk]; [discriminate |].
  intros H. apply not_elem_of_cons. auto.
Qed.

Lemma elem_of_dict_set d k v k' v' :
  (k', v') ∈ dict_set k v d -> (k' = k /\ v' = v) \/ (k', v') ∈ d.
Proof.
  induction d as [| [k0 v0] d IH]; simpl.
  - intros H. apply list_elem_of_singleton in H. inversion H. auto.
  - destruct (Z.eqb_spec k k0) as [-> | Hk]; intros H;
      apply elem_of_cons in H as [H | H].
    + inversion H. auto.
    + right. right. exact H.
    + right. rewrite H. left.
    + destruct (IH H) as [? | ?]; [auto | right; right; assumption].
Qed.

Lemma elem_of_keys_dict_set d k v k' :
  k' ∈ map fst (dict_set k v d) -> k' = k \/ k' ∈ map fst d.
Proof.
  intros H. apply list_elem_of_fmap in H as [[k0 v0] [-> H]].
  destruct (elem_of_dict_set _ _ _ _ _ H) as [[-> _] | H']; [auto |].
  right. apply list_elem_of_fmap. exists (k0, v0). auto.
Qed.

Lemma NoDup_dict_set d k v : NoDup (map fst d) -> NoDup (map fst (dict_set k v d)).
Proof.
  induction d as [| [k0 v0] d IH]; simpl; intros H.
  - apply NoDup_singleton.
  - apply NoDup_cons in H as [Hk0 Hd].
    destruct (Z.eqb_spec k k0) as [-> | Hk]; simpl; apply NoDup_cons.
    + auto.
    + split; [| auto]. intros Hin.
      destruct (elem_of_keys_dict_set _ _ _ _ Hin); [congruence | contradiction].
Qed.
End Dict.

Lemma cols_step_inv seen cols e :
  cols_inv seen cols -> cols_inv (seen ++ [e]) (EnemyGrid.cols_step cols e).
Proof.
  intros (Hnd & Hin & Hlow). unfold EnemyGrid.cols_step.
  assert (Hset : cols_inv (seen ++ [e]) (dict_set (EnemyGrid.bucket e) e cols)
                 \/ exists s0, dict_get (EnemyGrid.bucket e) cols = Some s0
                      /\ bottom (Enemy.rect e) <= bottom (Enemy.rect s0));
    [| destruct (dict_get (EnemyGrid.bucket e) cols) as [s0 |] eqn:Hget].
  { destruct (dict_get (EnemyGrid.bucket e) cols) as [s0 |] eqn:Hget.
    - destruct (Z.le_gt_cases (bottom (Enemy.rect e)) (bottom (Enemy.rect s0)));
        [right; eauto |].
      left. split; [apply NoDup_dict_set, Hnd |]. split.
      + intros k s Hks. destruct (elem_of_dict_set _ _ _ _ _ Hks) as [[-> ->] | H'].
        * split; [apply elem_of_app; right; left | reflexivity].
        * destruct (Hin _ _ H'). split; [apply elem_of_app; left |]; assumption.
      + intros e' He'. apply elem_of_app in He' as [He' | He'].
        * destruct (Hlow _ He') as (s & Hs & Hle).
          destruct (Z.eq_dec (EnemyGrid.bucket e) (EnemyGrid.bucket e')) as [Eb | Eb].
          -- rewrite <- Eb, dict_get_set_eq. exists e. split; [reflexivity |].
             rewrite <- Eb, Hget in Hs. inversion Hs; subst. lia.
          -- rewrite dict_get_set_ne by exact Eb. eauto.
        * apply list_elem_of_singleton in He' as ->.
          rewrite dict_get_set_eq. exists e. split; [reflexivity | lia].
    - left. split; [apply NoDup_dict_set, Hnd |]. split.
      + intros k s Hks. destruct (elem_of_dict_set _ _ _ _ _ Hks) as [[-> ->] | H'].
        * split; [apply elem_of_app; right; left | reflexivity].
        * destruct (Hin _ _ H'). split; [apply elem_of_app; left |]; assumption.
      + intros e' He'. apply elem_of_app in He' as [He' | He'].
        * destruct (Hlow _ He') as (s & Hs & Hle).
          destruct (Z.eq_dec (EnemyGrid.bucket e) (EnemyGrid.bucket e')) as [Eb | Eb];
            [rewrite <- Eb, Hget in Hs; discriminate |].
          rewrite dict_get_set_ne by exact Eb. eauto.
        * apply list_elem_of_singleton in He' as ->.
          rewrite dict_get_set_eq. exists e. split; [reflexivity | lia]. }
  - destruct (Z.ltb_spec (bottom (Enemy.rect s0)) (bottom (Enemy.rect e))) as [Hlt | Hge].
    + destruct Hset as [H | (s1 & Hs1 & Hle)]; [exact H |].
      inversion Hs1; subst. lia.
    + split; [exact Hnd |]. split.
      * intros k s Hks. destruct (Hin _ _ Hks). split; [apply elem_of_app; left |]; assumption.
      * intros e' He'. apply elem_of_app in He' as [He' | He']; [auto |].
        apply list_elem_of_singleton in He' as ->. eauto.
  - destruct Hset as [H | (s1 & Hs1 & _)]; [exact H | discriminate].
Qed.

Lemma columns_inv (g : EnemyGrid.t) : cols_inv (EnemyGrid.enemies g) (EnemyGrid.columns g).
Proof.
  unfold EnemyGrid.columns.
  assert (H : forall es seen cols, cols_inv seen cols ->
                cols_inv (seen ++ es) (fold_left EnemyGrid.cols_step es cols)).
  { induction es as [| e es IH]; intros seen cols Hinv; simpl.
    - rewrite app_nil_r. exact Hinv.
    - rewrite (cons_middle e seen es), app_assoc. apply IH, cols_step_inv, Hinv. }
  apply (H (EnemyGrid.enemies g) [] []). split; [constructor |]. split.
  - intros k s Hks. apply elem_of_nil in Hks. contradiction.
  - intros e He. apply elem_of_nil in He. contradiction.
Qed.

(** The columns after the loop: one shooter per bucket that has an enemy,
    itself an enemy of the grid, and none of its bucket is lower. *)
Lemma shooters_spec (g : EnemyGrid.t) :
  (forall s, s ∈ shooters g -> s ∈ EnemyGrid.enemies g)
  /\ NoDup (map EnemyGrid.bucket (shooters g))
  /\ (forall e, e ∈ EnemyGrid.enemies g ->
       exists s, s ∈ shooters g /\ EnemyGrid.bucket s = EnemyGrid.bucket e
                 /\ bottom (Enemy.rect e) <= bottom (Enemy.rect s)).
Proof.
  destruct (columns_inv g) as (Hnd & Hin & Hlow). unfold shooters, dict_values.
  split; [| split].
  - intros s Hs. apply list_elem_of_fmap in Hs as [[k s'] [-> Hs]].
    apply (Hin _ _ Hs).
  - replace (map EnemyGrid.bucket (map snd (EnemyGrid.columns g)))
      with (map fst (EnemyGrid.columns g)); [exact Hnd |].
    rewrite <- list_fmap_compose. apply Forall_fmap_ext, Forall_forall.
    intros [k s] Hks. symmetry. apply (Hin _ _ Hks).
  - intros e He. destruct (Hlow _ He) as (s & Hs & Hle).
    apply dict_get_elem in Hs. exists s. split; [| split].
    + apply list_elem_of_fmap. exists (EnemyGrid.bucket e, s). auto.
    + apply (Hin _ _ Hs).
    + exact Hle.
Qed.

(** [random_below n] on a draw of [0, 1) is an index below [n], and the draws
    that give the index [i] are those of the [i]-th of the [n] equal cells. *)
Lemma Qfloor_unique (x : Q) (i : Z) :
  Qfloor x = i <-> (inject_Z i <= x < inject_Z (i + 1))%Q.
Proof.
  split.
  - intros <-. split; [apply Qfloor_le | apply Qlt_floor].
  - intros [Hlo Hhi].
    pose proof (Qfloor_le x) as Hlo'. pose proof (Qlt_floor x) as Hhi'.
    assert (H1 : (inject_Z i < inject_Z (Qfloor x + 1))%Q) by lra.
    assert (H2 : (inject_Z (Qfloor x) < inject_Z (i + 1))%Q) by lra.
    rewrite <- Zlt_Qlt in H1, H2. lia.
Qed.

Lemma random_below_cell (n i : Z) (u : Q) :
  0 < n ->
  Qfloor (u * inject_Z n) = i
  <-> (inject_Z i / inject_Z n <= u < inject_Z (i + 1) / inject_Z n)%Q.
Proof.
  intros Hn. rewrite Qfloor_unique.
  assert (Hq : (0 < inject_Z n)%Q) by (rewrite Zlt_Qlt in Hn; exact Hn).
  split; intros [Hlo Hhi]; split.
  - apply Qle_shift_div_r; assumption.
  - apply Qlt_shift_div_l; assumption.
  - assert (E : (inject_Z i == inject_Z i / inject_Z n * inject_Z n)%Q) by (field; lra).
    rewrite E. apply Qmult_le_compat_r; [exact Hlo | lra].
  - assert (E : (inject_Z (i + 1) == inject_Z (i + 1) / inject_Z n * inject_Z n)%Q)
      by (field; lra).
    rewrite E. apply Qmult_lt_compat_r; assumption.
Qed.

Lemma random_below_range (n : Z) (u : Q) :
  0 < n -> (0 <= u < 1)%Q -> 0 <= Qfloor (u * inject_Z n) < n.
Proof.
  intros Hn [Hlo Hhi].
  assert (Hq : (0 < inject_Z n)%Q) by (rewrite Zlt_Qlt in Hn; exact Hn).
  pose proof (Qfloor_le (u * inject_Z n)) as Hf.
  pose proof (Qlt_floor (u * inject_Z n)) as Hc.
  assert (H0 : (0 <= u * inject_Z n)%Q) by (apply Qmult_le_0_compat; lra).
  assert (H1 : (u * inject_Z n < inject_Z n)%Q).
  { apply Qlt_le_trans with (1 * inject_Z n)%Q; [| lra].
    apply Qmult_lt_compat_r; assumption. }
  assert (H2 : (inject_Z (-1) < inject_Z (Qfloor (u * inject_Z n)))%Q).
  { rewrite inject_Z_plus in Hc. change (inject_Z (-1)) with (-1)%Q.
    change (inject_Z 1) with 1%Q in Hc. lra. }
  assert (H3 : (inject_Z (Qfloor (u * inject_Z n)) < inject_Z n)%Q) by lra.
  rewrite <- Zlt_Qlt in H2, H3. lia.
Qed.

(** C6.  With the enemy bullets at the cap, or no enemy alive,
    [try_enemy_shot] changes nothing: the bullets and the world (generator,
    sound) are as before.  Otherwise the enemies that may shoot are one per
    column bucket (centre x divided by 70) that holds an enemy, each an enemy
    of the grid with none of its bucket lower; one draw [u] of the generator
    decides: a shot is made exactly when [u < fire_rate / 60]; then the next
    draw picks the shooter by its cell among the [n] equal cells of [0, 1),
    and exactly one enemy bullet, moving down at 300, is appended at the
    shooter's centre, 6 below its bottom edge. *)
Theorem try_enemy_shot_spec (bullets : list Bullet.t) (cap : Z)
    (sound : SoundManager.t) (g : EnemyGrid.t) (w : World) :
  let active :=
    Z.of_nat (length (filter (fun b => Bullet.is_player b = false) bullets)) in
  let n := Z.of_nat (length (shooters g)) in
  let u := rand_draws w (rand_ix w) in
  let c := rand_draws w (S (rand_ix w)) in
  let res := EnemyGrid.try_enemy_shot bullets cap sound g w in
  (cap <= active \/ EnemyGrid.alive g = 0 -> res = (bullets, w))
  /\ (active < cap -> EnemyGrid.alive g <> 0 ->
      ((forall s, s ∈ shooters g -> s ∈ EnemyGrid.enemies g)
       /\ NoDup (map (fun s => centerx (Enemy.rect s) / 70) (shooters g))
       /\ (forall e, e ∈ EnemyGrid.enemies g ->
            exists s, s ∈ shooters g
              /\ centerx (Enemy.rect s) / 70 = centerx (Enemy.rect e) / 70
              /\ bottom (Enemy.rect e) <= bottom (Enemy.rect s)))
      /\ (~ (u < EnemyGrid.fire_rate g / 60)%Q ->
            res = (bullets, set_rand_ix (S (rand_ix w)) w))
      /\ ((u < EnemyGrid.fire_rate g / 60)%Q -> (0 <= c < 1)%Q ->
            exists s, shooters g !! Z.to_nat (Qfloor (c * inject_Z n)) = Some s
              /\ fst res =
                   bullets ++ [Bullet.mk (mkRect (centerx (Enemy.rect s) - 2)
                                                 (bottom (Enemy.rect s) + 6 - 8) 4 12)
                                         300 1 false true]
              /\ snd res =
                   set_sound_log
                     (if SoundManager.enabled sound
                      then "enemy_shoot" :: sound_log w else sound_log w)
                     (set_rand_ix (S (S (rand_ix w))) w))).
Proof.
  intros active n u c res. subst res. unfold EnemyGrid.try_enemy_shot. fold active.
  split.
  - intros [H | H].
    + apply Z.leb_le in H. rewrite H. reflexivity.
    + apply Z.eqb_eq in H. rewrite H, orb_true_r. reflexivity.
  - intros Hcap Halive.
    apply Z.leb_gt in Hcap. apply Z.eqb_neq in Halive as Halive'.
    rewrite Hcap, Halive'. cbn [orb].
    destruct (shooters_spec g) as (Hsub & Hnd & Hlow).
    split; [split; [exact Hsub | split; [exact Hnd | exact Hlow]] |].
    assert (Hn : 0 < n).
    { unfold n, EnemyGrid.alive in *. destruct (EnemyGrid.enemies g) as [| e es] eqn:He;
        [simpl in Halive; lia |].
      destruct (Hlow e) as (s & Hs & _); [left |].
      destruct (shooters g); [apply elem_of_nil in Hs; contradiction | simpl; lia]. }
    subst n. unfold shooters, dict_values in *.
    destruct (EnemyGrid.columns g) as [| [k0 e0] cols] eqn:Hcols; [simpl in Hn; lia |].
    unfold mbind, M_bind, mret, M_ret, random_random. fold u.
    split.
    + intros Hu.
      destruct (Qltb u (EnemyGrid.fire_rate g / inject_Z FPS)) eqn:E; [| reflexivity].
      apply Qltb_lt in E. contradiction.
    + intros Hu Hc. apply Qltb_lt in Hu.
      change (inject_Z FPS) with 60%Q. rewrite Hu.
      unfold random_choice, random_below, random_random, mbind, M_bind, mret, M_ret.
      cbn [rand_draws rand_ix set_rand_ix]. fold c.
      set (l := map snd ((k0, e0) :: cols)) in *.
      destruct (random_below_range _ c Hn Hc) as [Hk0 Hk1].
      assert (Hlt : (Z.to_nat (Qfloor (c * inject_Z (Z.of_nat (length l)))) < length l)%nat)
        by lia.
      destruct (lookup_lt_is_Some_2 _ _ Hlt) as [s Hs].
      exists s. split; [exact Hs |].
      rewrite (nth_lookup_Some _ _ e0 _ Hs).
      unfold SoundManager.play, modify_world. destruct (SoundManager.enabled sound);
        split; reflexivity.
Qed.

(** [try_enemy_shot_spec] on the grid of wave 1: nothing happens with six
    enemy bullets in flight; with none, the draw 0.5 makes no shot, and the
    draws 0.001 and 0.625 make the lowest enemy of the sixth column shoot. *)
Lemma try_enemy_shot_spec_witness :
  let full := repeat (Bullet.new 100 300 ENEMY_BULLET_SPEED 1 false) 6 in
  let on := SoundManager.mk true in
  EnemyGrid.try_enemy_shot full 6 on sample_grid shooting_world = (full, shooting_world)
  /\ EnemyGrid.try_enemy_shot [] 6 on sample_grid sample_world
     = ([], set_rand_ix 1 sample_world)
  /\ map Enemy.rect (shooters sample_grid)
     = map (fun col => mkRect (60 + col * 70) 320 44 28) (seqZ 0 8)
  /\ EnemyGrid.try_enemy_shot [] 6 on sample_grid shooting_world
     = ([Bullet.mk (mkRect 430 346 4 12) 300 1 false true],
        set_sound_log ["enemy_shoot"] (set_rand_ix 2 shooting_world)).
Proof.
  intros full on.
  destruct (try_enemy_shot_spec full 6 on sample_grid shooting_world) as (Hcap & _).
  destruct (try_enemy_shot_spec [] 6 on sample_grid sample_world) as (_ & Hmiss).
  destruct (try_enemy_shot_spec [] 6 on sample_grid shooting_world) as (_ & Hshot).
  split; [apply Hcap; left; vm_compute; discriminate |].
  destruct Hmiss as (_ & Hno & _); [reflexivity | vm_compute; discriminate |].
  split; [apply Hno; vm_compute; discriminate |].
  split; [reflexivity |].
  destruct Hshot as (_ & _ & Hshot); [reflexivity | vm_compute; discriminate |].
  destruct Hshot as (s & Hs & Hb & Hw);
    [reflexivity | split; [vm_compute; discriminate | reflexivity] |].
  vm_compute in Hs. inversion Hs; subst s. clear Hs.
  apply injective_projections; [rewrite Hb | rewrite Hw]; reflexivity.
Defined.

(** ** Highscores *)

Global Instance desc_total : Total desc.
Proof. intros x y. unfold desc. lia. Qed.
Global Instance desc_trans : Transitive desc.
Proof. intros x y z. unfold desc. lia. Qed.
Global Instance desc_antisymm : AntiSymm (=) desc.
Proof. intros x y. unfold desc. lia. Qed.

Lemma sorted_desc_Sorted (l : list Z) : Sorted desc (sorted_desc l).
Proof. apply Sorted_merge_sort, _. Qed.

Lemma sorted_desc_Permutation (l : list Z) : sorted_desc l ≡ₚ l.
Proof. apply merge_sort_Permutation. Qed.

Lemma sorted_desc_id (l : list Z) : Sorted desc l -> sorted_desc l = l.
Proof.
  intros H. apply (Sorted_unique desc); [apply sorted_desc_Sorted | exact H |].
  apply sorted_desc_Permutation.
Qed.

Lemma Sorted_take (n : nat) (l : list Z) : Sorted desc l -> Sorted desc (take n l).
Proof.
  intros H. apply Sorted_StronglySorted in H; [| apply _].
  apply StronglySorted_Sorted. rewrite <- (take_drop n l) in H.
  apply StronglySorted_app_1_l in H. exact H.
Qed.

(** What the table becomes at game over is always a table in order. *)
Lemma top5_ok (l : list Z) : table_ok (take 5 (sorted_desc l)).
Proof.
  split; [rewrite length_take; lia | apply Sorted_take, sorted_desc_Sorted].
Qed.

Lemma top5_id (l : list Z) : table_ok l -> take 5 (sorted_desc l) = l.
Proof. intros [Hlen Hs]. rewrite sorted_desc_id by exact Hs. apply take_ge. exact Hlen. Qed.

Lemma alter_end {A} (f : A -> A) (l : list A) (x : A) :
  alter f (length l) (l ++ [x]) = l ++ [f x].
Proof. induction l as [| a l IH]; simpl; [reflexivity | f_equal; exact IH]. Qed.

Lemma game_over_eq (g : Game.t) (w : World) :
  dict_valid w (Game.highscores g) ->
  let l := take 5 (sorted_desc (Game.table w g ++ [Game.score g])) in
  let jmh := bool_decide (hs_top (Game.highscores g) = None) in
  let lists' :=
    match hs_top (Game.highscores g) with
    | Some r => alter (fun t => t ++ [Game.score g]) r (lists w) ++ [l]
    | None => lists w ++ [[Game.score g]; l; []]
    end in
  let top' :=
    match hs_top (Game.highscores g) with
    | Some _ => length (lists w)
    | None => S (length (lists w))
    end in
  Game.game_over g w =
    (Game.set_scene SCENE_GAME_OVER
       (Game.set_highscores
          (mkHighscoreDict (Some top') (hs_last_updated (Game.highscores g)))
          (Game.set_just_made_highscore jmh g)),
     set_sound_log
       (if jmh && SoundManager.enabled (Game.sound g)
        then "highscore" :: sound_log w else sound_log w)
       (set_highscore_file
          (if disk_writable w then FileRecord (Some l) (Some (utc_stamp w))
           else highscore_file w)
          (set_lists lists' w))).
Proof.
  intros Hv l jmh lists' top'. subst l jmh lists' top'.
  unfold Game.game_over, Game.highscores_get_top, Game.table, dict_valid in *.
  destruct (hs_top (Game.highscores g)) as [r |] eqn:Hr.
  - destruct (lookup_lt_is_Some_2 _ _ Hv) as [t Ht]. rewrite Ht. cbn [default].
    set (l := take 5 (sorted_desc (t ++ [Game.score g]))).
    assert (Hl : take 5 (sorted_desc l) = l) by apply top5_id, top5_ok.
    unfold list_append, read_list, new_list, save_highscores, get_world, modify_world,
      mbind, M_bind, mret, M_ret.
    cbn [lists set_lists utc_stamp disk_writable fst snd].
    rewrite !length_alter.
    rewrite (list_lookup_middle _ [] _ (length (lists w))) by (rewrite length_alter; reflexivity).
    rewrite list_lookup_alter_eq, Ht.
    cbn [fmap option_fmap option_map default]. unfold id. fold l. rewrite Hl.
    assert (Hin : bool_decide (Game.score g ∈ t ++ [Game.score g]) = true).
    { apply bool_decide_eq_true. apply elem_of_app. right. left. }
    destruct (bool_decide (Game.score g ∈ l)); cbn beta iota; cbn [lists set_lists].
    + rewrite lookup_app_l by (rewrite length_alter; exact Hv).
      rewrite list_lookup_alter_eq, Ht. cbn [fmap option_fmap option_map default].
      unfold id. rewrite Hin. cbn. destruct (disk_writable w); reflexivity.
    + cbn. destruct (disk_writable w); reflexivity.
  - cbn [app].
    set (l := take 5 (sorted_desc [Game.score g])).
    assert (Hl : take 5 (sorted_desc l) = l) by apply top5_id, top5_ok.
    assert (Hl1 : l = [Game.score g]) by reflexivity.
    unfold list_append, read_list, new_list, save_highscores, get_world, modify_world,
      mbind, M_bind, mret, M_ret.
    cbn [lists set_lists utc_stamp disk_writable fst snd].
    rewrite alter_end. rewrite !length_app. cbn [length].
    rewrite Nat.add_1_r.
    rewrite (list_lookup_middle _ [] _ (length (lists w))) by reflexivity.
    rewrite (list_lookup_middle _ [] _ (S (length (lists w))))
      by (rewrite length_app, Nat.add_1_r; reflexivity).
    cbn [default app]. unfold id. fold l. rewrite Hl.
    assert (Hin : bool_decide (Game.score g ∈ l) = true).
    { apply bool_decide_eq_true. rewrite Hl1. left. }
    rewrite Hin. cbn beta iota. cbn [lists set_lists].
    rewrite (list_lookup_middle _ [] _ _) by reflexivity. cbn [default]. unfold id.
    assert (Hnil : bool_decide (Game.score g ∈ @nil Z) = false).
    { apply bool_decide_eq_false. apply not_elem_of_nil. }
    rewrite Hnil. cbn. rewrite <- !app_assoc. cbn [app].
    unfold SoundManager.play, modify_world, mret, M_ret.
    destruct (disk_writable w), (SoundManager.enabled (Game.sound g)); reflexivity.
Qed.

Lemma load_highscores_result (w : World) :
  let r := load_highscores w in
  dict_valid (snd r) (fst r)
  /\ dict_table (snd r) (fst r) =
       match highscore_file w with FileRecord (Some l) _ => l | _ => [] end
  /\ highscore_file (snd r) = highscore_file w.
Proof.
  unfold load_highscores, get_world, new_list, mbind, M_bind, mret, M_ret,
    dict_valid, dict_table.
  destruct (highscore_file w) as [| | [l |] lu] eqn:Hf; cbn;
    rewrite ?length_app, ?(list_lookup_middle _ [] _ _ eq_refl); cbn;
    repeat split; try lia; exact Hf.
Qed.

(** The table after [game_over], in memory and on disk. *)
Lemma game_over_table (g : Game.t) (w : World) :
  dict_valid w (Game.highscores g) ->
  let r := Game.game_over g w in
  Game.table (snd r) (fst r) = take 5 (sorted_desc (Game.table w g ++ [Game.score g]))
  /\ table_ok (Game.table (snd r) (fst r))
  /\ dict_valid (snd r) (Game.highscores (fst r))
  /\ highscore_file (snd r) =
       (if disk_writable w
        then FileRecord (Some (Game.table (snd r) (fst r))) (Some (utc_stamp w))
        else highscore_file w)
  /\ (file_ok (highscore_file w) -> file_ok (highscore_file (snd r))).
Proof.
  intros Hv r. subst r. rewrite (game_over_eq g w Hv).
  cbn [fst snd]. set (l := take 5 (sorted_desc (Game.table w g ++ [Game.score g]))).
  unfold Game.table at 1 2 3, dict_valid.
  cbn [Game.highscores Game.set_scene Game.set_highscores hs_top lists set_sound_log
       set_highscore_file set_lists highscore_file].
  assert (Ht : default []
                 (match hs_top (Game.highscores g) with
                  | Some r => alter (fun t => t ++ [Game.score g]) r (lists w) ++ [l]
                  | None => lists w ++ [[Game.score g]; l; []]
                  end
                  !! match hs_top (Game.highscores g) with
                     | Some _ => length (lists w)
                     | None => S (length (lists w))
                     end) = l).
  { destruct (hs_top (Game.highscores g)) as [r |].
    - rewrite (list_lookup_middle _ [] _ _) by (rewrite length_alter; reflexivity).
      reflexivity.
    - rewrite lookup_app_r by lia.
      replace (S (length (lists w)) - length (lists w))%nat with 1%nat by lia.
      reflexivity. }
  rewrite Ht. split; [reflexivity |]. split; [apply top5_ok |]. split.
  - destruct (hs_top (Game.highscores g));
      rewrite length_app, ?length_alter; simpl; lia.
  - split; [reflexivity |].
    destruct (disk_writable w); [intros _; apply top5_ok | intros H; exact H].
Qed.

(** ** The new-highscore flag *)

(** Whenever the dict holds a ["top"] list, [game_over] leaves the flag false:
    the score has been appended to that very list before the flag asks whether
    the list holds it.  The flag is set only when the key is missing. *)
Lemma game_over_flag (g : Game.t) (w : World) :
  dict_valid w (Game.highscores g) ->
  Game.just_made_highscore (fst (Game.game_over g w))
  = bool_decide (hs_top (Game.highscores g) = None).
Proof. intros Hv. rewrite (game_over_eq g w Hv). reflexivity. Qed.

(** C10 at a first run: no highscore file, so an empty table; the game ends
    with 100 points.  100 enters the table and was not in it before, and the
    flag stays false. *)
Theorem game_over_new_highscore_not_flagged :
  let r0 := Game.new true sample_world in
  let g := Game.set_score 100 (fst r0) in
  let r := Game.game_over g (snd r0) in
  Game.table (snd r0) g = []
  /\ Game.table (snd r) (fst r) = [100]
  /\ Game.just_made_highscore (fst r) = false.
Proof. repeat split. Qed.

(** ** A new EnemyGrid *)

Lemma mapM_new_enemy (cs : list (Z * Z)) (w : World) :
  let r := mapM EnemyGrid.new_enemy cs w in
  map Enemy.rect (fst r)
    = map (fun c => mkRect (60 + snd c * 70) (70 + fst c * 50) 44 28) cs
  /\ Forall (fun e => 0 < Enemy.hp e) (fst r)
  /\ snd r = set_rand_ix (rand_ix w + length cs) w.
Proof.
  revert w. induction cs as [| [row col] cs IH]; intros w.
  - cbn. repeat split; [constructor |]. rewrite Nat.add_0_r. destruct w; reflexivity.
  - cbn [mapM]. unfold mbind, M_bind. cbn [EnemyGrid.new_enemy].
    unfold mbind, M_bind, random_random, mret, M_ret.
    specialize (IH (set_rand_ix (S (rand_ix w)) w)).
    destruct (mapM EnemyGrid.new_enemy cs (set_rand_ix (S (rand_ix w)) w)) as [es w'].
    cbn [fst snd] in *. destruct IH as (IH1 & IH2 & IH3).
    split; [| split].
    + cbn [map fst snd]. rewrite IH1. f_equal.
      destruct (Qltb _ _); [| destruct (Qltb _ _)]; reflexivity.
    + constructor; [| exact IH2].
      destruct (Qltb _ _); [| destruct (Qltb _ _)]; reflexivity.
    + rewrite IH3. unfold set_rand_ix. cbn. f_equal. lia.
Qed.

(** A new grid has its 48 enemies on the start layout, marches right, and
    took 48 draws of the generator and nothing else from the world. *)
Lemma EnemyGrid_new_spec (wave : Z) (w : World) :
  let r := EnemyGrid.new wave w in
  map Enemy.rect (EnemyGrid.enemies (fst r))
    = map (fun c => mkRect (60 + snd c * 70) (70 + fst c * 50) 44 28) EnemyGrid.cells
  /\ EnemyGrid.alive (fst r) = 48
  /\ EnemyGrid.dir (fst r) = 1
  /\ EnemyGrid.speed (fst r) = (72 * Qpower (110 # 100) (wave - 1))%Q
  /\ EnemyGrid.fire_rate (fst r) = ((28 # 100) * Qpower (105 # 100) (wave - 1))%Q
  /\ snd r = set_rand_ix (rand_ix w + 48) w.
Proof.
  unfold EnemyGrid.new, mbind, M_bind, mret, M_ret.
  destruct (mapM_new_enemy EnemyGrid.cells w) as (H1 & _ & H3).
  destruct (mapM EnemyGrid.new_enemy EnemyGrid.cells w) as [es w'].
  cbn [fst snd] in *. unfold EnemyGrid.alive. cbn [EnemyGrid.enemies EnemyGrid.dir
    EnemyGrid.speed EnemyGrid.fire_rate].
  split; [exact H1 |]. split.
  - rewrite <- (length_map Enemy.rect), H1, length_map. reflexivity.
  - repeat split. exact H3.
Qed.

(** ** The enemy-breach penalty *)

Lemma game_over_fields (g : Game.t) (w : World) :
  exists hs j,
    fst (Game.game_over g w) =
      Game.set_scene SCENE_GAME_OVER
        (Game.set_highscores hs (Game.set_just_made_highscore j g)).
Proof.
  unfold Game.game_over, mbind, M_bind.
  repeat match goal with
         | |- context [let '(_, _) := ?x in _] => destruct x
         end.
  cbn. eexists _, _. reflexivity.
Qed.

Lemma existsb_breaches (p : Player.t) (es : list Enemy.t) :
  existsb (Game.breaches p) es = true <-> Exists (breach p) es.
Proof.
  rewrite existsb_exists, Exists_exists. setoid_rewrite list_elem_of_In.
  unfold Game.breaches, breach.
  split; intros (e & Hin & H); exists e; (split; [exact Hin |]).
  - apply orb_true_iff in H as [H | H]; [left; exact H | right; lia].
  - apply orb_true_iff. destruct H as [H | H]; [left; exact H | right; lia].
Qed.

(** The third loop when the test passes for some enemy. *)
Lemma enemy_breach_eq (g : Game.t) (w : World) (gr : EnemyGrid.t) :
  Game.grid g = Some gr ->
  Exists (breach (Game.player g)) (EnemyGrid.enemies gr) ->
  let hit := Player.hit (GODMODE w) (Game.player g) in
  let fresh := EnemyGrid.new (Z.max 1 (Game.wave g)) w in
  let g1 := Game.set_player (Player.reset_position (fst hit))
              (Game.set_bullets []
                 (Game.set_grid (Some (fst fresh))
                    (if snd hit then Game.shake 12 g else g))) in
  Game.enemy_breach g w =
    (if (Player.lives (fst hit) <=? 0) && negb (GODMODE w)
     then Game.game_over g1 (snd fresh) else (g1, snd fresh)).
Proof.
  intros Hgrid Hex hit fresh g1.
  unfold Game.enemy_breach. rewrite Hgrid.
  apply existsb_breaches in Hex. rewrite Hex.
  unfold mbind, M_bind, get_world. fold hit.
  subst g1. destruct hit as [p damaged] eqn:Hhit. cbn [fst snd].
  destruct damaged; cbn [Game.wave Game.set_player Game.shake Game.set_shake_mag
    Game.set_shake_timer];
    fold fresh; destruct fresh as [gr' w1]; cbn [fst snd];
    cbn -[Game.game_over Z.leb];
    destruct ((Player.lives p <=? 0) && negb (GODMODE w)); reflexivity.
Qed.

(** C7.  In the third loop of [handle_collisions], when some enemy of the grid
    overlaps the player's box or has its bottom edge at 550 or lower:
    [player.hit()] is called (and the screen shaken by 12 when it did damage),
    the grid is replaced by a new [EnemyGrid] for the same wave number, with
    all 48 enemies again, the bullet list is emptied, the player is put back
    at the start position, and then the game-over check
    [lives <= 0 and not GODMODE] is made on the player as [hit] left it. *)
Theorem enemy_breach_spec (g : Game.t) (w : World) (gr : EnemyGrid.t) :
  Game.grid g = Some gr ->
  1 <= Game.wave g ->
  Exists (breach (Game.player g)) (EnemyGrid.enemies gr) ->
  let hit := Player.hit (GODMODE w) (Game.player g) in
  let fresh := EnemyGrid.new (Game.wave g) w in
  let g1 := Game.set_player (Player.reset_position (fst hit))
              (Game.set_bullets []
                 (Game.set_grid (Some (fst fresh))
                    (if snd hit then Game.shake 12 g else g))) in
  Game.enemy_breach g w =
    (if (Player.lives (fst hit) <=? 0) && negb (GODMODE w)
     then Game.game_over g1 (snd fresh) else (g1, snd fresh))
  /\ EnemyGrid.alive (fst fresh) = 48
  /\ centerx (Player.rect (Game.player g1)) = 400
  /\ bottom (Player.rect (Game.player g1)) = 570.
Proof.
  intros Hgrid Hwave Hex hit fresh g1.
  split; [| split; [exact (proj1 (proj2 (EnemyGrid_new_spec (Game.wave g) w))) |]].
  2: { subst g1. cbn [Game.player Game.set_player Player.reset_position Player.rect
         Player.set_rect].
       unfold centerx, bottom, set_bottom, set_centerx, set_x, set_y. cbn [rx ry rw rh].
       change (WIDTH / 2) with 400. change (HEIGHT - 30) with 570. lia. }
  rewrite (enemy_breach_eq g w gr Hgrid Hex). subst g1 fresh hit.
  rewrite (Z.max_r 1 (Game.wave g)) by lia. reflexivity.
Qed.

(** The handling of collisions ends with that loop. *)
Lemma handle_collisions_ends_with_breach (dt : Q) (g : Game.t) (w : World) :
  Game.handle_collisions dt g w =
    (let '(g1, w1) := Game.bullets_loop Game.player_bullet_step [] (Game.bullets g) g w in
     let '(g2, w2) := Game.bullets_loop Game.enemy_bullet_step [] (Game.bullets g1) g1 w1 in
     Game.enemy_breach g2 w2).
Proof. reflexivity. Qed.

(** The penalty on [breached_game]: with 3 lives the run goes on with 2; with
    the last life it ends. *)
Lemma enemy_breach_spec_witness :
  let r := Game.enemy_breach breached_game sample_world' in
  let r' := Game.enemy_breach breached_last_life sample_world' in
  (Player.lives (Game.player (fst r)) = 2 /\ Game.bullets (fst r) = []
   /\ Game.wave (fst r) = 1 /\ Game.scene (fst r) = SCENE_PLAYING
   /\ (EnemyGrid.alive <$> Game.grid (fst r)) = Some 48)
  /\ (Player.lives (Game.player (fst r')) = 0 /\ Game.scene (fst r') = SCENE_GAME_OVER
      /\ (EnemyGrid.alive <$> Game.grid (fst r')) = Some 48).
Proof.
  intros r r'.
  assert (Hex : Exists (breach (Game.player breached_game))
                  (EnemyGrid.enemies breached_grid)).
  { apply Exists_cons_hd. right. vm_compute. discriminate. }
  assert (Hex' : Exists (breach (Game.player breached_last_life))
                   (EnemyGrid.enemies breached_grid)).
  { apply Exists_cons_hd. right. vm_compute. discriminate. }
  assert (Hwave : 1 <= Game.wave breached_game) by (vm_compute; discriminate).
  assert (Hwave' : 1 <= Game.wave breached_last_life) by (vm_compute; discriminate).
  assert (Hg : Game.grid breached_game = Some breached_grid) by reflexivity.
  assert (Hg' : Game.grid breached_last_life = Some breached_grid) by reflexivity.
  destruct (enemy_breach_spec breached_game sample_world' _ Hg Hwave Hex) as (Heq & _).
  destruct (enemy_breach_spec breached_last_life sample_world' _ Hg' Hwave' Hex')
    as (Heq' & _).
  subst r r'. rewrite Heq, Heq'. vm_compute. repeat split.
Defined.

(** C9 as stated fails: on [breached_game] the player is vulnerable, so
    [hit] does damage and the penalty starts the camera shake, an attribute
    outside the ones listed. *)
Lemma enemy_breach_frame_counterexample :
  Exists (breach (Game.player breached_game)) (EnemyGrid.enemies breached_grid)
  /\ Game.shake_timer breached_game = 0%Q
  /\ Game.shake_timer (fst (Game.enemy_breach breached_game sample_world')) = 28 # 100
  /\ ~ breach_frame_as_stated breached_game
        (fst (Game.enemy_breach breached_game sample_world')).
Proof.
  split; [apply Exists_cons_hd; right; vm_compute; discriminate |].
  split; [reflexivity |]. split; [vm_compute; reflexivity |].
  intros H. apply (f_equal Game.shake_timer) in H. vm_compute in H. discriminate.
Qed.

(** C9, as the code has it.  When the penalty fires, the score, the combo
    multiplier and last-kill time, the wave number, the shields, the
    particles, the boss and its countdown are unchanged; the bullets are
    emptied and the player is the one [hit] left, at the start position.
    Beyond the grid, the bullets and the player, the penalty changes the
    camera shake when [hit] did damage, and the scene, the highscores and the
    new-highscore flag when the game-over check passes; otherwise these are
    unchanged as well. *)
Theorem enemy_breach_frame (g : Game.t) (w : World) (gr : EnemyGrid.t) :
  Game.grid g = Some gr ->
  Exists (breach (Game.player g)) (EnemyGrid.enemies gr) ->
  let hit := Player.hit (GODMODE w) (Game.player g) in
  let over := (Player.lives (fst hit) <=? 0) && negb (GODMODE w) in
  let g' := fst (Game.enemy_breach g w) in
  (Game.score g' = Game.score g /\ Game.combo_mult g' = Game.combo_mult g
   /\ Game.last_kill_time g' = Game.last_kill_time g /\ Game.wave g' = Game.wave g
   /\ Game.shields g' = Game.shields g /\ Game.particles g' = Game.particles g
   /\ Game.boss g' = Game.boss g /\ Game.next_boss_time g' = Game.next_boss_time g
   /\ Game.enemy_bullets g' = Game.enemy_bullets g
   /\ Game.debug_god g' = Game.debug_god g /\ Game.sound g' = Game.sound g)
  /\ (Game.bullets g' = [] /\ Game.player g' = Player.reset_position (fst hit))
  /\ (snd hit = false ->
        Game.shake_timer g' = Game.shake_timer g /\ Game.shake_mag g' = Game.shake_mag g)
  /\ (snd hit = true ->
        Game.shake_timer g' = 28 # 100 /\ Game.shake_mag g' = Qmax (Game.shake_mag g) 12)
  /\ (over = false ->
        Game.scene g' = Game.scene g /\ Game.highscores g' = Game.highscores g
        /\ Game.just_made_highscore g' = Game.just_made_highscore g)
  /\ (over = true -> Game.scene g' = SCENE_GAME_OVER).
Proof.
  intros Hgrid Hex hit over g'. subst g'.
  rewrite (enemy_breach_eq g w gr Hgrid Hex). fold hit. fold over.
  destruct hit as [p damaged]. cbn [fst snd] in *.
  destruct (EnemyGrid.new (Z.max 1 (Game.wave g)) w) as [gr' w1]. cbn [fst snd].
  destruct over.
  - match goal with |- context [Game.game_over ?a ?b] =>
      destruct (game_over_fields a b) as (hs & j & E) end.
    rewrite E. destruct damaged; cbn; repeat split; intros; congruence.
  - destruct damaged; cbn; repeat split; intros; congruence.
Qed.

(** [enemy_breach_frame] on [breached_game], where the hit does damage and
    the run goes on, and on [breached_last_life], where the game ends. *)
Lemma enemy_breach_frame_witness :
  let g' := fst (Game.enemy_breach breached_game sample_world') in
  let g'' := fst (Game.enemy_breach breached_last_life sample_world') in
  (Game.score g' = Game.score breached_game
   /\ Game.shields g' = Game.shields breached_game
   /\ Game.shake_timer g' = 28 # 100
   /\ Game.scene g' = SCENE_PLAYING)
  /\ (Game.score g'' = Game.score breached_last_life
      /\ Game.particles g'' = Game.particles breached_last_life
      /\ Game.scene g'' = SCENE_GAME_OVER).
Proof.
  intros g' g''.
  assert (Hex : Exists (breach (Game.player breached_game))
                  (EnemyGrid.enemies breached_grid)).
  { apply Exists_cons_hd. right. vm_compute. discriminate. }
  assert (Hex' : Exists (breach (Game.player breached_last_life))
                   (EnemyGrid.enemies breached_grid)).
  { apply Exists_cons_hd. right. vm_compute. discriminate. }
  assert (Hg : Game.grid breached_game = Some breached_grid) by reflexivity.
  assert (Hg' : Game.grid breached_last_life = Some breached_grid) by reflexivity.
  destruct (enemy_breach_frame breached_game sample_world' _ Hg Hex)
    as ((Hsc & _ & _ & _ & Hsh & _) & _ & _ & Hshake & Hgo & _).
  destruct (enemy_breach_frame breached_last_life sample_world' _ Hg' Hex')
    as ((Hsc' & _ & _ & _ & _ & Hpa' & _) & _ & _ & _ & _ & Hover).
  split.
  - split; [exact Hsc |]. split; [exact Hsh |].
    split; [apply Hshake; vm_compute; reflexivity |].
    destruct Hgo as (Hscene & _); [vm_compute; reflexivity |].
    fold g' in Hscene. rewrite Hscene. reflexivity.
  - split; [exact Hsc' |]. split; [exact Hpa' |].
    apply Hover. vm_compute. reflexivity.
Defined.

(** ** What a frame leaves alone *)

Lemma advances_refl w : advances w w.
Proof. split; [destruct w; reflexivity | lia]. Qed.

Lemma advances_trans w1 w2 w3 : advances w1 w2 -> advances w2 w3 -> advances w1 w3.
Proof.
  intros [E1 L1] [E2 L2]. split; [| lia].
  rewrite E2 at 1. rewrite E1 at 1. reflexivity.
Qed.

Lemma mapM_advances {A B} (f : A -> M B) (l : list A) :
  (forall a w, advances w (snd (f a w))) -> forall w, advances w (snd (mapM f l w)).
Proof.
  intros Hf. induction l as [| a l IH]; intros w; cbn [mapM].
  - apply advances_refl.
  - unfold mbind, M_bind, mret, M_ret. specialize (Hf a w).
    destruct (f a w) as [b w1]. specialize (IH w1).
    destruct (mapM f l w1) as [bs w2]. cbn [snd] in *.
    eapply advances_trans; eassumption.
Qed.

Lemma Particle_new_advances x y w : advances w (snd (Particle.new x y w)).
Proof.
  unfold Particle.new, random_uniform, random_randint, random_below, random_random,
    get_world, mbind, M_bind, mret, M_ret. cbn [fst snd].
  split; [destruct w; reflexivity | cbn; lia].
Qed.

Lemma EnemyGrid_new_advances wave w : advances w (snd (EnemyGrid.new wave w)).
Proof.
  destruct (EnemyGrid_new_spec wave w) as (_ & _ & _ & _ & _ & ->).
  split; [destruct w; reflexivity | cbn; lia].
Qed.

Lemma play_advances s name w : advances w (snd (SoundManager.play s name w)).
Proof.
  unfold SoundManager.play.
  destruct (SoundManager.enabled s); split; try (destruct w; reflexivity); cbn; lia.
Qed.

Lemma try_enemy_shot_advances bullets cap sound g w :
  advances w (snd (EnemyGrid.try_enemy_shot bullets cap sound g w)).
Proof.
  unfold EnemyGrid.try_enemy_shot.
  destruct (_ || _); [apply advances_refl |].
  destruct (EnemyGrid.columns g) as [| [k e0] cols]; [apply advances_refl |].
  unfold mbind, M_bind, mret, M_ret, random_random. cbn [rand_ix].
  destruct (Qltb _ _); [| split; [destruct w; reflexivity | cbn; lia]].
  unfold random_choice, random_below, random_random, mbind, M_bind, mret, M_ret,
    SoundManager.play, modify_world.
  destruct (SoundManager.enabled sound); split; try (destruct w; reflexivity); cbn; lia.
Qed.

Section Invariant.
(** An invariant of the game state and the world that looks at nothing but
    the highscore dict, the boss countdown, the wave number, the shields and
    the store, and that [game_over], the step to the next wave and a bullet
    on the shields keep.  Such an invariant is kept by the two parts of a
    frame around the boss logic. *)
Variable I : Game.t -> World -> Prop.
Hypothesis I_frame : forall g w g' w',
  I g w ->
  Game.highscores g' = Game.highscores g ->
  Game.next_boss_time g' = Game.next_boss_time g ->
  Game.wave g' = Game.wave g ->
  Game.shields g' = Game.shields g ->
  advances w w' ->
  I g' w'.
Hypothesis I_game_over : forall g w,
  I g w -> I (fst (Game.game_over g w)) (snd (Game.game_over g w)).
Hypothesis I_next_wave : forall g w,
  I g w -> I (Game.set_wave (Game.wave g + 1) g) w.
Hypothesis I_shields : forall b g w,
  I g w -> I (Game.set_shields (fst (Shields.collide_bullet b (Game.shields g))) g) w.

Local Ltac leaf :=
  match goal with
  | H : I ?g0 ?w0 |- I _ _ =>
      apply (I_frame g0 w0 _ _ H);
      [reflexivity | reflexivity | reflexivity | reflexivity
       | first [ apply advances_refl | assumption ] ]
  end.

Lemma inv_score_add base g w :
  I g w -> I (fst (Game.score_add base g w)) (snd (Game.score_add base g w)).
Proof.
  intros H. unfold Game.score_add, time_time, mbind, M_bind, mret, M_ret.
  cbn [fst snd].
  assert (Ha : advances w (set_clock_ix (S (clock_ix w)) w))
    by (split; [destruct w; reflexivity | cbn; lia]).
  destruct (Qleb _ _); leaf.
Qed.

Lemma inv_spawn_hit_effect x y g w :
  I g w -> I (fst (Game.spawn_hit_effect x y g w)) (snd (Game.spawn_hit_effect x y g w)).
Proof.
  intros H. unfold Game.spawn_hit_effect. cbn [negb ENABLE_PARTICLES].
  unfold random_randint, random_below, random_random, mbind, M_bind, mret, M_ret.
  match goal with |- context [mapM ?f ?l ?w0] =>
    pose proof (mapM_advances f l (fun a w1 => Particle_new_advances x y w1) w0) as Hs;
    destruct (mapM f l w0) as [ps w1] end.
  cbn [fst snd] in *.
  apply (I_frame g w _ _ H); [reflexivity | reflexivity | reflexivity | reflexivity |].
  eapply advances_trans; [| exact Hs]. split; [reflexivity | cbn; lia].
Qed.

Lemma inv_play (s : SoundManager.t) name g w :
  I g w -> I g (snd (SoundManager.play s name w)).
Proof.
  intros H. apply (I_frame g w _ _ H); try reflexivity. apply play_advances.
Qed.

Lemma inv_player_bullet_vs_enemies b g w :
  I g w ->
  I (fst (fst (Game.player_bullet_vs_enemies b g w)))
    (snd (Game.player_bullet_vs_enemies b g w)).
Proof.
  intros H. unfold Game.player_bullet_vs_enemies.
  destruct (Game.grid g) as [gr |]; [| exact H].
  destruct (Game.hit_enemies _ _) as [[[es e] dead] |]; [| exact H].
  unfold mbind, M_bind, mret, M_ret.
  match goal with |- context [Game.spawn_hit_effect ?x ?y ?g0 w] =>
    assert (H0 : I g0 w) by leaf;
    pose proof (inv_spawn_hit_effect x y g0 w H0) as H1;
    destruct (Game.spawn_hit_effect x y g0 w) as [g1 w1] end.
  cbn [fst snd] in H1. destruct dead; [| exact H1].
  pose proof (inv_score_add (Enemy.points e) g1 w1 H1) as H2.
  destruct (Game.score_add (Enemy.points e) g1 w1) as [g2 w2]. cbn [fst snd] in H2.
  pose proof (inv_play (Game.sound g2) "explosion" g2 w2 H2) as H3.
  destruct (SoundManager.play (Game.sound g2) "explosion" w2) as [u w3]. exact H3.
Qed.

Lemma inv_player_bullet_step b g w :
  I g w ->
  I (fst (fst (Game.player_bullet_step b g w))) (snd (Game.player_bullet_step b g w)).
Proof.
  intros H. unfold Game.player_bullet_step.
  destruct (negb (Bullet.is_player b)); [exact H |].
  pose proof (I_shields b g w H) as H0.
  destruct (Shields.collide_bullet b (Game.shields g)) as [sh absorbed]. cbn [fst] in H0.
  destruct absorbed; [exact H0 |].
  destruct (Game.boss (Game.set_shields sh g)) as [bo |];
    [| apply inv_player_bullet_vs_enemies, H0].
  destruct (colliderect _ _); [| apply inv_player_bullet_vs_enemies, H0].
  unfold mbind, M_bind, mret, M_ret.
  pose proof (inv_score_add 100 _ _ H0) as H1.
  destruct (Game.score_add 100 (Game.set_shields sh g) w) as [g1 w1]. cbn [fst snd] in H1.
  pose proof (inv_spawn_hit_effect (centerx (Boss.rect bo)) (centery (Boss.rect bo)) _ _ H1)
    as H2.
  destruct (Game.spawn_hit_effect _ _ g1 w1) as [g2 w2]. cbn [fst snd] in H2.
  assert (H3 : I (Game.set_boss None g2) w2) by leaf.
  pose proof (inv_play (Game.sound (Game.set_boss None g2)) "explosion" _ _ H3) as H4.
  destruct (SoundManager.play _ _ w2) as [u w3]. exact H4.
Qed.

Lemma inv_enemy_bullet_step b g w :
  I g w ->
  I (fst (fst (Game.enemy_bullet_step b g w))) (snd (Game.enemy_bullet_step b g w)).
Proof.
  intros H. unfold Game.enemy_bullet_step.
  destruct (Bullet.is_player b); [exact H |].
  pose proof (I_shields b g w H) as H0.
  destruct (Shields.collide_bullet b (Game.shields g)) as [sh absorbed]. cbn [fst] in H0.
  destruct absorbed; [exact H0 |].
  destruct (colliderect _ _); [| exact H0].
  unfold mbind, M_bind, mret, M_ret, get_world.
  destruct (Player.hit _ _) as [p damaged].
  match goal with |- context [Game.game_over ?g1] =>
    assert (H1 : I g1 w) by (destruct damaged; leaf);
    pose proof (I_game_over g1 w H1) as H2;
    destruct (_ && _); [destruct (Game.game_over g1 w); exact H2 | exact H1] end.
Qed.

Lemma inv_bullets_loop (step : Bullet.t -> Game.t -> M (Game.t * bool)) :
  (forall b g w, I g w -> I (fst (fst (step b g w))) (snd (step b g w))) ->
  forall rest kept g w,
    I g w ->
    I (fst (Game.bullets_loop step kept rest g w))
      (snd (Game.bullets_loop step kept rest g w)).
Proof.
  intros Hstep. induction rest as [| b rest IH]; intros kept g w H; cbn [Game.bullets_loop].
  - exact H.
  - unfold mbind, M_bind. specialize (Hstep b g w H).
    destruct (step b g w) as [[g1 consumed] w1]. cbn [fst snd] in Hstep.
    apply IH. leaf.
Qed.

Lemma inv_enemy_breach g w :
  I g w -> I (fst (Game.enemy_breach g w)) (snd (Game.enemy_breach g w)).
Proof.
  intros H. unfold Game.enemy_breach.
  destruct (Game.grid g) as [gr |]; [| exact H].
  destruct (existsb _ _); [| exact H].
  unfold mbind, M_bind, mret, M_ret, get_world.
  destruct (Player.hit _ _) as [p damaged].
  match goal with |- context [EnemyGrid.new ?wv w] =>
    pose proof (EnemyGrid_new_advances wv w) as Hs;
    destruct (EnemyGrid.new wv w) as [gr' w1] end.
  cbn [snd] in Hs.
  match goal with |- context [Game.game_over ?g1] =>
    assert (H1 : I g1 w1) by (destruct damaged; leaf);
    pose proof (I_game_over g1 w1 H1) as H2;
    destruct (_ && _); [exact H2 | exact H1] end.
Qed.

Lemma inv_handle_collisions dt g w :
  I g w -> I (fst (Game.handle_collisions dt g w)) (snd (Game.handle_collisions dt g w)).
Proof.
  intros H. unfold Game.handle_collisions, mbind, M_bind.
  pose proof (inv_bullets_loop _ inv_player_bullet_step (Game.bullets g) [] g w H) as H1.
  destruct (Game.bullets_loop Game.player_bullet_step [] (Game.bullets g) g w) as [g1 w1].
  cbn [fst snd] in H1.
  pose proof (inv_bullets_loop _ inv_enemy_bullet_step (Game.bullets g1) [] g1 w1 H1) as H2.
  destruct (Game.bullets_loop Game.enemy_bullet_step [] (Game.bullets g1) g1 w1) as [g2 w2].
  apply inv_enemy_breach, H2.
Qed.

Lemma inv_next_wave g w :
  I g w -> I (fst (Game._next_wave g w)) (snd (Game._next_wave g w)).
Proof.
  intros H. apply I_next_wave in H.
  unfold Game._next_wave, mbind, M_bind, mret, M_ret.
  match goal with |- context [EnemyGrid.new ?wv w] =>
    pose proof (EnemyGrid_new_advances wv w) as Hs;
    destruct (EnemyGrid.new wv w) as [gr' w1] end.
  cbn [fst snd] in *. leaf.
Qed.

Lemma inv_update_after_boss dt g w :
  I g w -> I (fst (Game.update_after_boss dt g w)) (snd (Game.update_after_boss dt g w)).
Proof.
  intros H. unfold Game.update_after_boss, mbind, M_bind.
  match goal with |- context [Game.handle_collisions dt ?g0 w] =>
    assert (H0 : I g0 w) by leaf;
    pose proof (inv_handle_collisions dt g0 w H0) as H1;
    destruct (Game.handle_collisions dt g0 w) as [g1 w1] end.
  cbn [fst snd] in H1. cbn [ENABLE_PARTICLES].
  match goal with |- context [match Game.grid ?g2 with _ => _ end] =>
    assert (H2 : I g2 w1) by (destruct (Qltb 0 (Game.shake_timer g1)); leaf);
    destruct (Game.grid g2) as [gr |]; [| exact H2];
    destruct (EnemyGrid.alive gr =? 0); [apply inv_next_wave, H2 | exact H2] end.
Qed.

Lemma inv_update_player_and_grid dt keys g w :
  I g w ->
  I (fst (Game.update_player_and_grid dt keys g w))
    (snd (Game.update_player_and_grid dt keys g w)).
Proof.
  intros H. unfold Game.update_player_and_grid, mbind, M_bind, mret, M_ret.
  match goal with |- context [if ?c then _ else _] => destruct c end.
  - destruct (Player.shoot _) as [p b].
    match goal with |- context [SoundManager.play ?s ?n w] =>
      pose proof (play_advances s n w) as Hs; destruct (SoundManager.play s n w) as [u w1] end.
    cbn [snd] in Hs.
    match goal with |- context [match Game.grid ?g1 with _ => _ end] =>
      assert (H1 : I g1 w1) by leaf; destruct (Game.grid g1) as [gr |]; [| exact H1] end.
    match goal with |- context [EnemyGrid.try_enemy_shot ?a ?b0 ?c ?d w1] =>
      pose proof (try_enemy_shot_advances a b0 c d w1) as Hs1;
      destruct (EnemyGrid.try_enemy_shot a b0 c d w1) as [bs w2] end.
    cbn [fst snd] in *. leaf.
  - match goal with |- context [match Game.grid ?g1 with _ => _ end] =>
      assert (H1 : I g1 w) by leaf; destruct (Game.grid g1) as [gr |]; [| exact H1] end.
    match goal with |- context [EnemyGrid.try_enemy_shot ?a ?b0 ?c ?d w] =>
      pose proof (try_enemy_shot_advances a b0 c d w) as Hs1;
      destruct (EnemyGrid.try_enemy_shot a b0 c d w) as [bs w2] end.
    cbn [fst snd] in *. leaf.
Qed.

End Invariant.

(** ** The boss countdown *)



Lemma update_player_and_grid_fields dt keys g w :
  let r := Game.update_player_and_grid dt keys g w in
  Game.boss (fst r) = Game.boss g
  /\ Game.scene (fst r) = Game.scene g
  /\ Game.next_boss_time (fst r) = Game.next_boss_time g
  /\ advances w (snd r).
Proof.
  unfold Game.update_player_and_grid, mbind, M_bind, mret, M_ret.
  match goal with |- context [if ?c then _ else _] => destruct c end.
  - destruct (Player.shoot _) as [p b].
    match goal with |- context [SoundManager.play ?s ?n w] =>
      pose proof (play_advances s n w) as Hs; destruct (SoundManager.play s n w) as [u w1] end.
    cbn [snd] in Hs.
    match goal with |- context [match Game.grid ?g1 with _ => _ end] =>
      destruct (Game.grid g1) as [gr |]; [| do 3 (split; [reflexivity |]); exact Hs] end.
    match goal with |- context [EnemyGrid.try_enemy_shot ?a ?b0 ?c ?d w1] =>
      pose proof (try_enemy_shot_advances a b0 c d w1) as Hs1;
      destruct (EnemyGrid.try_enemy_shot a b0 c d w1) as [bs w2] end.
    cbn [fst snd] in *. do 3 (split; [reflexivity |]). eapply advances_trans; eassumption.
  - match goal with |- context [match Game.grid ?g1 with _ => _ end] =>
      destruct (Game.grid g1) as [gr |]; [| do 3 (split; [reflexivity |]); apply advances_refl] end.
    match goal with |- context [EnemyGrid.try_enemy_shot ?a ?b0 ?c ?d w] =>
      pose proof (try_enemy_shot_advances a b0 c d w) as Hs1;
      destruct (EnemyGrid.try_enemy_shot a b0 c d w) as [bs w2] end.
    cbn [fst snd] in *. do 3 (split; [reflexivity |]). exact Hs1.
Qed.






(** ** Wave number and shields over a run *)

Lemma run_ok_start_new_game reset g w : run_ok (fst (Game._start_new_game reset g w)).
Proof.
  unfold Game._start_new_game, mbind, M_bind, mret, M_ret.
  destruct (EnemyGrid.new _ w) as [gr w1].
  destruct (Game._rand_boss_timer w1) as [nbt w2]. cbn [fst].
  split.
  - destruct reset; cbn; lia.
  - destruct reset; cbn [Game.shields Game.set_just_made_highscore Game.set_next_boss_time
      Game.set_boss Game.set_grid Game.set_last_kill_time Game.set_combo_mult
      Game.set_score Game.set_wave Game.set_shields];
      apply (Forall_impl _ _ _ (proj2 Shields_new_pieces)); intros p Hp; lia.
Qed.

Lemma run_ok_new mixer_ok w : run_ok (fst (Game.new mixer_ok w)).
Proof.
  unfold Game.new, mbind, M_bind.
  destruct (Game._rand_boss_timer w) as [nbt w1].
  destruct (load_highscores w1) as [hs w2]. apply run_ok_start_new_game.
Qed.

Lemma run_ok_update_game dt keys g w :
  run_ok g -> run_ok (fst (Game.update_game dt keys g w)).
Proof.
  intros H. unfold Game.update_game, mbind, M_bind.
  set (I := fun (g0 : Game.t) (_ : World) => run_ok g0).
  assert (Hframe : forall g0 w0 g' w', I g0 w0 ->
            Game.highscores g' = Game.highscores g0 ->
            Game.next_boss_time g' = Game.next_boss_time g0 ->
            Game.wave g' = Game.wave g0 ->
            Game.shields g' = Game.shields g0 ->
            advances w0 w' -> I g' w').
  { unfold I, run_ok. intros g0 w0 g' w' H0 _ _ Hw Hs _. rewrite Hw, Hs. exact H0. }
  pose proof (inv_update_player_and_grid I Hframe dt keys g w H) as H1.
  destruct (Game.update_player_and_grid dt keys g w) as [g1 w1]. cbn [fst snd] in H1.
  assert (H2 : I (fst (Game.update_boss dt g1 w1)) (snd (Game.update_boss dt g1 w1))).
  { unfold Game.update_boss, mbind, M_bind, mret, M_ret.
    match goal with |- context [if ?c then _ else _] => destruct c end.
    - destruct (Game._rand_boss_timer w1) as [nbt w2]. cbn [fst snd].
      cbn [Game.boss Game.set_boss Game.set_next_boss_time].
      destruct (Boss.alive _); exact H1.
    - cbn [fst snd]. destruct (Game.boss _) as [bo |]; [| exact H1].
      destruct (Boss.alive _); exact H1. }
  destruct (Game.update_boss dt g1 w1) as [g2 w2]. cbn [fst snd] in H2.
  apply (inv_update_after_boss I Hframe); [| | | exact H2].
  - intros g0 w0 H0. destruct (game_over_fields g0 w0) as (hs & j & ->). exact H0.
  - intros g0 w0 [Hw Hs]. split; [cbn; lia | exact Hs].
  - intros b g0 w0 [Hw Hs]. split; [exact Hw |]. apply collide_bullet_hp, Hs.
Qed.

(** ** The highscore table over a run *)

Lemma advances_store w w' :
  advances w w' -> lists w' = lists w /\ highscore_file w' = highscore_file w.
Proof. intros [E _]. rewrite E. split; reflexivity. Qed.

Lemma highscores_ok_steady g w g' w' :
  highscores_ok g w ->
  Game.highscores g' = Game.highscores g ->
  advances w w' ->
  highscores_ok g' w'.
Proof.
  intros (Hv & Ht & Hf) Hh Ha. destruct (advances_store _ _ Ha) as [Hl Hfile].
  unfold highscores_ok, dict_valid, Game.table in *. rewrite Hh, Hl, Hfile. auto.
Qed.

Lemma highscores_ok_game_over g w :
  highscores_ok g w ->
  highscores_ok (fst (Game.game_over g w)) (snd (Game.game_over g w)).
Proof.
  intros (Hv & _ & Hf). destruct (game_over_table g w Hv) as (Ht & Hok & Hv' & Hfile & Hf').
  split; [exact Hv' |]. split; [exact Hok |]. apply Hf', Hf.
Qed.

Lemma rand_boss_timer_advances w : advances w (snd (Game._rand_boss_timer w)).
Proof.
  unfold Game._rand_boss_timer, random_uniform, random_random, mbind, M_bind, mret, M_ret.
  cbn [fst snd]. split; [destruct w; reflexivity | cbn; lia].
Qed.

Lemma highscores_ok_update_boss dt g w :
  highscores_ok g w ->
  highscores_ok (fst (Game.update_boss dt g w)) (snd (Game.update_boss dt g w)).
Proof.
  intros H. unfold Game.update_boss, mbind, M_bind, mret, M_ret.
  match goal with |- context [if ?c then _ else _] => destruct c end.
  - pose proof (rand_boss_timer_advances w) as Ha.
    destruct (Game._rand_boss_timer w) as [nbt w1]. cbn [fst snd] in *.
    cbn [Game.boss Game.set_boss Game.set_next_boss_time].
    destruct (Boss.alive _);
      (apply (highscores_ok_steady g w); [exact H | reflexivity | exact Ha]).
  - cbn [fst snd]. destruct (Game.boss _) as [bo |]; [| exact H].
    destruct (Boss.alive _);
      (apply (highscores_ok_steady g w); [exact H | reflexivity | apply advances_refl]).
Qed.

Lemma highscores_ok_update_game dt keys g w :
  highscores_ok g w ->
  highscores_ok (fst (Game.update_game dt keys g w)) (snd (Game.update_game dt keys g w)).
Proof.
  intros H. unfold Game.update_game, mbind, M_bind.
  assert (Hframe : forall g0 w0 g' w', highscores_ok g0 w0 ->
            Game.highscores g' = Game.highscores g0 ->
            Game.next_boss_time g' = Game.next_boss_time g0 ->
            Game.wave g' = Game.wave g0 ->
            Game.shields g' = Game.shields g0 ->
            advances w0 w' -> highscores_ok g' w')
    by (intros; eapply highscores_ok_steady; eassumption).
  assert (Hkeep : forall g0 g' w0, highscores_ok g0 w0 ->
            Game.highscores g' = Game.highscores g0 -> highscores_ok g' w0)
    by (intros g0 g' w0 H0 E; exact (highscores_ok_steady _ _ _ _ H0 E (advances_refl w0))).
  pose proof (inv_update_player_and_grid highscores_ok Hframe dt keys g w H) as H1.
  destruct (Game.update_player_and_grid dt keys g w) as [g1 w1]. cbn [fst snd] in H1.
  pose proof (highscores_ok_update_boss dt g1 w1 H1) as H2.
  destruct (Game.update_boss dt g1 w1) as [g2 w2]. cbn [fst snd] in H2.
  apply (inv_update_after_boss highscores_ok Hframe highscores_ok_game_over); [| | exact H2].
  - intros g0 w0 H0. exact (Hkeep _ _ _ H0 eq_refl).
  - intros b g0 w0 H0. exact (Hkeep _ _ _ H0 eq_refl).
Qed.

Lemma highscores_ok_start_new_game reset g w :
  highscores_ok g w ->
  highscores_ok (fst (Game._start_new_game reset g w))
                (snd (Game._start_new_game reset g w)).
Proof.
  intros H. unfold Game._start_new_game, mbind, M_bind, mret, M_ret.
  match goal with |- context [EnemyGrid.new ?wv w] =>
    pose proof (EnemyGrid_new_advances wv w) as Ha;
    destruct (EnemyGrid.new wv w) as [gr w1] end.
  pose proof (rand_boss_timer_advances w1) as Ha1.
  destruct (Game._rand_boss_timer w1) as [nbt w2]. cbn [fst snd] in *.
  apply (highscores_ok_steady g w); [exact H | destruct reset; reflexivity |].
  eapply advances_trans; eassumption.
Qed.

Lemma highscores_ok_new mixer_ok w :
  file_ok (highscore_file w) ->
  highscores_ok (fst (Game.new mixer_ok w)) (snd (Game.new mixer_ok w)).
Proof.
  intros Hf. unfold Game.new, mbind, M_bind.
  pose proof (rand_boss_timer_advances w) as Ha.
  destruct (Game._rand_boss_timer w) as [nbt w1]. cbn [snd] in Ha.
  destruct (advances_store _ _ Ha) as [_ Hfile].
  destruct (load_highscores_result w1) as (Hv & Ht & Hfile').
  destruct (load_highscores w1) as [hs w2]. cbn [fst snd] in *.
  apply highscores_ok_start_new_game.
  split; [exact Hv |]. split.
  - unfold Game.table. cbn [Game.highscores]. unfold dict_table in Ht. rewrite Ht, Hfile.
    unfold file_ok in Hf. destruct (highscore_file w) as [| | [l |] lu];
      try exact Hf; split; try constructor; simpl; lia.
  - rewrite Hfile', Hfile. exact Hf.
Qed.




(** * Further properties *)

(** X1.  [Player.update] keeps a ship that is at most 780 wide between the
    margins: after the call its left edge is at 10 or more and its right edge
    at 790 or less, whatever the time step, the keys and the place it was at.
    The ship only moves sideways and keeps its size and its lives. *)
Theorem Player_update_on_screen (dt : Q) (keys : Keys) (p : Player.t) :
  rw (Player.rect p) <= WIDTH - 20 ->
  let p' := Player.update dt keys p in
  (10 <= left (Player.rect p') /\ right (Player.rect p') <= WIDTH - 10)
  /\ ry (Player.rect p') = ry (Player.rect p)
  /\ rw (Player.rect p') = rw (Player.rect p)
  /\ rh (Player.rect p') = rh (Player.rect p)
  /\ Player.lives p' = Player.lives p.
Proof.
  intros Hw. unfold Player.update. cbn -[Z.max Z.min WIDTH py_int].
  unfold left, right, set_right, set_left, set_x. cbn -[Z.max Z.min WIDTH py_int].
  unfold WIDTH in *. repeat split; lia.
Qed.

Lemma Player_update_on_screen_witness :
  let p := Player.new 400 570 in
  let p' := Player.update 10 (mkKeys false false true false false) p in
  (10 <= left (Player.rect p') /\ right (Player.rect p') <= WIDTH - 10)
  /\ left (Player.rect p') = 740.
Proof.
  split; [| reflexivity].
  apply (Player_update_on_screen 10 (mkKeys false false true false false)
           (Player.new 400 570)).
  vm_compute. intros H; discriminate H.
Defined.












(** ** The bounding box of the grid *)

Lemma fold_left_min_spec (l : list Z) (a : Z) :
  let m := fold_left Z.min l a in
  m <= a /\ Forall (fun x => m <= x) l /\ (m = a \/ m ∈ l).
Proof.
  revert a. induction l as [|x l IH]; intros a; cbn [fold_left].
  - split; [lia|]. split; [constructor | left; reflexivity].
  - destruct (IH (Z.min a x)) as (H1 & H2 & H3). split; [lia|]. split.
    + constructor; [lia | exact H2].
    + destruct H3 as [H3|H3]; [| right; right; exact H3].
      destruct (Z.min_spec a x) as [[_ E]|[_ E]].
      * left. rewrite H3. exact E.
      * right. rewrite H3, E. left.
Qed.

Lemma fold_left_max_spec (l : list Z) (a : Z) :
  let m := fold_left Z.max l a in
  a <= m /\ Forall (fun x => x <= m) l /\ (m = a \/ m ∈ l).
Proof.
  revert a. induction l as [|x l IH]; intros a; cbn [fold_left].
  - split; [lia|]. split; [constructor | left; reflexivity].
  - destruct (IH (Z.max a x)) as (H1 & H2 & H3). split; [lia|]. split.
    + constructor; [lia | exact H2].
    + destruct H3 as [H3|H3]; [| right; right; exact H3].
      destruct (Z.max_spec a x) as [[_ E]|[_ E]].
      * right. rewrite H3, E. left.
      * left. rewrite H3. exact E.
Qed.

Lemma min_list_spec (l : list Z) :
  l <> [] -> Forall (fun x => min_list l <= x) l /\ min_list l ∈ l.
Proof.
  destruct l as [|a l]; [done|]. intros _. cbn [min_list].
  destruct (fold_left_min_spec l a) as (H1 & H2 & H3). split.
  - constructor; assumption.
  - destruct H3 as [->|H3]; [left | right; exact H3].
Qed.

Lemma max_list_spec (l : list Z) :
  l <> [] -> Forall (fun x => x <= max_list l) l /\ max_list l ∈ l.
Proof.
  destruct l as [|a l]; [done|]. intros _. cbn [max_list].
  destruct (fold_left_max_spec l a) as (H1 & H2 & H3). split.
  - constructor; assumption.
  - destruct H3 as [->|H3]; [left | right; exact H3].
Qed.

(** X4.  [EnemyGrid.bounds] is the bounding box of the enemies: on a grid
    that is not empty it contains the rectangle of every enemy and each of
    its four sides is the side of some enemy; on an empty grid it is
    [Rect(0, 0, 0, 0)]. *)
Theorem EnemyGrid_bounds_spec (g : EnemyGrid.t) :
  let b := EnemyGrid.bounds g in
  (EnemyGrid.enemies g = [] -> b = mkRect 0 0 0 0)
  /\ (EnemyGrid.enemies g <> [] ->
      Forall (fun e => left b <= left (Enemy.rect e) /\ right (Enemy.rect e) <= right b
                       /\ top b <= top (Enemy.rect e) /\ bottom (Enemy.rect e) <= bottom b)
             (EnemyGrid.enemies g)
      /\ Exists (fun e => left (Enemy.rect e) = left b) (EnemyGrid.enemies g)
      /\ Exists (fun e => right (Enemy.rect e) = right b) (EnemyGrid.enemies g)
      /\ Exists (fun e => top (Enemy.rect e) = top b) (EnemyGrid.enemies g)
      /\ Exists (fun e => bottom (Enemy.rect e) = bottom b) (EnemyGrid.enemies g)).
Proof.
  intros b. split.
  - intros E. subst b. unfold EnemyGrid.bounds. rewrite E. reflexivity.
  - intros Hne.
    set (rects := map Enemy.rect (EnemyGrid.enemies g)).
    assert (Hr : rects <> []) by (subst rects; destruct (EnemyGrid.enemies g); done).
    assert (Hb : b = mkRect (min_list (map left rects)) (min_list (map top rects))
                        (max_list (map right rects) - min_list (map left rects))
                        (max_list (map bottom rects) - min_list (map top rects))).
    { subst b. unfold EnemyGrid.bounds. fold rects. destruct rects; [done | reflexivity]. }
    assert (Hl : left b = min_list (map left rects)) by (rewrite Hb; reflexivity).
    assert (Ht : top b = min_list (map top rects)) by (rewrite Hb; reflexivity).
    assert (Hri : right b = max_list (map right rects))
      by (rewrite Hb; unfold right; cbn [rx rw]; lia).
    assert (Hbo : bottom b = max_list (map bottom rects))
      by (rewrite Hb; unfold bottom; cbn [ry rh]; lia).
    assert (Hmap : forall f : Rect -> Z, map f rects <> [])
      by (intros f; destruct rects; done).
    destruct (min_list_spec _ (Hmap left)) as (L1 & L2).
    destruct (min_list_spec _ (Hmap top)) as (T1 & T2).
    destruct (max_list_spec _ (Hmap right)) as (R1 & R2).
    destruct (max_list_spec _ (Hmap bottom)) as (B1 & B2).
    rewrite Hl, Ht, Hri, Hbo. subst rects.
    rewrite <- !list_fmap_compose in *.
    rewrite Forall_fmap in L1, T1, R1, B1.
    rewrite Forall_forall in L1, T1, R1, B1.
    repeat split.
    + apply Forall_forall. intros e He. repeat split;
        [apply (L1 e) | apply (R1 e) | apply (T1 e) | apply (B1 e)]; exact He.
    + apply Exists_exists. apply list_elem_of_fmap in L2 as (e & E & He).
      exists e. split; [exact He | symmetry; exact E].
    + apply Exists_exists. apply list_elem_of_fmap in R2 as (e & E & He).
      exists e. split; [exact He | symmetry; exact E].
    + apply Exists_exists. apply list_elem_of_fmap in T2 as (e & E & He).
      exists e. split; [exact He | symmetry; exact E].
    + apply Exists_exists. apply list_elem_of_fmap in B2 as (e & E & He).
      exists e. split; [exact He | symmetry; exact E].
Qed.

Lemma EnemyGrid_bounds_spec_witness :
  EnemyGrid.bounds sample_grid = mkRect 60 70 534 278
  /\ Forall (fun e => 60 <= left (Enemy.rect e) /\ right (Enemy.rect e) <= 594
                      /\ 70 <= top (Enemy.rect e) /\ bottom (Enemy.rect e) <= 348)
            (EnemyGrid.enemies sample_grid).
Proof.
  split; [reflexivity|].
  assert (Hne : EnemyGrid.enemies sample_grid <> []) by (intros H; discriminate H).
  exact (proj1 (proj2 (EnemyGrid_bounds_spec sample_grid) Hne)).
Defined.

(** ** The next wave *)

Lemma start_new_game_highscores reset g w :
  Game.highscores (fst (Game._start_new_game reset g w)) = Game.highscores g
  /\ advances w (snd (Game._start_new_game reset g w)).
Proof.
  unfold Game._start_new_game, mbind, M_bind, mret, M_ret.
  match goal with |- context [EnemyGrid.new ?wv w] =>
    pose proof (EnemyGrid_new_advances wv w) as Ha;
    destruct (EnemyGrid.new wv w) as [gr w1] end.
  pose proof (rand_boss_timer_advances w1) as Ha1.
  destruct (Game._rand_boss_timer w1) as [nbt w2]. cbn [fst snd] in *.
  split; [destruct reset; reflexivity | eapply advances_trans; eassumption].
Qed.



(** ** Saving and loading the table *)

(** X6.  Saving, then loading.  When the file can be written,
    [load_highscores] after [save_highscores(top)] gives the five largest
    entries of [top] in descending order with the time stamp of the save, and
    [top] itself when [top] was such a table.  When the file cannot be
    written, saving changes nothing. *)
Theorem highscores_round_trip (top : list Z) (w : World) :
  let w1 := snd (save_highscores top w) in
  let r := load_highscores w1 in
  (disk_writable w = true ->
     dict_table (snd r) (fst r) = take 5 (sorted_desc top)
     /\ hs_last_updated (fst r) = Some (utc_stamp w)
     /\ (table_ok top -> dict_table (snd r) (fst r) = top))
  /\ (disk_writable w = false -> w1 = w).
Proof.
  intros w1 r. split.
  - intros Hd.
    assert (Hw1 : w1 = set_highscore_file
                         (FileRecord (Some (take 5 (sorted_desc top))) (Some (utc_stamp w))) w).
    { subst w1. unfold save_highscores, get_world, modify_world, mbind, M_bind, mret, M_ret.
      cbn. rewrite Hd. reflexivity. }
    assert (Ht : dict_table (snd r) (fst r) = take 5 (sorted_desc top)).
    { subst r. rewrite (proj1 (proj2 (load_highscores_result w1))), Hw1. reflexivity. }
    split; [exact Ht|]. split.
    + subst r. rewrite Hw1. reflexivity.
    + intros Hok. rewrite Ht. apply top5_id. exact Hok.
  - intros Hd. subst w1.
    unfold save_highscores, get_world, modify_world, mbind, M_bind, mret, M_ret.
    cbn. rewrite Hd. reflexivity.
Qed.

Lemma highscores_round_trip_witness :
  let w1 := snd (save_highscores [30; 10; 70; 20; 60; 50] sample_world) in
  let r := load_highscores w1 in
  dict_table (snd r) (fst r) = [70; 60; 50; 30; 20]
  /\ hs_last_updated (fst r) = Some "2026-01-01T00:00:00Z".
Proof.
  destruct (proj1 (highscores_round_trip [30; 10; 70; 20; 60; 50] sample_world) eq_refl)
    as (H1 & H2 & _).
  split; [exact H1 | exact H2].
Defined.

Lemma Game_new_table (mixer_ok : bool) (w : World) :
  let r := Game.new mixer_ok w in
  Game.table (snd r) (fst r)
  = match highscore_file w with FileRecord (Some l) _ => l | _ => [] end.
Proof.
  intros r. subst r. unfold Game.new, mbind, M_bind.
  pose proof (rand_boss_timer_advances w) as Ha.
  destruct (Game._rand_boss_timer w) as [nbt w1]. cbn [snd] in Ha.
  destruct (advances_store _ _ Ha) as [_ Hfile].
  destruct (load_highscores_result w1) as (Hv & Ht & Hfile').
  destruct (load_highscores w1) as [hs w2]. cbn [fst snd] in *.
  match goal with |- context [Game._start_new_game false ?g0 w2] =>
    destruct (start_new_game_highscores false g0 w2) as [Hh Hadv];
    destruct (Game._start_new_game false g0 w2) as [g3 w3] end.
  cbn [fst snd] in *. destruct (advances_store _ _ Hadv) as [Hl _].
  unfold Game.table. rewrite Hh, Hl. cbn [Game.highscores].
  unfold dict_table in Ht. rewrite Ht, Hfile. reflexivity.
Qed.

(** X7.  What [game_over] enters in the table is there in the next
    session: when the file can be written, the table of a [Game] made in the
    world that [game_over] leaves is the table after that [game_over]. *)
Theorem highscores_persist (mixer_ok : bool) (g : Game.t) (w : World) :
  dict_valid w (Game.highscores g) ->
  disk_writable w = true ->
  let r1 := Game.game_over g w in
  let r2 := Game.new mixer_ok (snd r1) in
  Game.table (snd r2) (fst r2) = Game.table (snd r1) (fst r1).
Proof.
  intros Hv Hd r1 r2. subst r2. rewrite Game_new_table.
  destruct (game_over_table g w Hv) as (_ & _ & _ & Hfile & _).
  fold r1 in Hfile. rewrite Hfile, Hd. reflexivity.
Qed.

Lemma highscores_persist_witness :
  let g := Game.set_score 120 sample_game in
  let r1 := Game.game_over g sample_world' in
  let r2 := Game.new false (snd r1) in
  Game.table (snd r1) (fst r1) = [120] /\ Game.table (snd r2) (fst r2) = [120].
Proof.
  assert (Hv : dict_valid sample_world' (Game.highscores (Game.set_score 120 sample_game)))
    by (vm_compute; lia).
  pose proof (highscores_persist false (Game.set_score 120 sample_game) sample_world'
                Hv eq_refl) as H.
  assert (H1 : Game.table (snd (Game.game_over (Game.set_score 120 sample_game) sample_world'))
                 (fst (Game.game_over (Game.set_score 120 sample_game) sample_world'))
               = [120]) by (vm_compute; reflexivity).
  split; [exact H1 | cbv zeta in H; rewrite H; exact H1].
Defined.

(** X8.  [game_over] keeps the best scores: the table after it, together
    with the entries it dropped, is the table before it with the final score;
    every entry dropped is at most every entry kept; and the table has
    min(5, length before + 1) entries. *)
Theorem game_over_keeps_best (g : Game.t) (w : World) :
  dict_valid w (Game.highscores g) ->
  let r := Game.game_over g w in
  let old := Game.table w g in
  let new := Game.table (snd r) (fst r) in
  length new = Nat.min 5 (S (length old))
  /\ exists dropped,
       new ++ dropped ≡ₚ old ++ [Game.score g]
       /\ Forall (fun d => Forall (fun k => d <= k) new) dropped.
Proof.
  intros Hv r old new.
  destruct (game_over_table g w Hv) as (Ht & _). fold r new old in Ht.
  set (s := sorted_desc (old ++ [Game.score g])) in *.
  assert (Hp : s ≡ₚ old ++ [Game.score g]) by apply sorted_desc_Permutation.
  split.
  - rewrite Ht, length_take, (Permutation_length Hp), length_app. cbn [length].
    rewrite Nat.add_1_r. reflexivity.
  - exists (drop 5 s). split.
    + rewrite Ht, take_drop. exact Hp.
    + assert (Hs : StronglySorted desc (take 5 s ++ drop 5 s)).
      { rewrite take_drop. apply (Sorted_StronglySorted desc _). apply sorted_desc_Sorted. }
      rewrite Ht. apply Forall_forall. intros d Hd. apply Forall_forall. intros k Hk.
      exact (StronglySorted_app_1_elem_of desc _ _ k d Hs Hk Hd).
Qed.

Lemma game_over_keeps_best_witness :
  let w := set_lists [[50; 40; 30; 20; 10]] sample_world in
  let g := Game.set_highscores (mkHighscoreDict (Some 0%nat) None)
             (Game.set_score 35 sample_game) in
  let r := Game.game_over g w in
  Game.table (snd r) (fst r) = [50; 40; 35; 30; 20]
  /\ length (Game.table (snd r) (fst r)) = 5%nat.
Proof.
  split; [vm_compute; reflexivity|].
  assert (Hv : dict_valid (set_lists [[50; 40; 30; 20; 10]] sample_world)
                 (Game.highscores
                    (Game.set_highscores (mkHighscoreDict (Some 0%nat) None)
                       (Game.set_score 35 sample_game))))
    by (vm_compute; lia).
  exact (proj1 (game_over_keeps_best _ _ Hv)).
Defined.

(** ** Hit effects *)

Lemma Particle_new_world x y w :
  snd (Particle.new x y w) = set_rand_ix (rand_ix w + 4) w.
Proof.
  unfold Particle.new, random_uniform, random_randint, random_below, random_random,
    get_world, mbind, M_bind, mret, M_ret. cbn [fst snd].
  unfold set_rand_ix. cbn. f_equal. lia.
Qed.

Lemma mapM_Particle_new_world {A} x y (l : list A) w :
  snd (mapM (fun _ => Particle.new x y) l w) = set_rand_ix (rand_ix w + 4 * length l) w.
Proof.
  revert w. induction l as [|a l IH]; intros w; cbn [mapM length].
  - unfold mret, M_ret. cbn [snd]. destruct w; unfold set_rand_ix; cbn. f_equal. lia.
  - unfold mbind, M_bind, mret, M_ret.
    pose proof (Particle_new_world x y w) as H1.
    destruct (Particle.new x y w) as [p w1]. cbn [snd] in H1.
    specialize (IH w1). destruct (mapM _ l w1) as [ps w2]. cbn [snd] in *.
    rewrite IH, H1. unfold set_rand_ix. cbn. f_equal. lia.
Qed.

Lemma mapM_length {A B} (f : A -> M B) (l : list A) w :
  length (fst (mapM f l w)) = length l.
Proof.
  revert w. induction l as [|a l IH]; intros w; cbn [mapM]; [reflexivity|].
  unfold mbind, M_bind, mret, M_ret. destruct (f a w) as [b w1].
  specialize (IH w1). destruct (mapM f l w1) as [bs w2]. cbn [fst length] in *.
  rewrite IH. reflexivity.
Qed.

Lemma mapM_Forall {A B} (f : A -> M B) (P : B -> Prop) (J : World -> Prop) (l : list A) w :
  (forall a w, J w -> P (fst (f a w)) /\ J (snd (f a w))) ->
  J w -> Forall P (fst (mapM f l w)).
Proof.
  intros Hf. revert w. induction l as [|a l IH]; intros w Hw; cbn [mapM].
  - constructor.
  - unfold mbind, M_bind, mret, M_ret. destruct (Hf a w Hw) as [Hp Hj].
    destruct (f a w) as [b w1]. specialize (IH w1 Hj).
    destruct (mapM f l w1) as [bs w2]. cbn [fst snd] in *. constructor; assumption.
Qed.

Lemma Particle_new_spec x y w :
  draws_ok w ->
  particle_at x y (fst (Particle.new x y w))
  /\ draws_ok (snd (Particle.new x y w)).
Proof.
  intros Hd. unfold Particle.new, random_uniform, random_randint, random_below,
    random_random, get_world, mbind, M_bind, mret, M_ret, particle_at. cbn [fst snd].
  cbn [Particle.x Particle.y Particle.life Particle.max_life Particle.size rand_draws
       rand_ix set_rand_ix].
  split; [| exact Hd].
  split; [reflexivity|]. split; [reflexivity|]. split.
  - pose proof (Hd (S (S (rand_ix w)))) as H. lra.
  - split; [reflexivity|].
    pose proof (random_below_range (3 - 1 + 1) _ ltac:(lia) (Hd (S (S (S (rand_ix w)))))) as H.
    lia.
Qed.

(** X9.  [spawn_hit_effect(x, y)] appends between 6 and 12 particles,
    each at (x, y) with a life in [0.08, 0.22), a full life equal to it and a
    size of 1, 2 or 3.  It reads the generator and changes nothing else.
    Every draw is in [0, 1). *)
Theorem spawn_hit_effect_spec (x y : Z) (g : Game.t) (w : World) :
  draws_ok w ->
  let r := Game.spawn_hit_effect x y g w in
  exists ps k,
    fst r = Game.set_particles (Game.particles g ++ ps) g
    /\ snd r = set_rand_ix (rand_ix w + k) w
    /\ (6 <= length ps <= 12)%nat
    /\ Forall (particle_at x y) ps.
Proof.
  intros Hd r. subst r. unfold Game.spawn_hit_effect. cbn [negb ENABLE_PARTICLES].
  unfold random_randint, random_below, random_random, mbind, M_bind, mret, M_ret.
  pose proof (random_below_range (12 - 6 + 1) _ ltac:(lia) (Hd (rand_ix w))) as Hn.
  set (n := 6 + Qfloor (rand_draws w (rand_ix w) * inject_Z (12 - 6 + 1))) in *.
  set (w0 := set_rand_ix (S (rand_ix w)) w).
  pose proof (mapM_length (fun _ : Z => Particle.new x y) (seqZ 0 n) w0) as Hlen.
  pose proof (mapM_Particle_new_world x y (seqZ 0 n) w0) as Hw.
  pose proof (mapM_Forall (fun _ : Z => Particle.new x y) (particle_at x y) draws_ok
                (seqZ 0 n) w0
                (fun _ w1 H1 => Particle_new_spec x y w1 H1) Hd) as Hps.
  destruct (mapM (fun _ : Z => Particle.new x y) (seqZ 0 n) w0) as [ps w1].
  cbn [fst snd] in *. rewrite length_seqZ in Hlen, Hw.
  exists ps, (1 + 4 * length ps)%nat. split; [reflexivity|]. split.
  - rewrite Hw, Hlen. subst w0. unfold set_rand_ix. cbn. f_equal. lia.
  - split; [lia | exact Hps].
Qed.

Lemma spawn_hit_effect_spec_witness :
  let r := Game.spawn_hit_effect 100 200 sample_game sample_world' in
  (6 <= length (Game.particles (fst r)) <= 12)%nat
  /\ length (Game.particles (fst r)) = 9%nat.
Proof.
  assert (Hd : draws_ok sample_world')
    by (intros n; vm_compute; split; [intros H; discriminate H | reflexivity]).
  destruct (spawn_hit_effect_spec 100 200 sample_game sample_world' Hd)
    as (ps & k & H1 & _ & Hlen & _).
  split; [rewrite H1; exact Hlen | vm_compute; reflexivity].
Defined.

(** ** A player bullet against the enemies *)

Section HitEnemies.
Variable b : Bullet.t.

Local Abbreviation struck :=
  (fun e : Enemy.t => colliderect (Enemy.rect e) (Bullet.rect b) = true).
Local Abbreviation passed :=
  (fun e : Enemy.t => colliderect (Enemy.rect e) (Bullet.rect b) = false).


Lemma hit_enemies_first pre e post :
  Forall passed pre ->
  colliderect (Enemy.rect e) (Bullet.rect b) = true ->
  Game.hit_enemies (pre ++ e :: post) b =
    Some (pre ++ (if Enemy.hp e - Bullet.damage b <=? 0 then post
                  else fst (Enemy.take_damage (Bullet.damage b) e) :: post),
          fst (Enemy.take_damage (Bullet.damage b) e),
          Enemy.hp e - Bullet.damage b <=? 0).
Proof.
  intros Hpre He. induction Hpre as [|x pre Hx _ IH]; cbn [app Game.hit_enemies].
  - rewrite He. unfold Enemy.take_damage. cbn [fst].
    destruct (Enemy.hp e - Bullet.damage b <=? 0); reflexivity.
  - rewrite Hx, IH. reflexivity.
Qed.

Lemma hit_enemies_split es :
  (Forall passed es /\ Game.hit_enemies es b = None)
  \/ exists pre e post, es = pre ++ e :: post /\ Forall passed pre
       /\ colliderect (Enemy.rect e) (Bullet.rect b) = true.
Proof.
  induction es as [|x es IH].
  - left. split; [constructor | reflexivity].
  - destruct (colliderect (Enemy.rect x) (Bullet.rect b)) eqn:Hx.
    + right. exists [], x, es. split; [reflexivity|]. split; [constructor | exact Hx].
    + destruct IH as [[IH1 IH2] | (pre & e & post & -> & Hpre & He)].
      * left. split; [constructor; assumption|]. cbn [Game.hit_enemies].
        rewrite Hx, IH2. reflexivity.
      * right. exists (x :: pre), e, post. split; [reflexivity|].
        split; [constructor; assumption | exact He].
Qed.

(** What a hit leaves of a property of the enemies: the enemies that stay
    are the ones of before, the one struck with the damage taken. *)
Lemma hit_enemies_Forall (P : Enemy.t -> Prop) es es' e' dead :
  Game.hit_enemies es b = Some (es', e', dead) ->
  (forall e, P e -> 0 < Enemy.hp e - Bullet.damage b ->
             P (fst (Enemy.take_damage (Bullet.damage b) e))) ->
  Forall P es -> Forall P es'.
Proof.
  intros Hhit HP Hes.
  destruct (hit_enemies_split es) as [[_ Hn] | (pre & e & post & -> & Hpre & He)];
    [congruence|].
  rewrite (hit_enemies_first pre e post Hpre He) in Hhit.
  injection Hhit as <- <- <-.
  apply Forall_app in Hes as [H1 H2]. apply Forall_cons in H2 as [H2 H3].
  apply Forall_app. split; [exact H1|].
  destruct (Enemy.hp e - Bullet.damage b <=? 0) eqn:Hd; [exact H3|].
  constructor; [| exact H3]. apply HP; [exact H2 | lia].
Qed.

Lemma hit_enemies_points es es' e' dead :
  Game.hit_enemies es b = Some (es', e', dead) ->
  exists e, e ∈ es /\ Enemy.points e' = Enemy.points e
            /\ Enemy.hp e' = Enemy.hp e - Bullet.damage b
            /\ dead = (Enemy.hp e' <=? 0).
Proof.
  intros Hhit.
  destruct (hit_enemies_split es) as [[_ Hn] | (pre & e & post & -> & Hpre & He)];
    [congruence|].
  rewrite (hit_enemies_first pre e post Hpre He) in Hhit.
  injection Hhit as <- <- <-. exists e. split.
  - apply elem_of_app. right. left.
  - repeat split; reflexivity.
Qed.

Lemma spawn_hit_effect_shape x y g w :
  exists ps k, Game.spawn_hit_effect x y g w
               = (Game.set_particles (Game.particles g ++ ps) g,
                  set_rand_ix (rand_ix w + k) w).
Proof.
  unfold Game.spawn_hit_effect. cbn [negb ENABLE_PARTICLES].
  unfold random_randint, random_below, random_random, mbind, M_bind, mret, M_ret.
  match goal with |- context [mapM ?f ?l ?w0] =>
    pose proof (mapM_Particle_new_world x y l w0) as Hw;
    destruct (mapM f l w0) as [ps w1]; exists ps, (S (4 * length l)) end.
  cbn [snd] in Hw. rewrite Hw. cbn [rand_ix set_rand_ix].
  f_equal. unfold set_rand_ix. cbn. f_equal. lia.
Qed.


End HitEnemies.


(** ** The order of the tests on a player bullet *)

Lemma collide_pieces_false ps b :
  snd (Shields.collide_pieces ps b) = false -> fst (Shields.collide_pieces ps b) = ps.
Proof.
  induction ps as [|p ps IH]; cbn [Shields.collide_pieces]; [reflexivity|].
  destruct (colliderect _ _).
  - destruct (ShieldPiece.hit p) as [p' dead]. cbn [snd]. intros H; discriminate H.
  - destruct (Shields.collide_pieces ps b) as [ps' r]. cbn [fst snd] in *.
    intros H. rewrite (IH H). reflexivity.
Qed.

Lemma collide_bullet_false b s :
  snd (Shields.collide_bullet b s) = false -> fst (Shields.collide_bullet b s) = s.
Proof.
  unfold Shields.collide_bullet. pose proof (collide_pieces_false (Shields.pieces s) b) as H.
  destruct (Shields.collide_pieces (Shields.pieces s) b) as [ps r]. cbn [fst snd] in *.
  intros Hr. rewrite (H Hr). destruct s; reflexivity.
Qed.



Lemma advances_GODMODE w w' : advances w w' -> GODMODE w' = GODMODE w.
Proof. intros [E _]. rewrite E. reflexivity. Qed.

Lemma game_over_GODMODE g w : GODMODE (snd (Game.game_over g w)) = GODMODE w.
Proof.
  unfold Game.game_over, Game.highscores_get_top, list_append, read_list, new_list,
    save_highscores, get_world, modify_world, SoundManager.play, modify_world,
    mbind, M_bind, mret, M_ret.
  destruct (hs_top (Game.highscores g)); cbn;
    repeat match goal with
           | |- context [if ?c then _ else _] => destruct c; cbn
           end; reflexivity.
Qed.

Section Trace.
Variable B : Z -> Prop.
Hypothesis B_boss : B 100.
Hypothesis B_new : forall wave w,
  Forall (fun e => B (Enemy.points e)) (EnemyGrid.enemies (fst (EnemyGrid.new wave w))).

Lemma tr_spawn x y g w : rtc (hit_change B) (g, w) (Game.spawn_hit_effect x y g w).
Proof.
  destruct (spawn_hit_effect_shape x y g w) as (ps & k & ->).
  eapply rtc_l; [apply (hc_world B g w (set_rand_ix (rand_ix w + k) w)) |].
  - split; [destruct w; reflexivity | cbn; lia].
  - apply rtc_once. apply hc_particles.
Qed.

Lemma tr_play (s : SoundManager.t) name g w :
  rtc (hit_change B) (g, w) (g, snd (SoundManager.play s name w)).
Proof. apply rtc_once, hc_world, play_advances. Qed.

Lemma hit_change_bullets s s' :
  hit_change B s s' -> Game.bullets (fst s') = Game.bullets (fst s).
Proof.
  destruct 1 as [g w w' _ | g w b | g w base _ | g w ps | g w
                 | g w gr b es e dead _ _ | g w amount]; cbn [fst]; try reflexivity.
  - pose proof (score_add_frame base g w) as H.
    destruct (Game.score_add base g w) as [g' w']. destruct H as [_ ->]. reflexivity.
  - cbv zeta. destruct (Player.hit (GODMODE w) (Game.player g)) as [p damaged].
    cbn [fst snd]. destruct (_ && _).
    + match goal with |- context [Game.game_over ?g1 w] =>
        destruct (game_over_fields g1 w) as (hs & j & ->) end.
      destruct damaged; reflexivity.
    + destruct damaged; reflexivity.
Qed.

Lemma rtc_hit_change_bullets s s' :
  rtc (hit_change B) s s' -> Game.bullets (fst s') = Game.bullets (fst s).
Proof.
  induction 1 as [|s1 s2 s3 H _ IH]; [reflexivity|].
  rewrite IH. exact (hit_change_bullets _ _ H).
Qed.

Lemma hit_change_points s s' :
  hit_change B s s' -> points_known B (fst s) -> points_known B (fst s').
Proof.
  destruct 1 as [g w w' _ | g w b | g w base _ | g w ps | g w
                 | g w gr b es e dead Hgr Hhit | g w amount]; cbn [fst]; try (intros H; exact H).
  - pose proof (score_add_frame base g w) as H.
    destruct (Game.score_add base g w) as [g' w']. destruct H as [_ ->].
    intros H; exact H.
  - unfold points_known. rewrite Hgr. cbn [Game.grid Game.set_grid EnemyGrid.enemies
      EnemyGrid.set_enemies].
    apply (hit_enemies_Forall b _ _ _ _ _ Hhit). intros e0 H0 _. exact H0.
  - cbv zeta. destruct (Player.hit (GODMODE w) (Game.player g)) as [p damaged].
    cbn [fst snd]. destruct (_ && _).
    + match goal with |- context [Game.game_over ?g1 w] =>
        destruct (game_over_fields g1 w) as (hs & j & ->) end.
      destruct damaged; intros H; exact H.
    + destruct damaged; intros H; exact H.
Qed.

Lemma rtc_hit_change_points s s' :
  rtc (hit_change B) s s' -> points_known B (fst s) -> points_known B (fst s').
Proof.
  induction 1 as [|s1 s2 s3 H _ IH]; [intros H; exact H|].
  intros H1. apply IH. exact (hit_change_points _ _ H H1).
Qed.

Lemma rtc_ch_hit s s' : rtc (hit_change B) s s' -> rtc (change B) s s'.
Proof.
  induction 1 as [|s1 s2 s3 H _ IH]; [apply rtc_refl|].
  eapply rtc_l; [apply ch_hit; exact H | exact IH].
Qed.

Lemma tr_player_bullet_vs_enemies b g w :
  points_known B g ->
  let r := Game.player_bullet_vs_enemies b g w in
  rtc (hit_change B) (g, w) (fst (fst r), snd r).
Proof.
  intros Hp r. subst r. unfold Game.player_bullet_vs_enemies.
  destruct (Game.grid g) as [gr |] eqn:Hgr; [| apply rtc_refl].
  destruct (Game.hit_enemies _ _) as [[[es e] dead] |] eqn:Hhit; [| apply rtc_refl].
  unfold mbind, M_bind, mret, M_ret.
  eapply rtc_l; [exact (hc_enemies B g w gr b es e dead Hgr Hhit) |].
  match goal with |- context [Game.spawn_hit_effect ?x ?y ?g0 w] =>
    pose proof (tr_spawn x y g0 w) as H1;
    destruct (Game.spawn_hit_effect x y g0 w) as [g1 w1] end.
  etrans; [exact H1|]. destruct dead; [| apply rtc_refl].
  assert (Hb : B (Enemy.points e)).
  { destruct (hit_enemies_points b _ _ _ _ Hhit) as (e0 & He0 & -> & _).
    unfold points_known in Hp. rewrite Hgr in Hp.
    rewrite Forall_forall in Hp. exact (Hp e0 He0). }
  eapply rtc_l; [exact (hc_score B g1 w1 _ Hb) |].
  destruct (Game.score_add (Enemy.points e) g1 w1) as [g2 w2].
  pose proof (tr_play (Game.sound g2) "explosion" g2 w2) as H3.
  destruct (SoundManager.play (Game.sound g2) "explosion" w2) as [u w3]. exact H3.
Qed.

Lemma tr_player_bullet_step b g w :
  points_known B g ->
  let r := Game.player_bullet_step b g w in
  rtc (hit_change B) (g, w) (fst (fst r), snd r).
Proof.
  intros Hp r. subst r. unfold Game.player_bullet_step.
  destruct (negb (Bullet.is_player b)); [apply rtc_refl |].
  pose proof (hc_shields B g w b) as H0.
  destruct (Shields.collide_bullet b (Game.shields g)) as [sh absorbed]. cbn [fst] in H0.
  destruct absorbed; [apply rtc_once; exact H0 |].
  eapply rtc_l; [exact H0|].
  assert (Hp' : points_known B (Game.set_shields sh g)) by exact Hp.
  destruct (Game.boss (Game.set_shields sh g)) as [bo |];
    [| exact (tr_player_bullet_vs_enemies b _ w Hp')].
  destruct (colliderect _ _); [| exact (tr_player_bullet_vs_enemies b _ w Hp')].
  unfold mbind, M_bind, mret, M_ret.
  eapply rtc_l; [exact (hc_score B _ w 100 B_boss) |].
  destruct (Game.score_add 100 (Game.set_shields sh g) w) as [g1 w1].
  pose proof (tr_spawn (centerx (Boss.rect bo)) (centery (Boss.rect bo)) g1 w1) as H2.
  destruct (Game.spawn_hit_effect _ _ g1 w1) as [g2 w2].
  etrans; [exact H2|].
  eapply rtc_l; [exact (hc_boss B g2 w2) |].
  pose proof (tr_play (Game.sound (Game.set_boss None g2)) "explosion"
                (Game.set_boss None g2) w2) as H4.
  destruct (SoundManager.play _ _ w2) as [u w3]. exact H4.
Qed.

Lemma tr_enemy_bullet_step b g w :
  points_known B g ->
  let r := Game.enemy_bullet_step b g w in
  rtc (hit_change B) (g, w) (fst (fst r), snd r).
Proof.
  intros _ r. subst r. unfold Game.enemy_bullet_step.
  destruct (Bullet.is_player b); [apply rtc_refl |].
  pose proof (hc_shields B g w b) as H0.
  destruct (Shields.collide_bullet b (Game.shields g)) as [sh absorbed]. cbn [fst] in H0.
  destruct absorbed; [apply rtc_once; exact H0 |].
  eapply rtc_l; [exact H0|].
  destruct (colliderect _ _); [| apply rtc_refl].
  unfold mbind, M_bind, mret, M_ret, get_world.
  pose proof (hc_player_hit B (Game.set_shields sh g) w 10) as H1. cbv zeta in H1.
  change (Game.player (Game.set_shields sh g)) with (Game.player g) in *.
  destruct (Player.hit (GODMODE w) (Game.player g)) as [p damaged].
  cbn [fst snd] in H1. apply rtc_once.
  destruct damaged; cbn [Game.player Game.shake Game.set_shake_mag Game.set_shake_timer
                         Game.set_player];
    destruct (_ && _); try exact H1;
    match goal with |- context [Game.game_over ?g1 w] =>
      destruct (Game.game_over g1 w) end; exact H1.
Qed.

Lemma change_points s s' :
  change B s s' -> points_known B (fst s) -> points_known B (fst s').
Proof.
  destruct 1 as [s s' H | g w bs _ | g w gr Hgr Hbr]; cbn [fst].
  - exact (hit_change_points _ _ H).
  - intros H; exact H.
  - intros _. rewrite (enemy_breach_eq g w gr Hgr Hbr). cbv zeta.
    destruct (_ && _).
    + match goal with |- context [Game.game_over ?g1 ?w1] =>
        destruct (game_over_fields g1 w1) as (hs & j & ->) end.
      unfold points_known. cbn. apply B_new.
    + unfold points_known. cbn. apply B_new.
Qed.

Lemma rtc_change_points s s' :
  rtc (change B) s s' -> points_known B (fst s) -> points_known B (fst s').
Proof.
  induction 1 as [|s1 s2 s3 H _ IH]; [intros H; exact H|].
  intros H1. apply IH. exact (change_points _ _ H H1).
Qed.

Lemma tr_bullets_loop (step : Bullet.t -> Game.t -> M (Game.t * bool)) :
  (forall b g w, points_known B g ->
     rtc (hit_change B) (g, w) (fst (fst (step b g w)), snd (step b g w))) ->
  forall rest kept g w,
    points_known B g ->
    Game.bullets g = kept ++ rest ->
    rtc (change B) (g, w) (Game.bullets_loop step kept rest g w).
Proof.
  intros Hstep. induction rest as [|b rest IH]; intros kept g w Hp Hb;
    cbn [Game.bullets_loop]; [apply rtc_refl|].
  unfold mbind, M_bind. specialize (Hstep b g w Hp).
  destruct (step b g w) as [[g1 consumed] w1]. cbn [fst snd] in Hstep.
  pose proof (rtc_hit_change_bullets _ _ Hstep) as Hb1. cbn [fst] in Hb1.
  pose proof (rtc_hit_change_points _ _ Hstep Hp) as Hp1. cbn [fst] in Hp1.
  etrans; [apply rtc_ch_hit; exact Hstep|].
  set (kept' := if consumed then kept else kept ++ [b]).
  eapply rtc_l; [apply (ch_bullets B g1 w1 (kept' ++ rest)) |].
  - rewrite Hb1, Hb. subst kept'. destruct consumed.
    + apply sublist_app; [reflexivity | apply sublist_cons, reflexivity].
    + rewrite <- app_assoc. reflexivity.
  - apply IH; [exact Hp1 | reflexivity].
Qed.

Lemma tr_enemy_breach g w : rtc (change B) (g, w) (Game.enemy_breach g w).
Proof.
  destruct (Game.grid g) as [gr|] eqn:Hgr.
  - destruct (existsb (Game.breaches (Game.player g)) (EnemyGrid.enemies gr)) eqn:Hb.
    + apply rtc_once. apply (ch_breach B g w gr Hgr). apply existsb_breaches. exact Hb.
    + unfold Game.enemy_breach. rewrite Hgr, Hb. apply rtc_refl.
  - unfold Game.enemy_breach. rewrite Hgr. apply rtc_refl.
Qed.

Lemma tr_handle_collisions dt g w :
  points_known B g -> rtc (change B) (g, w) (Game.handle_collisions dt g w).
Proof.
  intros Hp. rewrite handle_collisions_ends_with_breach.
  pose proof (tr_bullets_loop Game.player_bullet_step tr_player_bullet_step
                (Game.bullets g) [] g w Hp eq_refl) as H1.
  destruct (Game.bullets_loop Game.player_bullet_step [] (Game.bullets g) g w) as [g1 w1].
  pose proof (rtc_change_points _ _ H1 Hp) as Hp1. cbn [fst] in Hp1.
  pose proof (tr_bullets_loop Game.enemy_bullet_step tr_enemy_bullet_step
                (Game.bullets g1) [] g1 w1 Hp1 eq_refl) as H2.
  destruct (Game.bullets_loop Game.enemy_bullet_step [] (Game.bullets g1) g1 w1) as [g2 w2].
  etrans; [exact H1|]. etrans; [exact H2|]. apply tr_enemy_breach.
Qed.

End Trace.

Lemma next_wave_eq g w :
  Game._next_wave g w =
    (Game.set_enemy_bullets []
       (Game.set_bullets []
          (Game.set_grid (Some (fst (EnemyGrid.new (Game.wave g + 1) w)))
             (Game.set_wave (Game.wave g + 1) g))),
     snd (EnemyGrid.new (Game.wave g + 1) w)).
Proof.
  unfold Game._next_wave, mbind, M_bind, mret, M_ret. cbn [Game.wave Game.set_wave].
  destruct (EnemyGrid.new (Game.wave g + 1) w) as [gr w1]. reflexivity.
Qed.

Lemma settle_shape dt g :
  exists ps m t,
    settle dt g = Game.set_particles ps (Game.set_shake_mag m (Game.set_shake_timer t g)).
Proof.
  unfold settle. destruct (Qltb 0 (Game.shake_timer g)).
  - eexists _, _, _. reflexivity.
  - eexists _, (Game.shake_mag g), (Game.shake_timer g). destruct g; reflexivity.
Qed.

(** The last part of a frame: the bullets move, the collisions are
    resolved, the effects settle, and a grid that is empty is replaced by the
    one of the next wave. *)
Lemma update_after_boss_eq dt g w :
  Game.update_after_boss dt g w =
    (let r := Game.handle_collisions dt (Game.set_bullets (moved_bullets dt g) g) w in
     let g2 := settle dt (fst r) in
     match Game.grid g2 with
     | Some gr => if EnemyGrid.alive gr =? 0 then Game._next_wave g2 (snd r)
                  else (g2, snd r)
     | None => (g2, snd r)
     end).
Proof.
  unfold Game.update_after_boss, mbind, M_bind, mret, M_ret. fold (moved_bullets dt g).
  destruct (Game.handle_collisions dt _ w) as [g1 w1]. unfold settle.
  cbn [fst snd ENABLE_PARTICLES].
  destruct (Qltb 0 (Game.shake_timer g1));
    (match goal with |- context [Game.grid ?x] => destruct (Game.grid x) as [gr|] end;
     [destruct (EnemyGrid.alive gr =? 0) |]; reflexivity).
Qed.

(** ** Bullets only leave the list during collision resolution *)

Lemma enemy_breach_bullets g w gr :
  Game.grid g = Some gr ->
  Exists (breach (Game.player g)) (EnemyGrid.enemies gr) ->
  Game.bullets (fst (Game.enemy_breach g w)) = [].
Proof.
  intros Hgr Hbr. rewrite (enemy_breach_eq g w gr Hgr Hbr). cbv zeta.
  destruct (_ && _); [| reflexivity].
  match goal with |- context [Game.game_over ?g1 ?w1] =>
    destruct (game_over_fields g1 w1) as (hs & j & ->) end.
  reflexivity.
Qed.

Lemma change_bullets B s s' :
  change B s s' -> sublist (Game.bullets (fst s')) (Game.bullets (fst s)).
Proof.
  destruct 1 as [s s' H | g w bs Hs | g w gr Hgr Hbr]; cbn [fst].
  - rewrite (hit_change_bullets B _ _ H). reflexivity.
  - exact Hs.
  - rewrite (enemy_breach_bullets g w gr Hgr Hbr). apply sublist_nil_l.
Qed.

Lemma rtc_change_bullets B s s' :
  rtc (change B) s s' -> sublist (Game.bullets (fst s')) (Game.bullets (fst s)).
Proof.
  induction 1 as [|s1 s2 s3 H _ IH]; [reflexivity|].
  etrans; [exact IH | exact (change_bullets B _ _ H)].
Qed.

Lemma any_points_known g : points_known (fun _ => True) g.
Proof.
  unfold points_known. destruct (Game.grid g); [| exact Logic.I].
  apply Forall_forall. intros e _. exact Logic.I.
Qed.

Lemma any_points_new (wave : Z) (w : World) :
  Forall (fun e => (fun _ : Z => True) (Enemy.points e))
         (EnemyGrid.enemies (fst (EnemyGrid.new wave w))).
Proof. apply Forall_forall. intros e _. exact Logic.I. Qed.

(** Collision resolution as a sequence of changes, nothing assumed of the
    points. *)
Lemma handle_collisions_changes dt g w :
  rtc (change (fun _ => True)) (g, w) (Game.handle_collisions dt g w).
Proof.
  exact (tr_handle_collisions (fun _ => True) Logic.I any_points_new dt g w
           (any_points_known g)).
Qed.

Lemma handle_collisions_sublist dt g w :
  sublist (Game.bullets (fst (Game.handle_collisions dt g w))) (Game.bullets g).
Proof. exact (rtc_change_bullets _ _ _ (handle_collisions_changes dt g w)). Qed.

Lemma update_after_boss_bullets dt g w :
  sublist (Game.bullets (fst (Game.update_after_boss dt g w))) (moved_bullets dt g).
Proof.
  rewrite update_after_boss_eq. cbv zeta.
  pose proof (handle_collisions_sublist dt (Game.set_bullets (moved_bullets dt g) g) w) as H.
  destruct (Game.handle_collisions dt _ w) as [g1 w1]. cbn [fst snd] in *.
  destruct (settle_shape dt g1) as (ps & m & t & ->).
  cbn [Game.grid Game.set_particles Game.set_shake_mag Game.set_shake_timer].
  destruct (Game.grid g1) as [gr|]; [| exact H].
  destruct (EnemyGrid.alive gr =? 0); [| exact H].
  rewrite next_wave_eq. apply sublist_nil_l.
Qed.

(** ** The caps on the bullets in flight *)

Lemma sublist_filter_mono {A} (P : A -> Prop) `{forall x, Decision (P x)} (l1 l2 : list A) :
  sublist l1 l2 -> sublist (filter P l1) (filter P l2).
Proof.
  induction 1 as [|x l1 l2 _ IH|x l1 l2 _ IH].
  - reflexivity.
  - rewrite !filter_cons. destruct (decide (P x)); [apply sublist_skip | ]; exact IH.
  - rewrite filter_cons. destruct (decide (P x)); [apply sublist_cons |]; exact IH.
Qed.

Lemma shots_sublist l1 l2 :
  sublist l1 l2 -> player_shots l1 <= player_shots l2 /\ enemy_shots l1 <= enemy_shots l2.
Proof.
  intros H. unfold player_shots, enemy_shots. split; apply inj_le, sublist_length,
    sublist_filter_mono, H.
Qed.

(** X12.  Collision resolution adds no bullet: the bullets after
    [handle_collisions] are bullets of before, in the same order, so there
    are no more player bullets and no more enemy bullets than before. *)
Theorem handle_collisions_bullets (dt : Q) (g : Game.t) (w : World) :
  let g' := fst (Game.handle_collisions dt g w) in
  sublist (Game.bullets g') (Game.bullets g)
  /\ (player_shots (Game.bullets g') <= player_shots (Game.bullets g)
      /\ enemy_shots (Game.bullets g') <= enemy_shots (Game.bullets g)).
Proof.
  intros g'. split; [apply handle_collisions_sublist|].
  apply shots_sublist, handle_collisions_sublist.
Qed.

Lemma moved_bullets_shots dt g :
  player_shots (moved_bullets dt g) <= player_shots (Game.bullets g)
  /\ enemy_shots (moved_bullets dt g) <= enemy_shots (Game.bullets g).
Proof.
  unfold moved_bullets, player_shots, enemy_shots.
  induction (Game.bullets g) as [|b l IH]; [split; reflexivity|].
  cbn [map]. rewrite !filter_cons.
  change (Bullet.is_player (Bullet.update dt b)) with (Bullet.is_player b).
  destruct (decide (Bullet.alive (Bullet.update dt b) = true));
    rewrite ?filter_cons;
    change (Bullet.is_player (Bullet.update dt b)) with (Bullet.is_player b);
    destruct (decide (Bullet.is_player b = true));
    destruct (decide (Bullet.is_player b = false)); cbn [length]; lia.
Qed.

Lemma try_enemy_shot_bullets bullets cap sound gr w :
  let bs := fst (EnemyGrid.try_enemy_shot bullets cap sound gr w) in
  bs = bullets
  \/ exists b, bs = bullets ++ [b] /\ Bullet.is_player b = false
               /\ enemy_shots bullets < cap.
Proof.
  unfold EnemyGrid.try_enemy_shot. fold (enemy_shots bullets).
  destruct (cap <=? enemy_shots bullets) eqn:Hc; [left; reflexivity|].
  apply Z.leb_gt in Hc. cbn [orb].
  destruct (EnemyGrid.alive gr =? 0); [left; reflexivity|].
  destruct (EnemyGrid.columns gr) as [| [k e0] cols]; [left; reflexivity |].
  unfold mbind, M_bind, mret, M_ret, random_random. cbn [rand_ix].
  destruct (Qltb _ _); [| left; reflexivity].
  unfold random_choice, random_below, random_random, mbind, M_bind, mret, M_ret.
  destruct (SoundManager.play _ _ _) as [u w1]. cbn [fst]. right.
  eexists. split; [reflexivity|]. split; [reflexivity | exact Hc].
Qed.

Lemma shots_app l1 l2 :
  player_shots (l1 ++ l2) = player_shots l1 + player_shots l2
  /\ enemy_shots (l1 ++ l2) = enemy_shots l1 + enemy_shots l2.
Proof.
  unfold player_shots, enemy_shots. rewrite !filter_app, !length_app. lia.
Qed.

Lemma update_player_and_grid_shots dt keys g w :
  let g' := fst (Game.update_player_and_grid dt keys g w) in
  player_shots (Game.bullets g') <= Z.max (player_shots (Game.bullets g)) PLAYER_MAX_BULLETS
  /\ enemy_shots (Game.bullets g') <= Z.max (enemy_shots (Game.bullets g)) ENEMY_MAX_BULLETS.
Proof.
  intros g'. subst g'. unfold Game.update_player_and_grid, mbind, M_bind, mret, M_ret.
  set (g1 := Game.set_player (Player.update dt keys (Game.player g)) g).
  change (Game.bullets g1) with (Game.bullets g).
  fold (player_shots (Game.bullets g)).
  set (r1 := if K_SPACE keys && Player.can_shoot (player_shots (Game.bullets g)) (Game.player g1)
             then _ else _).
  assert (H1 : Game.grid (fst (r1 w)) = Game.grid g
               /\ player_shots (Game.bullets (fst (r1 w)))
                  <= Z.max (player_shots (Game.bullets g)) PLAYER_MAX_BULLETS
               /\ enemy_shots (Game.bullets (fst (r1 w))) = enemy_shots (Game.bullets g)).
  { assert (Hsame : Game.grid g1 = Game.grid g
               /\ player_shots (Game.bullets g1)
                  <= Z.max (player_shots (Game.bullets g)) PLAYER_MAX_BULLETS
               /\ enemy_shots (Game.bullets g1) = enemy_shots (Game.bullets g))
      by (split; [reflexivity | split; [cbn [Game.bullets g1 Game.set_player]; lia | reflexivity]]).
    subst r1. destruct (K_SPACE keys); cbn [andb]; [| exact Hsame].
    unfold Player.can_shoot.
    destruct (Qleb _ _); cbn [andb]; [| exact Hsame].
    destruct (player_shots (Game.bullets g) <? PLAYER_MAX_BULLETS) eqn:Hc;
      [| exact Hsame].
    apply Z.ltb_lt in Hc. unfold Player.shoot.
    destruct (SoundManager.play _ _ w) as [u w1]. cbn [fst Game.bullets Game.set_bullets Game.grid
      Game.set_player].
    destruct (shots_app (Game.bullets g)
                [Bullet.new (centerx (Player.rect (Game.player g1)))
                   (top (Player.rect (Game.player g1)) - 6) PLAYER_BULLET_SPEED 1 true])
      as [-> ->].
    split; [reflexivity|]. split.
    - change (player_shots [_]) with 1. lia.
    - change (enemy_shots [_]) with 0. lia. }
  destruct (r1 w) as [g2 w2]. cbn [fst] in H1. destruct H1 as (Hg & Hp & He).
  destruct (Game.grid g2) as [gr|]; [| cbn [fst]; lia].
  pose proof (try_enemy_shot_bullets (Game.bullets g2) ENEMY_MAX_BULLETS (Game.sound g2)
                (EnemyGrid.update dt gr) w2) as Hs.
  destruct (EnemyGrid.try_enemy_shot _ _ _ _ w2) as [bs w3]. cbn [fst] in *.
  cbn [Game.bullets Game.set_bullets].
  destruct Hs as [-> | (b & -> & Hb & Hc)]; [lia|].
  destruct (shots_app (Game.bullets g2) [b]) as [-> ->].
  unfold player_shots at 2, enemy_shots at 2. rewrite !filter_cons, !filter_nil.
  rewrite Hb. cbn [length]. 
  destruct (decide (false = true)) as [E|_]; [discriminate E|].
  destruct (decide (false = false)) as [_|E]; [| congruence]. cbn [length].
  lia.
Qed.

Lemma update_boss_fields dt g w :
  exists bo t, fst (Game.update_boss dt g w) = Game.set_boss bo (Game.set_next_boss_time t g)
    /\ (bo = None \/ exists b, bo = Some b /\ Boss.alive b = true
                               /\ left (Boss.rect b) <= WIDTH + 40).
Proof.
  unfold Game.update_boss, mbind, M_bind, mret, M_ret.
  set (g0 := Game.set_next_boss_time (Game.next_boss_time g - dt) g).
  set (r := if _ && _ && _ then _ else _).
  assert (Hr : exists bo t, fst (r w) = Game.set_boss bo (Game.set_next_boss_time t g)).
  { subst r. destruct (_ && _ && _).
    - unfold mbind, M_bind, mret, M_ret. destruct (Game._rand_boss_timer w) as [nbt w1].
      eexists _, _. reflexivity.
    - exists (Game.boss g), (Game.next_boss_time g - dt)%Q. subst g0.
      destruct g; reflexivity. }
  destruct (r w) as [g1 w1]. cbn [fst] in Hr. destruct Hr as (bo & t & ->).
  cbn [Game.boss Game.set_boss]. destruct bo as [b|].
  - destruct (Boss.alive (Boss.update dt b)) eqn:Ha.
    + exists (Some (Boss.update dt b)), t. split; [reflexivity|]. right.
      exists (Boss.update dt b). split; [reflexivity|]. split; [exact Ha|].
      unfold Boss.update in Ha |- *. cbn [Boss.alive Boss.rect] in *.
      destruct (WIDTH + 40 <? left _) eqn:E; [discriminate Ha|].
      apply Z.ltb_ge in E. exact E.
    + exists None, t. split; [reflexivity | left; reflexivity].
  - exists None, t. split; [reflexivity | left; reflexivity].
Qed.

Lemma update_game_shots (dt : Q) (keys : Keys) (g : Game.t) (w : World) :
  player_shots (Game.bullets g) <= PLAYER_MAX_BULLETS ->
  enemy_shots (Game.bullets g) <= ENEMY_MAX_BULLETS ->
  let g' := fst (Game.update_game dt keys g w) in
  player_shots (Game.bullets g') <= PLAYER_MAX_BULLETS
  /\ enemy_shots (Game.bullets g') <= ENEMY_MAX_BULLETS.
Proof.
  intros Hp He g'. subst g'. unfold Game.update_game, mbind, M_bind.
  pose proof (update_player_and_grid_shots dt keys g w) as H1.
  destruct (Game.update_player_and_grid dt keys g w) as [g1 w1]. cbn [fst] in H1.
  destruct (update_boss_fields dt g1 w1) as (bo & t & H2 & _).
  destruct (Game.update_boss dt g1 w1) as [g2 w2]. cbn [fst] in H2.
  pose proof (update_after_boss_bullets dt g2 w2) as H3.
  apply shots_sublist in H3.
  pose proof (moved_bullets_shots dt g2) as H4.
  assert (Hb : Game.bullets g2 = Game.bullets g1) by (rewrite H2; reflexivity).
  rewrite Hb in H4. lia.
Qed.

(** X13.  The caps on the bullets in flight.  When the list holds at most
    PLAYER_MAX_BULLETS player bullets and at most ENEMY_MAX_BULLETS enemy
    bullets, so it does after a frame of [update_game], whatever the time
    step, the keys and the draws. *)
Theorem bullet_caps (dt : Q) (keys : Keys) (g : Game.t) (w : World) :
  player_shots (Game.bullets g) <= PLAYER_MAX_BULLETS ->
  enemy_shots (Game.bullets g) <= ENEMY_MAX_BULLETS ->
  let g' := fst (Game.update_game dt keys g w) in
  player_shots (Game.bullets g') <= PLAYER_MAX_BULLETS
  /\ enemy_shots (Game.bullets g') <= ENEMY_MAX_BULLETS.
Proof. exact (update_game_shots dt keys g w). Qed.

Lemma rtc_inv {A} (R : relation A) (I : A -> Prop) :
  (forall s s', R s s' -> I s -> I s') -> forall s s', rtc R s s' -> I s -> I s'.
Proof.
  intros HR s s' H. induction H as [|s1 s2 s3 H _ IH]; [intros H; exact H|].
  intros H1. apply IH. exact (HR _ _ H H1).
Qed.

Lemma Player_hit_cases (godmode : bool) (p : Player.t) :
  (Player.hit godmode p = (p, false)
   /\ (godmode = true \/ (0 < Player.invuln_timer p)%Q))
  \/ (Player.hit godmode p
      = (Player.mk (Player.rect p) (Player.speed p) (Player.shoot_cd p)
                   (Player.shoot_timer p) (Player.lives p - 1) (3 # 2), true)
      /\ godmode = false /\ ~ (0 < Player.invuln_timer p)%Q).
Proof.
  unfold Player.hit. destruct (Qltb 0 (Player.invuln_timer p)) eqn:E.
  - left. split; [reflexivity|]. right. apply Qltb_lt. exact E.
  - destruct godmode.
    + left. split; [reflexivity | left; reflexivity].
    + right. split; [reflexivity|]. split; [reflexivity|].
      apply Qltb_ge in E. apply Qle_not_lt. exact E.
Qed.

(** The shape of the state after an enemy bullet has struck the player. *)
Lemma player_hit_shape (g : Game.t) (w : World) (amount : Q) :
  let hit := Player.hit (GODMODE w) (Game.player g) in
  let g1 := Game.set_player (fst hit) g in
  let g1 := if snd hit then Game.shake amount g1 else g1 in
  let r := if (Player.lives (fst hit) <=? 0) && negb (GODMODE w)
           then Game.game_over g1 w else (g1, w) in
  exists p sc hs j m t,
    fst r = Game.set_scene sc
              (Game.set_highscores hs
                 (Game.set_just_made_highscore j
                    (Game.set_shake_mag m (Game.set_shake_timer t (Game.set_player p g)))))
    /\ hit_outcome (GODMODE w) (Game.player g) p (Game.scene g) sc
    /\ GODMODE (snd r) = GODMODE w.
Proof.
  intros hit g1 g2 r.
  assert (Hg2 : exists m t, g2 = Game.set_shake_mag m
                                   (Game.set_shake_timer t (Game.set_player (fst hit) g))).
  { subst g2 g1. destruct (snd hit).
    - eexists _, _. reflexivity.
    - exists (Game.shake_mag g), (Game.shake_timer g). destruct g; reflexivity. }
  destruct Hg2 as (m & t & Hg2).
  assert (Hhit : (fst hit = Game.player g
                  /\ (GODMODE w = true \/ (0 < Player.invuln_timer (Game.player g))%Q))
                 \/ (GODMODE w = false /\ ~ (0 < Player.invuln_timer (Game.player g))%Q
                     /\ fst hit = Player.mk (Player.rect (Game.player g))
                                    (Player.speed (Game.player g))
                                    (Player.shoot_cd (Game.player g))
                                    (Player.shoot_timer (Game.player g))
                                    (Player.lives (Game.player g) - 1) (3 # 2))).
  { subst hit. destruct (Player_hit_cases (GODMODE w) (Game.player g)) as [[-> H]|(-> & H1 & H2)].
    - left. split; [reflexivity | exact H].
    - right. split; [exact H1|]. split; [exact H2 | reflexivity]. }
  subst r. destruct ((Player.lives (fst hit) <=? 0) && negb (GODMODE w)) eqn:Hc.
  - apply andb_true_iff in Hc as [Hc1 Hc2]. apply Z.leb_le in Hc1.
    apply negb_true_iff in Hc2.
    destruct (game_over_fields g2 w) as (hs & j & Hgo).
    exists (fst hit), SCENE_GAME_OVER, hs, j, m, t. rewrite Hgo, Hg2.
    split; [reflexivity|]. split; [| apply game_over_GODMODE].
    split; [exact Hhit|]. right. split; [reflexivity|]. split; assumption.
  - exists (fst hit), (Game.scene g), (Game.highscores g), (Game.just_made_highscore g), m, t.
    cbn [fst snd]. rewrite Hg2. split; [destruct g; reflexivity|].
    split; [| reflexivity]. split; [exact Hhit|]. left. split; [reflexivity|].
    intros [H1 H2]. apply andb_false_iff in Hc as [Hc|Hc].
    + apply Z.leb_gt in Hc. lia.
    + rewrite H2 in Hc. discriminate Hc.
Qed.

(** The shape of the state after the breach penalty. *)
Lemma enemy_breach_shape (g : Game.t) (w : World) (gr : EnemyGrid.t) :
  Game.grid g = Some gr ->
  Exists (breach (Game.player g)) (EnemyGrid.enemies gr) ->
  let r := Game.enemy_breach g w in
  exists p sc hs j m t,
    fst r = Game.set_scene sc
              (Game.set_highscores hs
                 (Game.set_just_made_highscore j
                    (Game.set_shake_mag m
                       (Game.set_shake_timer t
                          (Game.set_player (Player.reset_position p)
                             (Game.set_bullets []
                                (Game.set_grid
                                   (Some (fst (EnemyGrid.new (Z.max 1 (Game.wave g)) w)))
                                   g)))))))
    /\ hit_outcome (GODMODE w) (Game.player g) p (Game.scene g) sc
    /\ GODMODE (snd r) = GODMODE w.
Proof.
  intros Hgr Hbr r. subst r. rewrite (enemy_breach_eq g w gr Hgr Hbr). cbv zeta.
  pose proof (advances_GODMODE _ _ (EnemyGrid_new_advances (Z.max 1 (Game.wave g)) w)) as Ha.
  revert Ha. generalize (EnemyGrid.new (Z.max 1 (Game.wave g)) w). intros [gr' w1] Ha.
  cbn [fst snd] in *.
  pose proof (Player_hit_cases (GODMODE w) (Game.player g)) as Hhit.
  revert Hhit. generalize (Player.hit (GODMODE w) (Game.player g)). intros [p damaged] Hhit.
  cbn [fst snd] in *.
  assert (Hg0 : exists m t, (if damaged then Game.shake 12 g else g)
                            = Game.set_shake_mag m (Game.set_shake_timer t g)).
  { destruct damaged.
    - eexists _, _. reflexivity.
    - exists (Game.shake_mag g), (Game.shake_timer g). destruct g; reflexivity. }
  destruct Hg0 as (m & t & Hg0). rewrite Hg0. clear Hg0.
  assert (Hhit' : (p = Game.player g
                  /\ (GODMODE w = true \/ (0 < Player.invuln_timer (Game.player g))%Q))
                 \/ (GODMODE w = false /\ ~ (0 < Player.invuln_timer (Game.player g))%Q
                     /\ p = Player.mk (Player.rect (Game.player g))
                                    (Player.speed (Game.player g))
                                    (Player.shoot_cd (Game.player g))
                                    (Player.shoot_timer (Game.player g))
                                    (Player.lives (Game.player g) - 1) (3 # 2))).
  { destruct Hhit as [[E H]|(E & H1 & H2)]; injection E as -> _.
    - left. split; [reflexivity | exact H].
    - right. split; [exact H1|]. split; [exact H2 | reflexivity]. }
  clear Hhit.
  destruct ((Player.lives p <=? 0) && negb (GODMODE w)) eqn:Hc.
  - apply andb_true_iff in Hc as [Hc1 Hc2]. apply Z.leb_le in Hc1.
    apply negb_true_iff in Hc2.
    match goal with |- context [Game.game_over ?g1 ?w1] =>
      destruct (game_over_fields g1 w1) as (hs & j & Hgo);
      pose proof (game_over_GODMODE g1 w1) as Hgm;
      revert Hgo Hgm; generalize (Game.game_over g1 w1) end.
    intros [g2 w2] Hgo Hgm. cbn [fst snd] in *.
    exists p, SCENE_GAME_OVER, hs, j, m, t.
    split; [exact Hgo|]. split; [| rewrite Hgm; exact Ha].
    split; [exact Hhit'|]. right. split; [reflexivity|]. split; assumption.
  - exists p, (Game.scene g), (Game.highscores g), (Game.just_made_highscore g), m, t.
    cbn [fst snd]. split; [clear; destruct g; reflexivity|].
    split; [| exact Ha]. split; [exact Hhit'|]. left. split; [reflexivity|].
    intros [H1 H2]. apply andb_false_iff in Hc as [Hc|Hc].
    + apply Z.leb_gt in Hc. lia.
    + rewrite H2 in Hc. discriminate Hc.
Qed.

Lemma update_player_and_grid_shape dt keys g w :
  let r := Game.update_player_and_grid dt keys g w in
  exists p bs,
    fst r = Game.set_bullets bs
              (Game.set_grid (EnemyGrid.update dt <$> Game.grid g) (Game.set_player p g))
    /\ Player.lives p = Player.lives (Game.player g)
    /\ GODMODE (snd r) = GODMODE w.
Proof.
  intros r.
  assert (Hw : GODMODE (snd r) = GODMODE w).
  { apply advances_GODMODE. apply (update_player_and_grid_fields dt keys g w). }
  subst r. revert Hw. unfold Game.update_player_and_grid, mbind, M_bind, mret, M_ret.
  set (g1 := Game.set_player (Player.update dt keys (Game.player g)) g).
  set (r1 := if K_SPACE keys && _ then _ else _).
  assert (H1 : exists p bs, fst (r1 w) = Game.set_bullets bs (Game.set_player p g)
                            /\ Player.lives p = Player.lives (Game.player g)).
  { subst r1. destruct (K_SPACE keys && _).
    - unfold Player.shoot. destruct (SoundManager.play _ _ w) as [u w1].
      eexists _, _. split; [reflexivity | reflexivity].
    - exists (Player.update dt keys (Game.player g)), (Game.bullets g).
      split; [subst g1; destruct g; reflexivity | reflexivity]. }
  destruct (r1 w) as [g2 w2]. cbn [fst] in H1. destruct H1 as (p & bs & -> & Hl).
  cbn [Game.grid Game.set_bullets Game.set_player].
  destruct (Game.grid g) as [gr|] eqn:Hgr.
  - destruct (EnemyGrid.try_enemy_shot _ _ _ _ w2) as [bs' w3]. cbn [fst snd].
    intros Hw. exists p, bs'. split; [reflexivity|]. split; assumption.
  - cbn [fst snd]. intros Hw. exists p, bs. split; [| split; assumption].
    cbn [fmap option_fmap option_map]. revert Hgr. destruct g; cbn. intros ->. reflexivity.
Qed.

(** ** Invariants of the last part of a frame *)

Section FrameTail.
Variable B : Z -> Prop.
Hypothesis B_boss : B 100.
Hypothesis B_new : forall wave w,
  Forall (fun e => B (Enemy.points e)) (EnemyGrid.enemies (fst (EnemyGrid.new wave w))).
Variable I : Game.t * World -> Prop.
Hypothesis I_change : forall s s', change B s s' -> I s -> I s'.
Hypothesis I_settle : forall g w ps m t,
  I (g, w) -> I (Game.set_particles ps (Game.set_shake_mag m (Game.set_shake_timer t g)), w).
Hypothesis I_next_wave : forall g w gr,
  I (g, w) -> Game.grid g = Some gr -> EnemyGrid.alive gr = 0 -> I (Game._next_wave g w).

Lemma handle_collisions_inv dt g w :
  points_known B g -> I (g, w) -> I (Game.handle_collisions dt g w).
Proof.
  intros Hp. apply (rtc_inv (change B) I I_change).
  apply (tr_handle_collisions B B_boss B_new dt g w Hp).
Qed.

Lemma update_after_boss_inv dt g w :
  points_known B g ->
  I (Game.set_bullets (moved_bullets dt g) g, w) ->
  I (Game.update_after_boss dt g w).
Proof.
  intros Hp H. rewrite update_after_boss_eq. cbv zeta.
  pose proof (handle_collisions_inv dt (Game.set_bullets (moved_bullets dt g) g) w Hp H) as H1.
  revert H1. generalize (Game.handle_collisions dt (Game.set_bullets (moved_bullets dt g) g) w).
  intros [g1 w1] H1. cbn [fst snd].
  destruct (settle_shape dt g1) as (ps & m & t & ->).
  pose proof (I_settle g1 w1 ps m t H1) as H2.
  destruct (Game.grid _) as [gr|] eqn:Hgr; [| exact H2].
  destruct (EnemyGrid.alive gr =? 0) eqn:Ha; [| exact H2].
  apply Z.eqb_eq in Ha. exact (I_next_wave _ _ gr H2 Hgr Ha).
Qed.
End FrameTail.

(** ** The enemies on the grid *)

Lemma EnemyGrid_new_ok (wave : Z) (w : World) :
  Forall enemy_ok (EnemyGrid.enemies (fst (EnemyGrid.new wave w))).
Proof.
  unfold EnemyGrid.new, mbind, M_bind, mret, M_ret.
  pose proof (mapM_Forall EnemyGrid.new_enemy enemy_ok (fun _ => True) EnemyGrid.cells w) as H.
  destruct (mapM EnemyGrid.new_enemy EnemyGrid.cells w) as [es w1]. cbn [fst] in *.
  apply H; [| exact Logic.I]. intros [row col] w0 _. split; [| exact Logic.I].
  unfold EnemyGrid.new_enemy, random_random, mbind, M_bind, mret, M_ret. cbn [fst].
  destruct (Qltb _ _); [split; reflexivity|]. destruct (Qltb _ _); split; reflexivity.
Qed.

Lemma positive_points_new (wave : Z) (w : World) :
  Forall (fun e => (fun b : Z => 0 <= b) (Enemy.points e))
         (EnemyGrid.enemies (fst (EnemyGrid.new wave w))).
Proof.
  eapply Forall_impl; [apply EnemyGrid_new_ok|]. intros e [_ H]. cbv beta. lia.
Qed.

Lemma grid_ok_points g : grid_ok g -> points_known (fun b => 0 <= b) g.
Proof.
  unfold grid_ok, points_known. destruct (Game.grid g); [| intros H; exact H].
  intros H. eapply Forall_impl; [exact H|]. intros e [_ H1]. lia.
Qed.

Lemma hit_change_grid_ok B s s' : hit_change B s s' -> grid_ok (fst s) -> grid_ok (fst s').
Proof.
  destruct 1 as [g w w' _ | g w b | g w base _ | g w ps | g w
                 | g w gr b es e dead Hgr Hhit | g w amount]; cbn [fst];
    try (intros H; exact H).
  - pose proof (score_add_frame base g w) as H.
    destruct (Game.score_add base g w) as [g' w']. destruct H as [_ ->].
    intros H; exact H.
  - unfold grid_ok. rewrite Hgr. cbn [Game.grid Game.set_grid EnemyGrid.enemies
      EnemyGrid.set_enemies].
    apply (hit_enemies_Forall b _ _ _ _ _ Hhit). intros e0 [H0 H1] Hhp.
    split; [exact Hhp | exact H1].
  - destruct (player_hit_shape g w amount) as (p & sc & hs & j & m & t & -> & _).
    intros H; exact H.
Qed.

Lemma change_grid_ok B s s' : change B s s' -> grid_ok (fst s) -> grid_ok (fst s').
Proof.
  destruct 1 as [s s' H | g w bs _ | g w gr Hgr Hbr]; cbn [fst].
  - exact (hit_change_grid_ok B _ _ H).
  - intros H; exact H.
  - intros _. destruct (enemy_breach_shape g w gr Hgr Hbr)
      as (p & sc & hs & j & m & t & -> & _).
    unfold grid_ok. cbn [Game.grid Game.set_scene Game.set_highscores
      Game.set_just_made_highscore Game.set_shake_mag Game.set_shake_timer Game.set_player
      Game.set_bullets Game.set_grid]. apply EnemyGrid_new_ok.
Qed.

Lemma EnemyGrid_update_ok dt gr :
  Forall enemy_ok (EnemyGrid.enemies gr) ->
  Forall enemy_ok (EnemyGrid.enemies (EnemyGrid.update dt gr)).
Proof.
  intros H. unfold EnemyGrid.update.
  set (dx := py_int _).
  assert (H1 : Forall enemy_ok (map (EnemyGrid.march dx dt) (EnemyGrid.enemies gr))).
  { apply Forall_fmap. eapply Forall_impl; [exact H|]. intros e He. exact He. }
  destruct (EnemyGrid.hit_edge _); [| exact H1].
  cbn [EnemyGrid.enemies EnemyGrid.set_enemies].
  apply Forall_fmap. eapply Forall_impl; [exact H1|]. intros e He. exact He.
Qed.

Lemma grid_ok_next_wave g w : grid_ok (fst (Game._next_wave g w)).
Proof. rewrite next_wave_eq. unfold grid_ok. cbn. apply EnemyGrid_new_ok. Qed.

Lemma grid_ok_update_game dt keys g w :
  grid_ok g -> grid_ok (fst (Game.update_game dt keys g w)).
Proof.
  intros H. unfold Game.update_game, mbind, M_bind.
  destruct (update_player_and_grid_shape dt keys g w) as (p & bs & H1 & _).
  revert H1. generalize (Game.update_player_and_grid dt keys g w). intros [g1 w1] H1.
  cbn [fst] in H1.
  destruct (update_boss_fields dt g1 w1) as (bo & t & H2 & _).
  revert H2. generalize (Game.update_boss dt g1 w1). intros [g2 w2] H2. cbn [fst] in H2.
  assert (Hg2 : grid_ok g2).
  { rewrite H2, H1. unfold grid_ok in *. cbn [Game.grid Game.set_boss Game.set_next_boss_time
      Game.set_bullets Game.set_grid].
    destruct (Game.grid g) as [gr|]; [| exact Logic.I]. cbn [fmap option_fmap option_map].
    apply EnemyGrid_update_ok, H. }
  apply (update_after_boss_inv (fun _ => True) Logic.I any_points_new
           (fun s => grid_ok (fst s))).
  - intros s s' Hc. exact (change_grid_ok _ _ _ Hc).
  - intros g0 w0 ps m t0 H0. exact H0.
  - intros g0 w0 gr _ _ _. apply grid_ok_next_wave.
  - apply any_points_known.
  - exact Hg2.
Qed.

Lemma grid_ok_start_new_game reset g w : grid_ok (fst (Game._start_new_game reset g w)).
Proof.
  unfold Game._start_new_game, mbind, M_bind, mret, M_ret.
  match goal with |- context [EnemyGrid.new ?wv w] =>
    pose proof (EnemyGrid_new_ok wv w) as H; revert H;
    generalize (EnemyGrid.new wv w) end.
  intros [gr w1] H. destruct (Game._rand_boss_timer w1) as [nbt w2]. exact H.
Qed.

(** X14.  Every enemy on the grid has hit points left and is worth
    points.  This holds of the grid of a new game and of the game
    [Game.__init__] sets up, and a frame of [update_game] keeps it: an enemy
    whose hit points are used up leaves the grid in the step that strikes
    it. *)
Theorem enemies_have_hit_points :
  (forall reset g w, grid_ok (fst (Game._start_new_game reset g w)))
  /\ (forall mixer_ok w, grid_ok (fst (Game.new mixer_ok w)))
  /\ (forall dt keys g w, grid_ok g -> grid_ok (fst (Game.update_game dt keys g w))).
Proof.
  split; [exact grid_ok_start_new_game|]. split; [| exact grid_ok_update_game].
  intros mixer_ok w. unfold Game.new, mbind, M_bind.
  destruct (Game._rand_boss_timer w) as [nbt w1]. destruct (load_highscores w1) as [hs w2].
  apply grid_ok_start_new_game.
Qed.

(** ** The score *)

Lemma py_round_nonneg (x : Q) : (0 <= x)%Q -> 0 <= py_round x.
Proof.
  intros Hx. unfold py_round.
  assert (Hf : 0 <= Qfloor x).
  { change 0 with (Qfloor 0). apply Qfloor_resp_le. exact Hx. }
  destruct (Qcompare _ _); [destruct (Z.even _) | |]; lia.
Qed.

Lemma score_add_mono base g w :
  0 <= base -> (0 <= Game.combo_mult g)%Q ->
  Game.score g <= Game.score (fst (Game.score_add base g w))
  /\ (0 <= Game.combo_mult (fst (Game.score_add base g w)))%Q.
Proof.
  intros Hb Hc. unfold Game.score_add, time_time, mbind, M_bind, mret, M_ret.
  cbn [fst snd].
  assert (Hpts : forall c : Q, (0 <= c)%Q -> 0 <= py_round (inject_Z base * (1 + c))).
  { intros c Hc0. apply py_round_nonneg. apply Qmult_le_0_compat.
    - change 0%Q with (inject_Z 0). rewrite <- Zle_Qle. exact Hb.
    - lra. }
  destruct (Qleb _ _); cbn [Game.score Game.combo_mult Game.set_score Game.set_combo_mult
                            Game.set_last_kill_time].
  - assert (H0 : (0 <= Game.combo_mult g + COMBO_STEP)%Q) by (unfold COMBO_STEP; lra).
    specialize (Hpts _ H0). split; [lia | exact H0].
  - specialize (Hpts 0%Q ltac:(lra)). split; [lia | lra].
Qed.

Section Score.
Variable S0 : Z.

Local Abbreviation score_inv :=
  (fun s : Game.t * World =>
     S0 <= Game.score (fst s) /\ (0 <= Game.combo_mult (fst s))%Q).

Lemma hit_change_score s s' :
  hit_change (fun b => 0 <= b) s s' -> score_inv s -> score_inv s'.
Proof.
  destruct 1 as [g w w' _ | g w b | g w base Hb | g w ps | g w
                 | g w gr b es e dead Hgr Hhit | g w amount]; cbn [fst];
    try (intros H; exact H).
  - intros [H1 H2]. destruct (score_add_mono base g w Hb H2) as [H3 H4].
    split; [lia | exact H4].
  - destruct (player_hit_shape g w amount) as (p & sc & hs & j & m & t & -> & _).
    intros H; exact H.
Qed.

Lemma change_score s s' :
  change (fun b => 0 <= b) s s' -> score_inv s -> score_inv s'.
Proof.
  destruct 1 as [s s' H | g w bs _ | g w gr Hgr Hbr]; cbn [fst].
  - exact (hit_change_score _ _ H).
  - intros H; exact H.
  - destruct (enemy_breach_shape g w gr Hgr Hbr) as (p & sc & hs & j & m & t & -> & _).
    intros H; exact H.
Qed.
End Score.

Lemma score_update_game dt keys g w :
  grid_ok g -> (0 <= Game.combo_mult g)%Q ->
  Game.score g <= Game.score (fst (Game.update_game dt keys g w))
  /\ (0 <= Game.combo_mult (fst (Game.update_game dt keys g w)))%Q.
Proof.
  intros Hg Hc. unfold Game.update_game, mbind, M_bind.
  destruct (update_player_and_grid_shape dt keys g w) as (p & bs & H1 & _).
  assert (Hg1 : grid_ok (fst (Game.update_player_and_grid dt keys g w))).
  { rewrite H1. unfold grid_ok in *. cbn [Game.grid Game.set_bullets Game.set_grid].
    destruct (Game.grid g) as [gr|]; [| exact Logic.I]. cbn [fmap option_fmap option_map].
    apply EnemyGrid_update_ok, Hg. }
  revert H1 Hg1. generalize (Game.update_player_and_grid dt keys g w). intros [g1 w1] H1 Hg1.
  cbn [fst] in H1, Hg1.
  destruct (update_boss_fields dt g1 w1) as (bo & t & H2 & _).
  revert H2. generalize (Game.update_boss dt g1 w1). intros [g2 w2] H2. cbn [fst] in H2.
  assert (Hboss : 0 <= 100) by lia.
  apply (update_after_boss_inv (fun b => 0 <= b) Hboss positive_points_new
           (fun s => Game.score g <= Game.score (fst s)
                     /\ (0 <= Game.combo_mult (fst s))%Q)).
  - intros s s' Hch. exact (change_score (Game.score g) _ _ Hch).
  - intros g0 w0 ps m t0 H0. exact H0.
  - intros g0 w0 gr H0 _ _. rewrite next_wave_eq. exact H0.
  - apply grid_ok_points. rewrite H2. exact Hg1.
  - rewrite H2, H1. cbn. split; [lia | exact Hc].
Qed.

(** X15.  The score never goes down.  When every enemy on the grid is
    worth points and the combo multiplier is not negative, the score after a
    frame of [update_game] is at least the score before, and the multiplier
    is not negative. *)
Theorem score_never_drops (dt : Q) (keys : Keys) (g : Game.t) (w : World) :
  grid_ok g -> (0 <= Game.combo_mult g)%Q ->
  let g' := fst (Game.update_game dt keys g w) in
  Game.score g <= Game.score g' /\ (0 <= Game.combo_mult g')%Q /\ grid_ok g'.
Proof.
  intros Hg Hc g'. destruct (score_update_game dt keys g w Hg Hc) as [H1 H2].
  split; [exact H1|]. split; [exact H2|]. apply grid_ok_update_game, Hg.
Qed.

(** ** Lives and the end of the game *)

Lemma update_boss_advances dt g w : advances w (snd (Game.update_boss dt g w)).
Proof.
  unfold Game.update_boss, mbind, M_bind, mret, M_ret.
  destruct (_ && _ && _).
  - unfold mbind, M_bind, mret, M_ret.
    pose proof (rand_boss_timer_advances w) as Ha.
    destruct (Game._rand_boss_timer w) as [nbt w1]. cbn [snd] in Ha.
    cbn [Game.boss Game.set_next_boss_time Game.set_boss]. exact Ha.
  - destruct (Game.boss _); apply advances_refl.
Qed.

Lemma score_add_GODMODE base g w : GODMODE (snd (Game.score_add base g w)) = GODMODE w.
Proof.
  pose proof (score_add_frame base g w) as H.
  destruct (Game.score_add base g w) as [g' w']. destruct H as [-> _]. reflexivity.
Qed.

Lemma hit_change_GODMODE B s s' : hit_change B s s' -> GODMODE (snd s') = GODMODE (snd s).
Proof.
  destruct 1 as [g w w' Ha | g w b | g w base _ | g w ps | g w
                 | g w gr b es e dead Hgr Hhit | g w amount]; cbn [snd]; try reflexivity.
  - apply advances_GODMODE, Ha.
  - destruct (player_hit_shape g w amount) as (p & sc & hs & j & m & t & _ & _ & H).
    exact H.
Qed.

Lemma change_GODMODE B s s' : change B s s' -> GODMODE (snd s') = GODMODE (snd s).
Proof.
  destruct 1 as [s s' H | g w bs _ | g w gr Hgr Hbr]; cbn [snd].
  - exact (hit_change_GODMODE B _ _ H).
  - reflexivity.
  - destruct (enemy_breach_shape g w gr Hgr Hbr) as (p & sc & hs & j & m & t & _ & _ & H).
    exact H.
Qed.

Lemma next_wave_GODMODE g w : GODMODE (snd (Game._next_wave g w)) = GODMODE w.
Proof.
  unfold Game._next_wave, mbind, M_bind, mret, M_ret.
  pose proof (advances_GODMODE _ _
                (EnemyGrid_new_advances (Game.wave (Game.set_wave (Game.wave g + 1) g)) w))
    as H.
  revert H. generalize (EnemyGrid.new (Game.wave (Game.set_wave (Game.wave g + 1) g)) w).
  intros [gr w1] H. exact H.
Qed.

Lemma update_game_GODMODE dt keys g w :
  GODMODE (snd (Game.update_game dt keys g w)) = GODMODE w.
Proof.
  unfold Game.update_game, mbind, M_bind.
  destruct (update_player_and_grid_shape dt keys g w) as (p & bs & _ & _ & H1).
  revert H1. generalize (Game.update_player_and_grid dt keys g w). intros [g1 w1] H1.
  cbn [snd] in H1.
  pose proof (advances_GODMODE _ _ (update_boss_advances dt g1 w1)) as H2.
  revert H2. generalize (Game.update_boss dt g1 w1). intros [g2 w2] H2. cbn [snd] in H2.
  rewrite <- H1, <- H2.
  apply (update_after_boss_inv (fun _ => True) Logic.I any_points_new
           (fun s => GODMODE (snd s) = GODMODE w2)).
  - intros s s' Hch Hs. rewrite (change_GODMODE _ _ _ Hch). exact Hs.
  - intros g0 w0 ps m t0 H0. exact H0.
  - intros g0 w0 gr H0 _ _. rewrite next_wave_GODMODE. exact H0.
  - apply any_points_known.
  - reflexivity.
Qed.

Section Lives.
Variables (gm : bool) (L : Z) (sc : Scene).
Hypothesis Hpos : gm = false -> 0 < L.

(** Either nothing has happened to the lives and the scene, or one life is
    gone, the player is invulnerable and the scene tells whether a life is
    left. *)
Local Abbreviation standing :=
  (fun (p : Player.t) (c : Scene) =>
     (Player.lives p = L /\ c = sc)
     \/ (gm = false /\ Player.lives p = L - 1 /\ (0 < Player.invuln_timer p)%Q
         /\ c = if L - 1 <=? 0 then SCENE_GAME_OVER else sc)).

Local Abbreviation lives_inv :=
  (fun s : Game.t * World =>
     GODMODE (snd s) = gm /\ standing (Game.player (fst s)) (Game.scene (fst s))).

Lemma hit_outcome_standing p p' c c' :
  hit_outcome gm p p' c c' -> standing p c ->
  standing p' c' /\ standing (Player.reset_position p') c'.
Proof.
  intros [Hp Hc] Hs.
  assert (H : standing p' c').
  { destruct Hs as [[Hl Hsc] | (Hg & Hl & Hi & Hsc)].
    - destruct Hp as [[-> _] | (Hg & Hi & ->)].
      + destruct Hc as [[-> _] | (-> & Hl0 & Hg)].
        * left. split; assumption.
        * specialize (Hpos Hg). lia.
      + cbn [Player.lives] in Hc. right. split; [exact Hg|]. split; [cbn; lia|].
        split; [reflexivity|]. rewrite Hl in Hc.
        destruct Hc as [[-> Hn] | (-> & Hl0 & _)].
        * destruct (L - 1 <=? 0) eqn:E; [| exact Hsc].
          apply Z.leb_le in E. exfalso. apply Hn. split; assumption.
        * destruct (L - 1 <=? 0) eqn:E; [reflexivity|]. apply Z.leb_gt in E. lia.
    - destruct Hp as [[-> _] | (_ & Hi' & _)]; [| exfalso; exact (Hi' Hi)].
      right. split; [exact Hg|]. split; [exact Hl|]. split; [exact Hi|].
      destruct Hc as [[-> _] | (-> & Hl0 & _)]; [exact Hsc|].
      rewrite Hl in Hl0. destruct (L - 1 <=? 0) eqn:E; [reflexivity|].
      apply Z.leb_gt in E. lia. }
  split; [exact H | exact H].
Qed.

Lemma hit_change_lives B s s' : hit_change B s s' -> lives_inv s -> lives_inv s'.
Proof.
  intros Hch. pose proof (hit_change_GODMODE B _ _ Hch) as Hgm. revert Hgm.
  destruct Hch as [g w w' Ha | g w b | g w base _ | g w ps | g w
                 | g w gr b es e dead Hgr Hhit | g w amount]; cbn [fst snd];
    intros Hgm [H1 H2]; (split; [exact (eq_trans Hgm H1)|]); try exact H2.
  - pose proof (score_add_frame base g w) as H.
    destruct (Game.score_add base g w) as [g' w']. destruct H as [_ ->]. exact H2.
  - destruct (player_hit_shape g w amount) as (p & c & hs & j & m & t & -> & Ho & _).
    rewrite H1 in Ho. exact (proj1 (hit_outcome_standing _ _ _ _ Ho H2)).
Qed.

Lemma change_lives B s s' : change B s s' -> lives_inv s -> lives_inv s'.
Proof.
  intros Hch. pose proof (change_GODMODE B _ _ Hch) as Hgm. revert Hgm.
  destruct Hch as [s s' H | g w bs _ | g w gr Hgr Hbr]; cbn [fst snd].
  - intros _. exact (hit_change_lives B _ _ H).
  - intros _ H; exact H.
  - intros Hgm [H1 H2]. split; [exact (eq_trans Hgm H1)|].
    destruct (enemy_breach_shape g w gr Hgr Hbr) as (p & c & hs & j & m & t & -> & Ho & _).
    rewrite H1 in Ho. exact (proj2 (hit_outcome_standing _ _ _ _ Ho H2)).
Qed.

Lemma lives_update_game dt keys g w :
  GODMODE w = gm -> Player.lives (Game.player g) = L -> Game.scene g = sc ->
  lives_inv (Game.update_game dt keys g w).
Proof.
  intros Hgm Hl Hsc. unfold Game.update_game, mbind, M_bind.
  destruct (update_player_and_grid_shape dt keys g w) as (p & bs & H1 & Hl1 & Hw1).
  revert H1 Hw1. generalize (Game.update_player_and_grid dt keys g w).
  intros [g1 w1] H1 Hw1. cbn [fst snd] in H1, Hw1.
  destruct (update_boss_fields dt g1 w1) as (bo & t & H2 & _).
  pose proof (advances_GODMODE _ _ (update_boss_advances dt g1 w1)) as Hw2.
  revert H2 Hw2. generalize (Game.update_boss dt g1 w1). intros [g2 w2] H2 Hw2.
  cbn [fst snd] in H2, Hw2.
  apply (update_after_boss_inv (fun _ => True) Logic.I any_points_new lives_inv).
  - intros s s' Hch. exact (change_lives _ _ _ Hch).
  - intros g0 w0 ps m t0 H0. exact H0.
  - intros g0 w0 gr [H0 H0'] _ _. split; [rewrite next_wave_GODMODE; exact H0 |].
    rewrite next_wave_eq. exact H0'.
  - apply any_points_known.
  - cbn [fst snd]. split; [congruence|]. left. rewrite H2, H1. cbn. split; [lia | exact Hsc].
Qed.
End Lives.

(** X16.  Lives and the end of the game, over one frame.  A frame does
    not change the god-mode flag.  In god mode no life is lost and the scene
    stays.  Otherwise, when there is a life left at the start, the frame takes
    at most one life; when it takes one, the player ends the frame
    invulnerable, and the scene is GAME_OVER if that was the last life and is
    unchanged if it was not. *)
Theorem lives_and_game_over (dt : Q) (keys : Keys) (g : Game.t) (w : World) :
  let r := Game.update_game dt keys g w in
  let L := Player.lives (Game.player g) in
  let L' := Player.lives (Game.player (fst r)) in
  GODMODE (snd r) = GODMODE w
  /\ (GODMODE w = true -> L' = L /\ Game.scene (fst r) = Game.scene g)
  /\ (GODMODE w = false -> 0 < L ->
        (L' = L /\ Game.scene (fst r) = Game.scene g)
        \/ (L' = L - 1 /\ (0 < Player.invuln_timer (Game.player (fst r)))%Q
            /\ Game.scene (fst r) = if L' <=? 0 then SCENE_GAME_OVER else Game.scene g)).
Proof.
  intros r L L'. split; [apply update_game_GODMODE|]. split.
  - intros Hgm.
    assert (Hpos : true = false -> 0 < L) by (intros H; discriminate H).
    destruct (lives_update_game true L (Game.scene g) Hpos dt keys g w Hgm eq_refl eq_refl)
      as [_ [H | (H & _)]]; [exact H | discriminate H].
  - intros Hgm Hl.
    destruct (lives_update_game false L (Game.scene g) (fun _ => Hl) dt keys g w Hgm
                eq_refl eq_refl) as [_ [H | (_ & H1 & H2 & H3)]]; [left; exact H|].
    right. fold r in H1, H2, H3. fold L' in H1. split; [exact H1|]. split; [exact H2|].
    rewrite H1. exact H3.
Qed.

(** ** The shields only wear *)

Lemma worn_refl ps : worn ps ps.
Proof.
  split; [reflexivity|]. intros p Hp. exists p. split; [exact Hp|]. split; [reflexivity | lia].
Qed.

Lemma worn_trans ps1 ps2 ps3 : worn ps1 ps2 -> worn ps2 ps3 -> worn ps1 ps3.
Proof.
  intros [L1 H1] [L2 H2]. split; [lia|]. intros p1 Hp1.
  destruct (H1 p1 Hp1) as (p2 & Hp2 & E1 & Le1).
  destruct (H2 p2 Hp2) as (p3 & Hp3 & E2 & Le2).
  exists p3. split; [exact Hp3|]. split; [congruence | lia].
Qed.

Lemma collide_pieces_worn ps b : worn (fst (Shields.collide_pieces ps b)) ps.
Proof.
  induction ps as [|p ps IH]; cbn [Shields.collide_pieces]; [apply worn_refl|].
  destruct (colliderect _ _).
  - unfold ShieldPiece.hit. destruct (ShieldPiece.hp p - 1 <=? 0); cbn [fst].
    + split; [cbn [length]; lia|]. intros q Hq. exists q.
      split; [right; exact Hq|]. split; [reflexivity | lia].
    + split; [reflexivity|]. intros q Hq. apply elem_of_cons in Hq as [-> | Hq].
      * exists p. split; [left|]. split; [reflexivity | cbn; lia].
      * exists q. split; [right; exact Hq|]. split; [reflexivity | lia].
  - destruct (Shields.collide_pieces ps b) as [ps' r]. cbn [fst] in *.
    destruct IH as [L H]. split; [cbn [length]; lia|].
    intros q Hq. apply elem_of_cons in Hq as [-> | Hq].
    + exists p. split; [left|]. split; [reflexivity | lia].
    + destruct (H q Hq) as (q0 & Hq0 & E & Le). exists q0.
      split; [right; exact Hq0|]. split; assumption.
Qed.

Lemma collide_bullet_worn b s :
  worn (Shields.pieces (fst (Shields.collide_bullet b s))) (Shields.pieces s).
Proof.
  unfold Shields.collide_bullet. pose proof (collide_pieces_worn (Shields.pieces s) b) as H.
  destruct (Shields.collide_pieces (Shields.pieces s) b) as [ps r]. exact H.
Qed.

Section Worn.
Variable ps0 : list ShieldPiece.t.

Local Abbreviation worn_inv :=
  (fun s : Game.t * World => worn (Shields.pieces (Game.shields (fst s))) ps0).

Lemma hit_change_worn B s s' : hit_change B s s' -> worn_inv s -> worn_inv s'.
Proof.
  destruct 1 as [g w w' _ | g w b | g w base _ | g w ps | g w
                 | g w gr b es e dead Hgr Hhit | g w amount]; cbn [fst];
    try (intros H; exact H).
  - intros H. cbn [Game.shields Game.set_shields].
    exact (worn_trans _ _ _ (collide_bullet_worn b (Game.shields g)) H).
  - pose proof (score_add_frame base g w) as H.
    destruct (Game.score_add base g w) as [g' w']. destruct H as [_ ->]. intros H; exact H.
  - destruct (player_hit_shape g w amount) as (p & sc & hs & j & m & t & -> & _).
    intros H; exact H.
Qed.

Lemma change_worn B s s' : change B s s' -> worn_inv s -> worn_inv s'.
Proof.
  destruct 1 as [s s' H | g w bs _ | g w gr Hgr Hbr]; cbn [fst].
  - exact (hit_change_worn B _ _ H).
  - intros H; exact H.
  - destruct (enemy_breach_shape g w gr Hgr Hbr) as (p & sc & hs & j & m & t & -> & _).
    intros H; exact H.
Qed.
End Worn.

(** X17.  The shields only wear.  Over a frame of [update_game], the
    start of a new wave included, no piece is added, and every piece in place
    after the frame is a piece of before, at the same place, with at most the
    hit points it had. *)
Theorem shields_only_wear (dt : Q) (keys : Keys) (g : Game.t) (w : World) :
  worn (Shields.pieces (Game.shields (fst (Game.update_game dt keys g w))))
       (Shields.pieces (Game.shields g)).
Proof.
  unfold Game.update_game, mbind, M_bind.
  destruct (update_player_and_grid_shape dt keys g w) as (p & bs & H1 & _).
  revert H1. generalize (Game.update_player_and_grid dt keys g w). intros [g1 w1] H1.
  cbn [fst] in H1.
  destruct (update_boss_fields dt g1 w1) as (bo & t & H2 & _).
  revert H2. generalize (Game.update_boss dt g1 w1). intros [g2 w2] H2. cbn [fst] in H2.
  apply (update_after_boss_inv (fun _ => True) Logic.I any_points_new
           (fun s => worn (Shields.pieces (Game.shields (fst s)))
                          (Shields.pieces (Game.shields g)))).
  - intros s s' Hch. exact (change_worn _ _ _ _ Hch).
  - intros g0 w0 ps m t0 H0. exact H0.
  - intros g0 w0 gr H0 _ _. rewrite next_wave_eq. exact H0.
  - apply any_points_known.
  - rewrite H2, H1. apply worn_refl.
Qed.

(** ** The end of a wave *)

Section Wave.
Variable W : Z.

Local Abbreviation wave_inv :=
  (fun s : Game.t * World => Game.wave (fst s) = W /\ is_Some (Game.grid (fst s))).

Lemma hit_change_wave B s s' : hit_change B s s' -> wave_inv s -> wave_inv s'.
Proof.
  destruct 1 as [g w w' _ | g w b | g w base _ | g w ps | g w
                 | g w gr b es e dead Hgr Hhit | g w amount]; cbn [fst];
    try (intros H; exact H).
  - pose proof (score_add_frame base g w) as H.
    destruct (Game.score_add base g w) as [g' w']. destruct H as [_ ->]. intros H; exact H.
  - intros [H _]. split; [exact H | eexists; reflexivity].
  - destruct (player_hit_shape g w amount) as (p & sc & hs & j & m & t & -> & _).
    intros H; exact H.
Qed.

Lemma change_wave B s s' : change B s s' -> wave_inv s -> wave_inv s'.
Proof.
  destruct 1 as [s s' H | g w bs _ | g w gr Hgr Hbr]; cbn [fst].
  - exact (hit_change_wave B _ _ H).
  - intros H; exact H.
  - destruct (enemy_breach_shape g w gr Hgr Hbr) as (p & sc & hs & j & m & t & -> & _).
    intros [H _]. split; [exact H | eexists; reflexivity].
Qed.
End Wave.

Lemma update_game_wave (dt : Q) (keys : Keys) (g : Game.t) (w : World) :
  is_Some (Game.grid g) ->
  let g' := fst (Game.update_game dt keys g w) in
  exists gr', Game.grid g' = Some gr'
    /\ 0 < EnemyGrid.alive gr'
    /\ (Game.wave g' = Game.wave g
        \/ (Game.wave g' = Game.wave g + 1 /\ EnemyGrid.alive gr' = 48
            /\ Game.bullets g' = [])).
Proof.
  intros Hgrid g'. subst g'. unfold Game.update_game, mbind, M_bind.
  destruct (update_player_and_grid_shape dt keys g w) as (p & bs & H1 & _).
  revert H1. generalize (Game.update_player_and_grid dt keys g w). intros [g1 w1] H1.
  cbn [fst] in H1.
  destruct (update_boss_fields dt g1 w1) as (bo & t & H2 & _).
  revert H2. generalize (Game.update_boss dt g1 w1). intros [g2 w2] H2. cbn [fst] in H2.
  assert (H0 : Game.wave g2 = Game.wave g /\ is_Some (Game.grid g2)).
  { rewrite H2, H1. cbn. split; [reflexivity|]. destruct Hgrid as [gr ->]. eexists; reflexivity. }
  rewrite update_after_boss_eq. cbv zeta.
  pose proof (handle_collisions_inv (fun _ => True) Logic.I any_points_new
                (fun s => Game.wave (fst s) = Game.wave g /\ is_Some (Game.grid (fst s)))
                (fun s s' Hch => change_wave (Game.wave g) _ s s' Hch)
                dt (Game.set_bullets (moved_bullets dt g2) g2) w2
                (any_points_known _) H0) as H3.
  revert H3. generalize (Game.handle_collisions dt (Game.set_bullets (moved_bullets dt g2) g2) w2).
  intros [g3 w3] [Hw [gr Hgr]]. cbn [fst snd] in *.
  destruct (settle_shape dt g3) as (ps & m & t0 & ->).
  cbn [Game.grid Game.set_particles Game.set_shake_mag Game.set_shake_timer]. rewrite Hgr.
  destruct (EnemyGrid.alive gr =? 0) eqn:Ha.
  - rewrite next_wave_eq. cbn [fst Game.grid Game.wave Game.bullets Game.set_enemy_bullets
      Game.set_bullets Game.set_grid Game.set_wave Game.set_particles Game.set_shake_mag
      Game.set_shake_timer].
    eexists. split; [reflexivity|].
    pose proof (EnemyGrid_new_spec (Game.wave g3 + 1) w3) as (_ & Hn & _).
    cbv zeta in Hn. rewrite Hn. split; [lia|]. right. split; [lia|].
    split; reflexivity.
  - apply Z.eqb_neq in Ha. cbn [fst Game.grid Game.wave Game.set_particles Game.set_shake_mag
      Game.set_shake_timer]. exists gr. split; [exact Hgr|].
    split; [unfold EnemyGrid.alive in *; lia | left; exact Hw].
Qed.

(** X18.  The end of a wave.  A game that has a grid has, after every
    frame, a grid with at least one enemy.  The wave after the frame is the
    wave of before or the next one, and in that case the grid is full (48
    enemies) and the bullets are gone. *)
Theorem end_of_wave (dt : Q) (keys : Keys) (g : Game.t) (w : World) :
  is_Some (Game.grid g) ->
  let g' := fst (Game.update_game dt keys g w) in
  exists gr', Game.grid g' = Some gr'
    /\ 0 < EnemyGrid.alive gr'
    /\ (Game.wave g' = Game.wave g
        \/ (Game.wave g' = Game.wave g + 1 /\ EnemyGrid.alive gr' = 48
            /\ Game.bullets g' = [])).
Proof. exact (update_game_wave dt keys g w). Qed.

(** ** Nothing dead is kept *)

Lemma moved_bullets_on_screen dt g : Forall on_screen (moved_bullets dt g).
Proof.
  apply Forall_forall. intros b Hb. unfold moved_bullets in Hb.
  apply list_elem_of_filter in Hb as [Ha Hb].
  apply list_elem_of_fmap in Hb as (b0 & -> & _).
  split; [exact Ha|]. unfold Bullet.update in *. cbn [Bullet.alive Bullet.rect] in *.
  destruct ((bottom _ <? 0) || (HEIGHT <? top _)) eqn:E; [discriminate Ha|].
  apply orb_false_iff in E as [E1 E2]. apply Z.ltb_ge in E1, E2. split; assumption.
Qed.

Section BossInv.
Variable bo0 : option Boss.t.

Local Abbreviation boss_inv :=
  (fun s : Game.t * World => Game.boss (fst s) = None \/ Game.boss (fst s) = bo0).

Lemma hit_change_boss B s s' : hit_change B s s' -> boss_inv s -> boss_inv s'.
Proof.
  destruct 1 as [g w w' _ | g w b | g w base _ | g w ps | g w
                 | g w gr b es e dead Hgr Hhit | g w amount]; cbn [fst];
    try (intros H; exact H).
  - pose proof (score_add_frame base g w) as H.
    destruct (Game.score_add base g w) as [g' w']. destruct H as [_ ->]. intros H; exact H.
  - intros _. left. reflexivity.
  - destruct (player_hit_shape g w amount) as (p & sc & hs & j & m & t & -> & _).
    intros H; exact H.
Qed.

Lemma change_boss B s s' : change B s s' -> boss_inv s -> boss_inv s'.
Proof.
  destruct 1 as [s s' H | g w bs _ | g w gr Hgr Hbr]; cbn [fst].
  - exact (hit_change_boss B _ _ H).
  - intros H; exact H.
  - destruct (enemy_breach_shape g w gr Hgr Hbr) as (p & sc & hs & j & m & t & -> & _).
    intros H; exact H.
Qed.
End BossInv.

Lemma update_after_boss_particles dt g w :
  Forall (fun p => (0 < Particle.life p)%Q)
         (Game.particles (fst (Game.update_after_boss dt g w))).
Proof.
  rewrite update_after_boss_eq. cbv zeta.
  generalize (Game.handle_collisions dt (Game.set_bullets (moved_bullets dt g) g) w).
  intros [g1 w1]. cbn [fst snd].
  assert (H : Forall (fun p => (0 < Particle.life p)%Q) (Game.particles (settle dt g1))).
  { unfold settle. cbn [Game.particles Game.set_particles].
    apply Forall_forall. intros p Hp. apply list_elem_of_filter in Hp as [Hp _].
    apply Qnot_le_lt. exact Hp. }
  destruct (Game.grid (settle dt g1)) as [gr|]; [| exact H].
  destruct (EnemyGrid.alive gr =? 0); [| exact H].
  rewrite next_wave_eq. exact H.
Qed.

(** X19.  Nothing dead is kept.  After a frame of [update_game] every
    bullet in the list is alive and at least partly between the top and the
    bottom of the screen, every particle has life left, and the boss, when
    there is one, is alive and not more than 40 pixels beyond the right
    edge. *)
Theorem nothing_dead_is_kept (dt : Q) (keys : Keys) (g : Game.t) (w : World) :
  let g' := fst (Game.update_game dt keys g w) in
  Forall on_screen (Game.bullets g')
  /\ Forall (fun p => (0 < Particle.life p)%Q) (Game.particles g')
  /\ (forall b, Game.boss g' = Some b ->
        Boss.alive b = true /\ left (Boss.rect b) <= WIDTH + 40).
Proof.
  intros g'. subst g'. unfold Game.update_game, mbind, M_bind.
  generalize (Game.update_player_and_grid dt keys g w). intros [g1 w1].
  destruct (update_boss_fields dt g1 w1) as (bo & t & H2 & Hbo).
  revert H2. generalize (Game.update_boss dt g1 w1). intros [g2 w2] H2. cbn [fst] in H2.
  split; [| split].
  - apply Forall_forall. intros b Hb.
    pose proof (elem_of_sublist _ _ _ Hb (update_after_boss_bullets dt g2 w2)) as Hb'.
    pose proof (moved_bullets_on_screen dt g2) as H. rewrite Forall_forall in H.
    exact (H b Hb').
  - apply update_after_boss_particles.
  - assert (H : Game.boss (fst (Game.update_after_boss dt g2 w2)) = None
                \/ Game.boss (fst (Game.update_after_boss dt g2 w2)) = bo).
    { apply (update_after_boss_inv (fun _ => True) Logic.I any_points_new
               (fun s => Game.boss (fst s) = None \/ Game.boss (fst s) = bo)).
      - intros s s' Hch. exact (change_boss _ _ _ _ Hch).
      - intros g0 w0 ps m t0 H0. exact H0.
      - intros g0 w0 gr H0 _ _. rewrite next_wave_eq. exact H0.
      - apply any_points_known.
      - right. rewrite H2. reflexivity. }
    intros b Hb. rewrite Hb in H. destruct H as [H|H]; [discriminate H|].
    destruct Hbo as [-> | (b0 & -> & Ha & Hl)]; [discriminate H|].
    injection H as ->. split; assumption.
Qed.

(** ** The game can end more than once *)

(** X20.  The game can end more than once.  An enemy bullet that
    strikes a player without lives, outside god mode, runs [game_over]
    whether it does damage or not: the bullet is used up, the scene is
    GAME_OVER and the final score is entered in the table once more.  So in
    the frame that takes the last life, every further enemy bullet on the
    ship enters the score again. *)
Theorem game_over_runs_again (b : Bullet.t) (g : Game.t) (w : World) :
  Bullet.is_player b = false ->
  snd (Shields.collide_bullet b (Game.shields g)) = false ->
  colliderect (Bullet.rect b) (Player.rect (Game.player g)) = true ->
  Player.lives (Game.player g) <= 0 ->
  GODMODE w = false ->
  dict_valid w (Game.highscores g) ->
  let r := Game.enemy_bullet_step b g w in
  snd (fst r) = true
  /\ Game.scene (fst (fst r)) = SCENE_GAME_OVER
  /\ Game.table (snd r) (fst (fst r))
     = take 5 (sorted_desc (Game.table w g ++ [Game.score g]))
  /\ dict_valid (snd r) (Game.highscores (fst (fst r))).
Proof.
  intros Hb Hs Hc Hl Hgm Hv r. subst r. unfold Game.enemy_bullet_step.
  rewrite Hb. pose proof (collide_bullet_false b (Game.shields g) Hs) as Hsh.
  revert Hs Hsh. generalize (Shields.collide_bullet b (Game.shields g)).
  intros [sh a] Hs Hsh. cbn [fst snd] in *. subst a sh.
  assert (Hid : Game.set_shields (Game.shields g) g = g) by (destruct g; reflexivity).
  rewrite Hid, Hc. unfold mbind, M_bind, mret, M_ret, get_world.
  destruct (Player_hit_cases (GODMODE w) (Game.player g)) as [[-> _] | (-> & _ & _)].
  - cbn [Game.player Game.set_player].
    assert (Hid2 : Game.set_player (Game.player g) g = g) by (destruct g; reflexivity).
    rewrite Hid2, Hgm. assert (E : (Player.lives (Game.player g) <=? 0) = true)
      by (apply Z.leb_le; exact Hl).
    rewrite E. cbn [andb negb].
    destruct (game_over_fields g w) as (hs & j & Hgo).
    destruct (game_over_table g w Hv) as (Ht & _ & Hv' & _).
    revert Hgo Ht Hv'. generalize (Game.game_over g w). intros [g1 w1] Hgo Ht Hv'.
    cbn [fst snd] in *. split; [reflexivity|]. split; [rewrite Hgo; reflexivity|].
    split; [exact Ht | exact Hv'].
  - cbn [Game.player Game.set_player Game.shake Game.set_shake_mag Game.set_shake_timer
         Player.lives].
    rewrite Hgm. assert (E : (Player.lives (Game.player g) - 1 <=? 0) = true)
      by (apply Z.leb_le; lia).
    rewrite E. cbn [andb negb].
    match goal with |- context [Game.game_over ?g1 w] =>
      destruct (game_over_fields g1 w) as (hs & j & Hgo);
      destruct (game_over_table g1 w Hv) as (Ht & _ & Hv' & _);
      revert Hgo Ht Hv'; generalize (Game.game_over g1 w) end.
    intros [g1 w1] Hgo Ht Hv'. cbn [fst snd] in *.
    split; [reflexivity|]. split; [rewrite Hgo; reflexivity|].
    split; [exact Ht | exact Hv'].
Qed.

(** ** A new game *)

Lemma start_new_game_shape reset g w :
  exists gr nbt w',
    Game._start_new_game reset g w =
      (Game.set_just_made_highscore false
         (Game.set_next_boss_time nbt
            (Game.set_boss None
               (Game.set_grid (Some gr)
                  (Game.set_last_kill_time (- (999))
                     (Game.set_combo_mult 0
                        (Game.set_score (if reset then 0 else Game.score g)
                           (Game.set_wave 1
                              (Game.set_shields Shields.new
                                 (Game.set_particles []
                                    (Game.set_enemy_bullets []
                                       (Game.set_bullets []
                                          (Game.set_player
                                             (Player.new (WIDTH / 2) (HEIGHT - 30))
                                             g)))))))))))),
       w')
    /\ Forall enemy_ok (EnemyGrid.enemies gr)
    /\ EnemyGrid.alive gr = 48
    /\ advances w w'
    /\ (draws_ok w -> (20 <= nbt < 30)%Q).
Proof.
  unfold Game._start_new_game, mbind, M_bind, mret, M_ret.
  match goal with |- context [EnemyGrid.new ?wv w] =>
    pose proof (EnemyGrid_new_ok wv w) as Hok;
    pose proof (EnemyGrid_new_spec wv w) as (_ & Hn & _ & _ & _ & Hw1);
    pose proof (EnemyGrid_new_advances wv w) as Ha1;
    revert Hok Hn Hw1 Ha1; generalize (EnemyGrid.new wv w) end.
  intros [gr w1] Hok Hn Hw1 Ha1. cbn [fst snd] in *.
  pose proof (rand_boss_timer_advances w1) as Ha2.
  assert (Hnbt : draws_ok w ->
                 (20 <= fst (Game._rand_boss_timer w1) < 30)%Q).
  { intros Hd. unfold Game._rand_boss_timer, random_uniform, random_random, mbind, M_bind,
      mret, M_ret, BOSS_CD_MIN, BOSS_CD_MAX. cbn [fst].
    rewrite Hw1. cbn [rand_draws set_rand_ix rand_ix].
    pose proof (Hd (rand_ix w + 48)%nat) as H. lra. }
  revert Ha2 Hnbt. generalize (Game._rand_boss_timer w1). intros [nbt w2] Ha2 Hnbt.
  cbn [fst snd] in *. exists gr, nbt, w2.
  split; [destruct reset; destruct g; reflexivity|].
  split; [exact Hok|]. split; [exact Hn|].
  split; [eapply advances_trans; eassumption | exact Hnbt].
Qed.


(** ** A session *)

Lemma highscores_ok_GODMODE g w v : highscores_ok g w -> highscores_ok g (set_GODMODE v w).
Proof. intros H. exact H. Qed.

Lemma run_ok_set_scene sc g : run_ok g -> run_ok (Game.set_scene sc g).
Proof. intros H. exact H. Qed.

Lemma highscores_ok_set_scene sc g w :
  highscores_ok g w -> highscores_ok (Game.set_scene sc g) w.
Proof. intros H. exact H. Qed.

Lemma session_ok_start g w :
  session_ok (Game.set_scene SCENE_PLAYING (fst (Game._start_new_game true g w))).
Proof.
  pose proof (run_ok_start_new_game true g w) as Hrun.
  destruct (start_new_game_shape true g w) as (gr & nbt & w' & E & Hok & Hn & _ & _).
  revert Hrun. rewrite E. cbn [fst snd]. intros Hrun. unfold session_ok.
  split; [eexists; reflexivity|]. split; [exact Hok|].
  split; [split; vm_compute; intros H; discriminate H|].
  split; [split; [cbn; lia | cbn; lra]|].
  split; [cbn; unfold PLAYER_LIVES; lia|].
  apply run_ok_set_scene, Hrun.
Qed.

Lemma session_ok_scene sc g :
  session_ok g ->
  (sc = SCENE_PLAYING \/ sc = SCENE_PAUSED ->
   Game.scene g = SCENE_PLAYING \/ Game.scene g = SCENE_PAUSED) ->
  session_ok (Game.set_scene sc g).
Proof.
  intros (H1 & H2 & H3 & H4 & [H5 H5'] & H6) Hsc. unfold session_ok.
  split; [exact H1|]. split; [exact H2|]. split; [exact H3|]. split; [exact H4|].
  split; [| exact H6].
  split; [exact H5|]. cbn [Game.scene Game.set_scene Game.player]. intros H.
  exact (H5' (Hsc H)).
Qed.

(** A key never makes the loop raise, and keeps what holds of a session. *)
Lemma session_ok_keydown key g running w :
  session_ok g ->
  exists g' running',
    fst (MainLoop.keydown key g running w) = Some (g', running') /\ session_ok g'.
Proof.
  intros H. destruct key; unfold MainLoop.keydown.
  - (* Escape *)
    destruct (Game.scene g) eqn:Hs; eexists _, _; (split; [reflexivity|]);
      try exact H; apply session_ok_scene; try exact H; rewrite Hs;
      intros [E|E]; try discriminate E; auto.
  - (* Return *)
    destruct (Game.scene g) eqn:Hs.
    + unfold mbind, M_bind, mret, M_ret.
      pose proof (session_ok_start g w) as H1.
      revert H1. generalize (Game._start_new_game true g w).
      intros [g1 w1] H1. eexists _, _. split; [reflexivity | exact H1].
    + eexists _, _. split; [reflexivity | exact H].
    + eexists _, _. split; [reflexivity|]. apply session_ok_scene; [exact H|].
      rewrite Hs. auto.
    + eexists _, _. split; [reflexivity|]. apply session_ok_scene; [exact H|].
      intros [E|E]; discriminate E.
  - (* P *)
    destruct (Game.scene g) eqn:Hs; eexists _, _; (split; [reflexivity|]);
      try exact H; apply session_ok_scene; try exact H; rewrite Hs; auto.
  - (* S *)
    destruct (Scene_eqb _ _); eexists _, _; (split; [reflexivity|]); exact H.
  - (* F1 *)
    eexists _, _. split; [reflexivity | exact H].
  - (* F2 *)
    eexists _, _. split; [reflexivity | exact H].
  - (* F3 *)
    destruct (Scene_eqb _ _); [| eexists _, _; split; [reflexivity | exact H]].
    destruct H as ([gr Hgr] & H2 & H3 & H4 & H5 & H6). rewrite Hgr.
    eexists _, _. split; [reflexivity|]. unfold session_ok.
    split; [eexists; reflexivity|]. split; [unfold grid_ok; cbn; constructor|].
    split; [exact H3|]. split; [exact H4|]. split; [exact H5 | exact H6].
  - eexists _, _. split; [reflexivity | exact H].
Qed.

Lemma highscores_ok_keydown key g running w g' running' :
  highscores_ok g w ->
  fst (MainLoop.keydown key g running w) = Some (g', running') ->
  highscores_ok g' (snd (MainLoop.keydown key g running w)).
Proof.
  intros H. destruct key; unfold MainLoop.keydown.
  - destruct (Game.scene g); intros E; injection E as <- _; exact H.
  - destruct (Game.scene g);
      [| intros E; injection E as <- _; exact H ..].
    unfold mbind, M_bind, mret, M_ret.
    pose proof (highscores_ok_start_new_game true g w H) as H1.
    revert H1. generalize (Game._start_new_game true g w).
    intros [g1 w1] H1 E. injection E as <- _. apply highscores_ok_set_scene, H1.
  - destruct (Game.scene g); intros E; injection E as <- _; exact H.
  - destruct (Scene_eqb _ _); intros E; injection E as <- _; exact H.
  - intros E; injection E as <- _; exact H.
  - intros E; injection E as <- _; exact H.
  - destruct (Scene_eqb _ _); [| intros E; injection E as <- _; exact H].
    destruct (Game.grid g); intros E; [injection E as <- _; exact H | discriminate E].
  - intros E; injection E as <- _; exact H.
Qed.

Section Session.
(** An invariant of the game and the world that every key and every frame
    of play keeps is kept by the whole loop, which then never raises. *)
Variable Inv : Game.t -> World -> Prop.
Hypothesis Inv_keydown : forall key g running w,
  Inv g w ->
  exists g' running',
    fst (MainLoop.keydown key g running w) = Some (g', running')
    /\ Inv g' (snd (MainLoop.keydown key g running w)).
Hypothesis Inv_update_game : forall dt keys g w,
  Inv g w -> Game.scene g = SCENE_PLAYING ->
  Inv (fst (Game.update_game dt keys g w)) (snd (Game.update_game dt keys g w)).

Lemma inv_events evs g running w :
  Inv g w ->
  exists g' running',
    fst (MainLoop.events evs g running w) = Some (g', running')
    /\ Inv g' (snd (MainLoop.events evs g running w)).
Proof.
  revert g running w. induction evs as [|ev evs IH]; intros g running w H;
    cbn [MainLoop.events].
  - eexists _, _. split; [reflexivity | exact H].
  - destruct ev as [| key |]; [apply IH, H | | apply IH, H].
    unfold mbind, M_bind.
    destruct (Inv_keydown key g running w H) as (g1 & r1 & E & H1).
    revert E H1. generalize (MainLoop.keydown key g running w).
    intros [o w1] E H1. cbn [fst snd] in *. subst o. apply IH, H1.
Qed.

Lemma inv_iteration f g w :
  Inv g w ->
  exists g' running',
    fst (MainLoop.iteration f g w) = Some (g', running')
    /\ Inv g' (snd (MainLoop.iteration f g w)).
Proof.
  intros H. unfold MainLoop.iteration, mbind, M_bind, mret, M_ret.
  destruct (inv_events (frame_events f) g true w H) as (g1 & r1 & E & H1).
  revert E H1. generalize (MainLoop.events (frame_events f) g true w).
  intros [o w1] E H1. cbn [fst snd] in *. subst o.
  destruct (Game.scene g1) eqn:Hs; try (eexists _, _; split; [reflexivity | exact H1]).
  pose proof (Inv_update_game (frame_dt f) (frame_keys f) g1 w1 H1 Hs) as H2.
  revert H2. generalize (Game.update_game (frame_dt f) (frame_keys f) g1 w1).
  intros [g2 w2] H2. eexists _, _. split; [reflexivity | exact H2].
Qed.

Lemma inv_run frames g w :
  Inv g w ->
  exists g', fst (MainLoop.run frames g w) = Some g'
             /\ Inv g' (snd (MainLoop.run frames g w)).
Proof.
  revert g w. induction frames as [|f frames IH]; intros g w H; cbn [MainLoop.run].
  - exists g. split; [reflexivity | exact H].
  - unfold mbind, M_bind.
    destruct (inv_iteration f g w H) as (g1 & r1 & E & H1).
    revert E H1. generalize (MainLoop.iteration f g w).
    intros [o w1] E H1. cbn [fst snd] in *. subst o.
    destruct r1; [apply IH, H1 | exists g1; split; [reflexivity | exact H1]].
Qed.
End Session.

Lemma session_ok_update_game dt keys g w :
  session_ok g -> Game.scene g = SCENE_PLAYING ->
  session_ok (fst (Game.update_game dt keys g w)).
Proof.
  intros (H1 & H2 & [H3 H3'] & [H4 H4'] & [H5 H5'] & H6) Hs. unfold session_ok.
  destruct (update_game_wave dt keys g w H1) as (gr' & Hgr' & _).
  split; [eexists; exact Hgr'|].
  split; [apply grid_ok_update_game, H2|].
  split; [exact (update_game_shots dt keys g w H3 H3')|].
  destruct (score_update_game dt keys g w H2 H4') as [Hsc Hco].
  split; [split; [lia | exact Hco]|].
  split; [| apply run_ok_update_game, H6].
  assert (Hpos : 0 < Player.lives (Game.player g)) by (apply H5'; left; exact Hs).
  destruct (lives_update_game (GODMODE w) (Player.lives (Game.player g)) (Game.scene g)
              (fun _ => Hpos) dt keys g w eq_refl eq_refl eq_refl)
    as [_ [[Hl Hc] | (_ & Hl & _ & Hc)]].
  - rewrite Hl. split; [exact H5 | intros _; exact Hpos].
  - rewrite Hl. split; [lia|]. rewrite Hc, Hs.
    destruct (Player.lives (Game.player g) - 1 <=? 0) eqn:E.
    + intros [E1|E1]; discriminate E1.
    + apply Z.leb_gt in E. intros _. exact E.
Qed.

Lemma session_ok_new mixer_ok w : session_ok (fst (Game.new mixer_ok w)).
Proof.
  pose proof (run_ok_new mixer_ok w) as Hrun. revert Hrun.
  unfold Game.new, mbind, M_bind.
  destruct (Game._rand_boss_timer w) as [nbt w1]. destruct (load_highscores w1) as [hs w2].
  match goal with |- context [Game._start_new_game false ?g0 w2] =>
    destruct (start_new_game_shape false g0 w2) as (gr & t & w' & -> & Hok & Hn & _ & _) end.
  cbn [fst snd]. intros Hrun. unfold session_ok.
  split; [eexists; reflexivity|]. split; [exact Hok|].
  split; [split; vm_compute; intros H; discriminate H|].
  split; [split; [cbn; lia | cbn; lra]|].
  split; [cbn; unfold PLAYER_LIVES; split; [lia|]; intros [E|E]; discriminate E|].
  exact Hrun.
Qed.

(** Over a session: what holds of the game, and the highscore table when the
    file found at the start holds a table in order. *)
Lemma session_run frames g w :
  session_ok g ->
  exists g', fst (MainLoop.run frames g w) = Some g' /\ session_ok g'.
Proof.
  intros H.
  destruct (inv_run (fun g _ => session_ok g)
              (fun key g running w H => session_ok_keydown key g running w H)
              (fun dt keys g w H Hs => session_ok_update_game dt keys g w H Hs)
              frames g w H) as (g' & E & H').
  exists g'. split; assumption.
Qed.

Lemma session_run_highscores frames g w :
  session_ok g -> highscores_ok g w ->
  exists g', fst (MainLoop.run frames g w) = Some g'
             /\ highscores_ok g' (snd (MainLoop.run frames g w)).
Proof.
  intros H Hhs.
  destruct (inv_run (fun g w => session_ok g /\ highscores_ok g w)) with
    (frames := frames) (g := g) (w := w) as (g' & E & _ & H').
  - intros key g0 running w0 [H0 Hhs0].
    destruct (session_ok_keydown key g0 running w0 H0) as (g1 & r1 & E & H1).
    exists g1, r1. split; [exact E|]. split; [exact H1|].
    exact (highscores_ok_keydown key g0 running w0 g1 r1 Hhs0 E).
  - intros dt keys g0 w0 [H0 Hhs0] Hs. split.
    + apply session_ok_update_game; assumption.
    + apply highscores_ok_update_game, Hhs0.
  - split; assumption.
  - exists g'. split; assumption.
Qed.

(** X22.  The main loop always finds a grid.  From the game that
    [Game.__init__] sets up, whatever the frames (time steps, events, keys)
    and the draws, [run] returns a game: the assignment
    [self.grid.enemies = []] of the skip-wave key never meets a grid that is
    [None]. *)
Theorem run_finds_the_grid (mixer_ok : bool) (w : World) (frames : list Frame) :
  let start := Game.new mixer_ok w in
  is_Some (fst (MainLoop.run frames (fst start) (snd start))).
Proof.
  intros start.
  destruct (session_run frames (fst start) (snd start) (session_ok_new mixer_ok w))
    as (g' & E & _).
  exists g'. exact E.
Qed.

(** X23.  Lives over a session.  After every pass of the main loop the
    player has between 0 and 3 lives, and at least one while the scene is
    PLAYING or PAUSED. *)
Theorem session_lives (mixer_ok : bool) (w : World) (frames : list Frame) :
  let start := Game.new mixer_ok w in
  exists g', fst (MainLoop.run frames (fst start) (snd start)) = Some g'
    /\ 0 <= Player.lives (Game.player g') <= 3
    /\ (Game.scene g' = SCENE_PLAYING \/ Game.scene g' = SCENE_PAUSED ->
        0 < Player.lives (Game.player g')).
Proof.
  intros start.
  destruct (session_run frames (fst start) (snd start) (session_ok_new mixer_ok w))
    as (g' & E & _ & _ & _ & _ & [H1 H2] & _).
  exists g'. split; [exact E|]. split; [exact H1 | exact H2].
Qed.

(** X24.  The state over a session.  After every pass of the main loop
    the list holds at most 3 player bullets and 6 enemy bullets, every enemy
    on the grid has hit points left, score and combo multiplier are not
    negative, the wave is at least 1 and every shield piece in place has hit
    points left; and the highscore table has at most 5 entries in descending
    order when the file found at the start was absent, malformed or held such
    a table. *)
Theorem session_state (mixer_ok : bool) (w : World) (frames : list Frame) :
  let start := Game.new mixer_ok w in
  let r := MainLoop.run frames (fst start) (snd start) in
  exists g', fst r = Some g'
    /\ (player_shots (Game.bullets g') <= 3 /\ enemy_shots (Game.bullets g') <= 6)
    /\ grid_ok g'
    /\ (0 <= Game.score g' /\ (0 <= Game.combo_mult g')%Q)
    /\ (1 <= Game.wave g'
        /\ Forall (fun p => 0 < ShieldPiece.hp p) (Shields.pieces (Game.shields g')))
    /\ (file_ok (highscore_file w) -> table_ok (Game.table (snd r) g')).
Proof.
  intros start r.
  destruct (session_run frames (fst start) (snd start) (session_ok_new mixer_ok w))
    as (g' & E & _ & H2 & H3 & H4 & _ & H6).
  exists g'. split; [exact E|]. split; [exact H3|]. split; [exact H2|].
  split; [exact H4|]. split; [exact H6|]. intros Hf.
  destruct (session_run_highscores frames (fst start) (snd start)
              (session_ok_new mixer_ok w) (highscores_ok_new mixer_ok w Hf))
    as (g'' & E' & _ & Ht & _).
  fold r in E, E'. rewrite E in E'. injection E' as <-. exact Ht.
Qed.

(** ** Pause *)





(** ** The skip-wave key *)

Lemma EnemyGrid_update_empty dt gr :
  EnemyGrid.enemies gr = [] -> EnemyGrid.enemies (EnemyGrid.update dt gr) = [].
Proof.
  intros E. unfold EnemyGrid.update. destruct (EnemyGrid.hit_edge _);
    cbn [EnemyGrid.enemies EnemyGrid.set_enemies]; rewrite E; reflexivity.
Qed.

Section Cleared.
Variable W : Z.

Local Abbreviation cleared :=
  (fun s : Game.t * World =>
     Game.wave (fst s) = W
     /\ exists gr, Game.grid (fst s) = Some gr /\ EnemyGrid.enemies gr = []).

Lemma hit_change_cleared B s s' : hit_change B s s' -> cleared s -> cleared s'.
Proof.
  destruct 1 as [g w w' _ | g w b | g w base _ | g w ps | g w
                 | g w gr b es e dead Hgr Hhit | g w amount]; cbn [fst];
    try (intros H; exact H).
  - pose proof (score_add_frame base g w) as H.
    destruct (Game.score_add base g w) as [g' w']. destruct H as [_ ->]. intros H; exact H.
  - intros (_ & gr0 & Hgr0 & He). rewrite Hgr in Hgr0. injection Hgr0 as <-.
    rewrite He in Hhit. discriminate Hhit.
  - destruct (player_hit_shape g w amount) as (p & sc & hs & j & m & t & -> & _).
    intros H; exact H.
Qed.

Lemma change_cleared B s s' : change B s s' -> cleared s -> cleared s'.
Proof.
  destruct 1 as [s s' H | g w bs _ | g w gr Hgr Hbr]; cbn [fst].
  - exact (hit_change_cleared B _ _ H).
  - intros H; exact H.
  - intros (_ & gr0 & Hgr0 & He). rewrite Hgr in Hgr0. injection Hgr0 as <-.
    rewrite He in Hbr. apply Exists_nil in Hbr. destruct Hbr.
Qed.
End Cleared.

Lemma update_game_cleared dt keys g w gr :
  Game.grid g = Some gr -> EnemyGrid.enemies gr = [] ->
  let g' := fst (Game.update_game dt keys g w) in
  Game.wave g' = Game.wave g + 1
  /\ Game.bullets g' = []
  /\ exists gr', Game.grid g' = Some gr' /\ EnemyGrid.alive gr' = 48.
Proof.
  intros Hgr He g'. subst g'. unfold Game.update_game, mbind, M_bind.
  destruct (update_player_and_grid_shape dt keys g w) as (p & bs & H1 & _).
  revert H1. generalize (Game.update_player_and_grid dt keys g w). intros [g1 w1] H1.
  cbn [fst] in H1.
  destruct (update_boss_fields dt g1 w1) as (bo & t & H2 & _).
  revert H2. generalize (Game.update_boss dt g1 w1). intros [g2 w2] H2. cbn [fst] in H2.
  assert (H0 : Game.wave g2 = Game.wave g
               /\ exists gr0, Game.grid g2 = Some gr0 /\ EnemyGrid.enemies gr0 = []).
  { rewrite H2, H1. cbn. split; [reflexivity|]. rewrite Hgr. cbn.
    eexists. split; [reflexivity|]. apply EnemyGrid_update_empty, He. }
  rewrite update_after_boss_eq. cbv zeta.
  pose proof (handle_collisions_inv (fun _ => True) Logic.I any_points_new
                (fun s => Game.wave (fst s) = Game.wave g
                          /\ exists gr0, Game.grid (fst s) = Some gr0
                                         /\ EnemyGrid.enemies gr0 = [])
                (fun s s' Hch => change_cleared (Game.wave g) _ s s' Hch)
                dt (Game.set_bullets (moved_bullets dt g2) g2) w2
                (any_points_known _) H0) as H3.
  revert H3. generalize (Game.handle_collisions dt (Game.set_bullets (moved_bullets dt g2) g2) w2).
  intros [g3 w3] (Hw & gr3 & Hgr3 & He3). cbn [fst snd] in *.
  destruct (settle_shape dt g3) as (ps & m & t0 & ->).
  cbn [Game.grid Game.set_particles Game.set_shake_mag Game.set_shake_timer]. rewrite Hgr3.
  assert (Ha : (EnemyGrid.alive gr3 =? 0) = true)
    by (unfold EnemyGrid.alive; rewrite He3; reflexivity).
  rewrite Ha, next_wave_eq. cbn [fst Game.grid Game.wave Game.bullets Game.set_enemy_bullets
    Game.set_bullets Game.set_grid Game.set_wave Game.set_particles Game.set_shake_mag
    Game.set_shake_timer].
  split; [lia|]. split; [reflexivity|]. eexists. split; [reflexivity|].
  pose proof (EnemyGrid_new_spec (Game.wave g3 + 1) w3) as (_ & Hn & _).
  exact Hn.
Qed.

(** X26.  The skip-wave key.  F3 in the PLAYING scene, alone in a pass of
    the loop, ends the wave in that pass: the loop goes on, the wave is one
    higher, the bullets are gone and a full grid is in place. *)
Theorem skip_wave (f : Frame) (g : Game.t) (w : World) (gr : EnemyGrid.t) :
  Game.scene g = SCENE_PLAYING ->
  Game.grid g = Some gr ->
  frame_events f = [KEYDOWN K_F3] ->
  exists g', fst (MainLoop.iteration f g w) = Some (g', true)
    /\ Game.wave g' = Game.wave g + 1
    /\ Game.bullets g' = []
    /\ exists gr', Game.grid g' = Some gr' /\ EnemyGrid.alive gr' = 48.
Proof.
  intros Hs Hgr Hf. unfold MainLoop.iteration, mbind, M_bind, mret, M_ret. rewrite Hf.
  cbn [MainLoop.events MainLoop.keydown]. unfold mbind, M_bind, mret, M_ret.
  rewrite Hs, Hgr. cbn [Scene_eqb].
  change (Game.scene (Game.set_grid (Some (EnemyGrid.set_enemies [] gr)) g))
    with (Game.scene g).
  rewrite Hs.
  pose proof (update_game_cleared (frame_dt f) (frame_keys f)
                (Game.set_grid (Some (EnemyGrid.set_enemies [] gr)) g) w
                (EnemyGrid.set_enemies [] gr) eq_refl eq_refl) as H.
  cbv zeta in H. revert H.
  generalize (Game.update_game (frame_dt f) (frame_keys f)
                (Game.set_grid (Some (EnemyGrid.set_enemies [] gr)) g) w).
  intros [g' w'] H. exists g'. split; [reflexivity | exact H].
Qed.

Lemma bullet_caps_witness :
  let g' := fst (Game.update_game (1 # 60) space_held full_magazine sample_world') in
  (player_shots (Game.bullets g') <= PLAYER_MAX_BULLETS
   /\ enemy_shots (Game.bullets g') <= ENEMY_MAX_BULLETS)
  /\ player_shots (Game.bullets g') = 3.
Proof.
  split; [| vm_compute; reflexivity].
  apply (bullet_caps (1 # 60) space_held full_magazine sample_world');
    vm_compute; intros H; discriminate H.
Defined.

Lemma grid_ok_sample : grid_ok sample_game.
Proof. vm_compute. repeat constructor. Qed.

Lemma enemies_have_hit_points_witness :
  grid_ok sample_game
  /\ grid_ok (fst (Game.update_game (1 # 60) space_held aimed_game sample_world')).
Proof.
  split; [exact grid_ok_sample|].
  apply (proj2 (proj2 enemies_have_hit_points)). exact grid_ok_sample.
Defined.

Lemma score_never_drops_witness :
  let g' := fst (Game.update_game (1 # 60) no_keys aimed_game sample_world') in
  (Game.score aimed_game <= Game.score g' /\ (0 <= Game.combo_mult g')%Q /\ grid_ok g')
  /\ Game.score aimed_game = 0 /\ Game.score g' = 10.
Proof.
  split; [| split; vm_compute; reflexivity].
  apply (score_never_drops (1 # 60) no_keys aimed_game sample_world').
  - exact grid_ok_sample.
  - vm_compute. intros H; discriminate H.
Defined.

Lemma lives_and_game_over_witness :
  let r := Game.update_game (1 # 60) no_keys breached_last_life sample_world' in
  ((Player.lives (Game.player (fst r)) = 1 /\ Game.scene (fst r) = SCENE_PLAYING)
   \/ (Player.lives (Game.player (fst r)) = 1 - 1
       /\ (0 < Player.invuln_timer (Game.player (fst r)))%Q
       /\ Game.scene (fst r)
          = if Player.lives (Game.player (fst r)) <=? 0
            then SCENE_GAME_OVER else SCENE_PLAYING))
  /\ Player.lives (Game.player (fst r)) = 0
  /\ Game.scene (fst r) = SCENE_GAME_OVER.
Proof.
  split; [| split; vm_compute; reflexivity].
  apply (proj2 (proj2 (lives_and_game_over (1 # 60) no_keys breached_last_life
                         sample_world'))).
  - reflexivity.
  - vm_compute. reflexivity.
Defined.

Lemma end_of_wave_witness :
  let g' := fst (Game.update_game (1 # 60) no_keys aimed_game sample_world') in
  (exists gr', Game.grid g' = Some gr'
     /\ 0 < EnemyGrid.alive gr'
     /\ (Game.wave g' = Game.wave aimed_game
         \/ (Game.wave g' = Game.wave aimed_game + 1 /\ EnemyGrid.alive gr' = 48
             /\ Game.bullets g' = [])))
  /\ (EnemyGrid.alive <$> Game.grid g') = Some 47 /\ Game.wave g' = 1.
Proof.
  split; [| split; vm_compute; reflexivity].
  apply (end_of_wave (1 # 60) no_keys aimed_game sample_world').
  eexists. reflexivity.
Defined.

Lemma game_over_runs_again_witness :
  let r := Game.enemy_bullet_step on_ship (fst after_first_bullet) (snd after_first_bullet) in
  let done := Game.handle_collisions (1 # 60) last_life_game sample_world' in
  Game.table (snd after_first_bullet) (fst after_first_bullet) = [120]
  /\ Player.lives (Game.player (fst after_first_bullet)) = 0
  /\ Game.table (snd r) (fst (fst r)) = [120; 120]
  /\ Game.table (snd done) (fst done) = [120; 120].
Proof.
  split; [vm_compute; reflexivity|]. split; [vm_compute; reflexivity|].
  split; [| vm_compute; reflexivity].
  destruct (game_over_runs_again on_ship (fst after_first_bullet) (snd after_first_bullet))
    as (_ & _ & H & _).
  - reflexivity.
  - vm_compute. reflexivity.
  - vm_compute. reflexivity.
  - vm_compute. intros H; discriminate H.
  - reflexivity.
  - vm_compute. lia.
  - rewrite H. vm_compute. reflexivity.
Defined.


Lemma session_state_witness :
  let start := Game.new true sample_world in
  let r := MainLoop.run [enter_frame; skip_frame; pause_frame] (fst start) (snd start) in
  (exists g', fst r = Some g' /\ table_ok (Game.table (snd r) g'))
  /\ (Game.wave <$> fst r) = Some 2 /\ (Game.scene <$> fst r) = Some SCENE_PAUSED.
Proof.
  split; [| split; vm_compute; reflexivity].
  destruct (session_state true sample_world [enter_frame; skip_frame; pause_frame])
    as (g' & E & _ & _ & _ & _ & H).
  exists g'. split; [exact E|]. apply H. exact Logic.I.
Defined.


Lemma skip_wave_witness :
  exists g', fst (MainLoop.iteration skip_frame sample_game sample_world') = Some (g', true)
    /\ Game.wave g' = Game.wave sample_game + 1
    /\ Game.bullets g' = []
    /\ exists gr', Game.grid g' = Some gr' /\ EnemyGrid.alive gr' = 48.
Proof.
  exact (skip_wave skip_frame sample_game sample_world' sample_grid eq_refl eq_refl eq_refl).
Defined.
